(** * 3D-Chess: board engine and search engine

    A shallow embedding of [chess3d-core.py] (class [Chess3D]) and of
    [ai-engine.py] (class [ChessAI]), with the properties of the
    specification that concern them.

    Conventions of the embedding.
    - Python integers are [Z].
    - The board is the numpy array [np.full((3, 8, 8), None, dtype=object)]:
      192 cells in row-major order, the cell of [board[l, r, f]] being
      [l * 64 + r * 8 + f].  numpy accepts an index [i] on an axis of
      size [n] when [-n <= i < n] (a negative index counts from the end)
      and raises [IndexError] otherwise; [axis_index] writes this out.
    - A computation that can raise returns [option]: [None] is the raised
      [IndexError], the only exception these classes can raise.
    - Methods that mutate [self] take the game and return the new game.
    - [move_history] is a stack: [append] is [cons], [pop] removes the
      head.
    - The engine is modelled in the configuration [time_limit = None],
      in which the clock is never consulted; the node counter and the
      [print] calls are instrumentation and are left out.
    - A Python [str] is the list of its code points, and the [dict] of
      [get_board_state] an association list in the order of insertion. *)

From stdpp Require Import base option list.
From Stdlib Require Import ZArith Lia Bool.
From Stdlib Require Ascii String DecimalString.

Open Scope Z_scope.

(** ** Data model *)

Inductive PieceType := PAWN | KNIGHT | BISHOP | ROOK | QUEEN | KING.

Inductive Color := WHITE | BLACK.

Record Piece := mkPiece { type : PieceType; color : Color }.

Record Position := mkPosition { level : Z; rank : Z; file : Z }.

Record Move := mkMove {
  from_pos : Position;
  to_pos : Position;
  promotion : option PieceType
}.

Record Chess3D := mkChess3D {
  board : list (option Piece);
  current_player : Color;
  move_history : list (Move * option Piece)
}.

Definition PieceType_eqb (a b : PieceType) : bool :=
  match a, b with
  | PAWN, PAWN | KNIGHT, KNIGHT | BISHOP, BISHOP
  | ROOK, ROOK | QUEEN, QUEEN | KING, KING => true
  | _, _ => false
  end.

Definition Color_eqb (a b : Color) : bool :=
  match a, b with
  | WHITE, WHITE | BLACK, BLACK => true
  | _, _ => false
  end.

(** [Position.__eq__] *)
Definition Position_eqb (p q : Position) : bool :=
  (level p =? level q) && (rank p =? rank q) && (file p =? file q).

Definition promotion_eqb (a b : option PieceType) : bool :=
  match a, b with
  | None, None => true
  | Some x, Some y => PieceType_eqb x y
  | _, _ => false
  end.

(** The [__eq__] that [@dataclass] generates for [Move]. *)
Definition Move_eqb (m n : Move) : bool :=
  Position_eqb (from_pos m) (from_pos n)
  && Position_eqb (to_pos m) (to_pos n)
  && promotion_eqb (promotion m) (promotion n).

(** [move in valid_moves] *)
Definition Move_in (m : Move) (l : list Move) : bool := existsb (Move_eqb m) l.

(** [Color.BLACK if c == Color.WHITE else Color.WHITE] *)
Definition opponent (c : Color) : Color :=
  match c with WHITE => BLACK | BLACK => WHITE end.

(** ** Board access *)

Definition axis_index (n i : Z) : option Z :=
  if (0 <=? i) && (i <? n) then Some i
  else if (- n <=? i) && (i <? 0) then Some (i + n)
  else None.

Definition cell (pos : Position) : option nat :=
  l ← axis_index 3 (level pos);
  r ← axis_index 8 (rank pos);
  f ← axis_index 8 (file pos);
  Some (Z.to_nat (l * 64 + r * 8 + f)).

Definition get_piece (g : Chess3D) (pos : Position) : option (option Piece) :=
  i ← cell pos; board g !! i.

Definition with_board (g : Chess3D) (b : list (option Piece)) : Chess3D :=
  mkChess3D b (current_player g) (move_history g).

Definition set_piece (g : Chess3D) (pos : Position) (piece : option Piece)
  : option Chess3D :=
  i ← cell pos; Some (with_board g (<[i := piece]> (board g))).

Definition is_valid_position (pos : Position) : bool :=
  (0 <=? level pos) && (level pos <? 3)
  && (0 <=? rank pos) && (rank pos <? 8)
  && (0 <=? file pos) && (file pos <? 8).

(** ** Initial position *)

Definition piece_order : list PieceType :=
  [ROOK; KNIGHT; BISHOP; QUEEN; KING; BISHOP; KNIGHT; ROOK].

Definition files : list Z := [0; 1; 2; 3; 4; 5; 6; 7].

Fixpoint setup_files (g : Chess3D) (lv : Z) (c : Color) (back_rank pawn_rank : Z)
    (fs : list Z) : option Chess3D :=
  match fs with
  | [] => Some g
  | f :: fs =>
      pt ← piece_order !! Z.to_nat f;
      g1 ← set_piece g (mkPosition lv back_rank f) (Some (mkPiece pt c));
      g2 ← set_piece g1 (mkPosition lv pawn_rank f) (Some (mkPiece PAWN c));
      setup_files g2 lv c back_rank pawn_rank fs
  end.

Definition setup_standard_board (g : Chess3D) (lv : Z) (c : Color) : option Chess3D :=
  let back_rank := if Color_eqb c WHITE then 0 else 7 in
  let pawn_rank := if Color_eqb c WHITE then 1 else 6 in
  setup_files g lv c back_rank pawn_rank files.

Definition setup_pieces (g : Chess3D) : option Chess3D :=
  g1 ← setup_standard_board g 0 WHITE;
  setup_standard_board g1 2 BLACK.

Definition reset : option Chess3D :=
  setup_pieces (mkChess3D (replicate 192 None) WHITE []).

(** The game that [Chess3D()] builds: [reset], evaluated. *)
Definition start : Chess3D :=
  Eval vm_compute in default (mkChess3D [] WHITE []) reset.

(** ** Move generation *)

(** The body of a [for] loop that appends to [moves]: the moves of every
    iteration, in order. *)
Fixpoint for_moves {A} (xs : list A) (body : A → option (list Move))
  : option (list Move) :=
  match xs with
  | [] => Some []
  | x :: xs => ms ← body x; rest ← for_moves xs body; Some (ms ++ rest)
  end.

(** [not target or target.color != piece.color] *)
Definition empty_or_enemy (target : option Piece) (piece : Piece) : bool :=
  match target with
  | None => true
  | Some t => negb (Color_eqb (color t) (color piece))
  end.

(** [target and target.color != piece.color] *)
Definition is_enemy (target : option Piece) (piece : Piece) : bool :=
  match target with
  | None => false
  | Some t => negb (Color_eqb (color t) (color piece))
  end.

(** The guarded append shared by the knight, king and diagonal level moves:
    [if self.is_valid_position(new_pos): target = ...; if not target or ...]. *)
Definition try_target (g : Chess3D) (pos : Position) (piece : Piece)
    (new_pos : Position) : option (list Move) :=
  if is_valid_position new_pos then
    target ← get_piece g new_pos;
    Some (if empty_or_enemy target piece then [mkMove pos new_pos None] else [])
  else Some [].

Definition promotion_types : list PieceType := [QUEEN; ROOK; BISHOP; KNIGHT].

(** [(new_pos.rank == 7 and piece.color == WHITE) or
     (new_pos.rank == 0 and piece.color == BLACK)] *)
Definition on_last_rank (new_pos : Position) (piece : Piece) : bool :=
  ((rank new_pos =? 7) && Color_eqb (color piece) WHITE)
  || ((rank new_pos =? 0) && Color_eqb (color piece) BLACK).

Definition pawn_arrivals (pos new_pos : Position) (piece : Piece) : list Move :=
  if on_last_rank new_pos piece
  then map (fun pt => mkMove pos new_pos (Some pt)) promotion_types
  else [mkMove pos new_pos None].

Definition _get_pawn_moves (g : Chess3D) (pos : Position) (piece : Piece)
  : option (list Move) :=
  let direction := if Color_eqb (color piece) WHITE then 1 else -1 in
  let start_rank := if Color_eqb (color piece) WHITE then 1 else 6 in
  let new_pos := mkPosition (level pos) (rank pos + direction) (file pos) in
  forward ←
    (if is_valid_position new_pos then
       target ← get_piece g new_pos;
       match target with
       | Some _ => Some []
       | None =>
           double ←
             (if rank pos =? start_rank then
                let new_pos2 :=
                  mkPosition (level pos) (rank pos + 2 * direction) (file pos) in
                if is_valid_position new_pos2 then
                  target2 ← get_piece g new_pos2;
                  Some (match target2 with
                        | None => [mkMove pos new_pos2 None]
                        | Some _ => []
                        end)
                else Some []
              else Some []);
           Some (pawn_arrivals pos new_pos piece ++ double)
       end
     else Some []);
  captures ←
    for_moves [-1; 1] (fun file_offset =>
      let new_pos :=
        mkPosition (level pos) (rank pos + direction) (file pos + file_offset) in
      if is_valid_position new_pos then
        target ← get_piece g new_pos;
        Some (if is_enemy target piece then pawn_arrivals pos new_pos piece else [])
      else Some []);
  Some (forward ++ captures).

Definition knight_offsets : list (Z * Z) :=
  [(2, 1); (1, 2); (-1, 2); (-2, 1); (-2, -1); (-1, -2); (1, -2); (2, -1)].

Definition _get_knight_moves (g : Chess3D) (pos : Position) (piece : Piece)
  : option (list Move) :=
  for_moves knight_offsets (fun '(rank_offset, file_offset) =>
    try_target g pos piece
      (mkPosition (level pos) (rank pos + rank_offset) (file pos + file_offset))).

(** One direction of [_get_sliding_moves]: the inner loop over
    [distance in range(1, 8)], with its three [break]s. *)
Fixpoint slide (g : Chess3D) (pos : Position) (piece : Piece)
    (direction : Z * Z) (distances : list Z) : option (list Move) :=
  match distances with
  | [] => Some []
  | distance :: distances =>
      let new_pos :=
        mkPosition (level pos)
                   (rank pos + fst direction * distance)
                   (file pos + snd direction * distance) in
      if negb (is_valid_position new_pos) then Some []
      else
        target ← get_piece g new_pos;
        match target with
        | None =>
            rest ← slide g pos piece direction distances;
            Some (mkMove pos new_pos None :: rest)
        | Some t =>
            if negb (Color_eqb (color t) (color piece))
            then Some [mkMove pos new_pos None]
            else Some []
        end
  end.

Definition distances : list Z := [1; 2; 3; 4; 5; 6; 7].

Definition _get_sliding_moves (g : Chess3D) (pos : Position) (piece : Piece)
    (directions : list (Z * Z)) : option (list Move) :=
  for_moves directions (fun direction => slide g pos piece direction distances).

Definition bishop_directions : list (Z * Z) := [(1, 1); (1, -1); (-1, 1); (-1, -1)].
Definition rook_directions : list (Z * Z) := [(0, 1); (1, 0); (0, -1); (-1, 0)].
Definition queen_directions : list (Z * Z) :=
  [(0, 1); (1, 0); (0, -1); (-1, 0); (1, 1); (1, -1); (-1, 1); (-1, -1)].

Definition _get_bishop_moves g pos piece := _get_sliding_moves g pos piece bishop_directions.
Definition _get_rook_moves g pos piece := _get_sliding_moves g pos piece rook_directions.
Definition _get_queen_moves g pos piece := _get_sliding_moves g pos piece queen_directions.

Definition _get_king_moves (g : Chess3D) (pos : Position) (piece : Piece)
  : option (list Move) :=
  for_moves queen_directions (fun direction =>
    try_target g pos piece
      (mkPosition (level pos) (rank pos + fst direction) (file pos + snd direction))).

Definition diagonal_offsets : list (Z * Z) := [(1, 1); (1, -1); (-1, 1); (-1, -1)].

(** The diagonal steps onto the level [level pos + level_offset]. *)
Definition level_diagonals (g : Chess3D) (pos : Position) (piece : Piece)
    (level_offset : Z) : option (list Move) :=
  for_moves diagonal_offsets (fun '(rank_offset, file_offset) =>
    try_target g pos piece
      (mkPosition (level pos + level_offset)
                  (rank pos + rank_offset) (file pos + file_offset))).

(** The vertical step onto the level [level pos + level_offset]; the source
    reads the destination cell without [is_valid_position]. *)
Definition level_vertical (g : Chess3D) (pos : Position) (piece : Piece)
    (level_offset : Z) : option (list Move) :=
  let new_pos := mkPosition (level pos + level_offset) (rank pos) (file pos) in
  target ← get_piece g new_pos;
  Some (if empty_or_enemy target piece then [mkMove pos new_pos None] else []).

Definition _get_3d_moves (g : Chess3D) (pos : Position) (piece : Piece)
  : option (list Move) :=
  if PieceType_eqb (type piece) KNIGHT then
    let level_offsets :=
      (if level pos <? 2 then [1] else []) ++ (if level pos >? 0 then [-1] else []) in
    for_moves level_offsets (level_diagonals g pos piece)
  else if PieceType_eqb (type piece) BISHOP || PieceType_eqb (type piece) QUEEN then
    up ← (if level pos <? 2 then level_diagonals g pos piece 1 else Some []);
    down ← (if level pos >? 0 then level_diagonals g pos piece (-1) else Some []);
    Some (up ++ down)
  else if PieceType_eqb (type piece) ROOK || PieceType_eqb (type piece) QUEEN then
    up ← (if level pos <? 2 then level_vertical g pos piece 1 else Some []);
    down ← (if level pos >? 0 then level_vertical g pos piece (-1) else Some []);
    Some (up ++ down)
  else Some [].

Definition get_valid_moves (g : Chess3D) (pos : Position) : option (list Move) :=
  piece ← get_piece g pos;
  match piece with
  | None => Some []
  | Some piece =>
      moves ←
        match type piece with
        | PAWN => _get_pawn_moves g pos piece
        | KNIGHT => _get_knight_moves g pos piece
        | BISHOP => _get_bishop_moves g pos piece
        | ROOK => _get_rook_moves g pos piece
        | QUEEN => _get_queen_moves g pos piece
        | KING => _get_king_moves g pos piece
        end;
      moves3d ← _get_3d_moves g pos piece;
      Some (moves ++ moves3d)
  end.

(** ** Applying and undoing moves *)

(** The promotion test of [make_move]. *)
Definition promotes (move : Move) (piece : Piece) : bool :=
  match promotion move with
  | None => false
  | Some _ =>
      PieceType_eqb (type piece) PAWN
      && ((Color_eqb (color piece) WHITE && (rank (to_pos move) =? 7))
          || (Color_eqb (color piece) BLACK && (rank (to_pos move) =? 0)))
  end.

Definition make_move (g : Chess3D) (move : Move) : option (bool * Chess3D) :=
  piece ← get_piece g (from_pos move);
  match piece with
  | None => Some (false, g)
  | Some piece =>
      if negb (Color_eqb (color piece) (current_player g)) then Some (false, g)
      else
        valid_moves ← get_valid_moves g (from_pos move);
        if negb (Move_in move valid_moves) then Some (false, g)
        else
          captured_piece ← get_piece g (to_pos move);
          g1 ← set_piece g (to_pos move) (Some piece);
          g2 ← set_piece g1 (from_pos move) None;
          g3 ←
            (if promotes move piece then
               match promotion move with
               | Some pt => set_piece g2 (to_pos move) (Some (mkPiece pt (color piece)))
               | None => Some g2
               end
             else Some g2);
          Some (true,
                mkChess3D (board g3)
                          (opponent (current_player g3))
                          ((move, captured_piece) :: move_history g3))
  end.

Definition undo_move (g : Chess3D) : option (bool * Chess3D) :=
  match move_history g with
  | [] => Some (false, g)
  | (move, captured_piece) :: history =>
      let g0 := mkChess3D (board g) (current_player g) history in
      piece ← get_piece g0 (to_pos move);
      g1 ← set_piece g0 (from_pos move) piece;
      g2 ← set_piece g1 (to_pos move) captured_piece;
      Some (true, mkChess3D (board g2) (opponent (current_player g2)) (move_history g2))
  end.

(** ** Check and checkmate *)

Definition levels : list Z := [0; 1; 2].
Definition ranks : list Z := [0; 1; 2; 3; 4; 5; 6; 7].

(** The cells in the order of the nested loops
    [for level in range(3): for rank in range(8): for file in range(8)]. *)
Definition all_positions : list Position :=
  l ← levels; r ← ranks; f ← files; [mkPosition l r f].

Definition is_king_of (color0 : Color) (piece : option Piece) : bool :=
  match piece with
  | Some p => PieceType_eqb (type p) KING && Color_eqb (color p) color0
  | None => false
  end.

(** The first loop nest of [is_check]: the first king of [color0] in
    scanning order (the three [break]s leave all three loops at once). *)
Fixpoint find_king (g : Chess3D) (color0 : Color) (ps : list Position)
  : option (option Position) :=
  match ps with
  | [] => Some None
  | pos :: ps =>
      piece ← get_piece g pos;
      if is_king_of color0 piece then Some (Some pos) else find_king g color0 ps
  end.

(** [for move in moves: if move.to_pos == king_pos: return True] *)
Definition targets (king_pos : Position) (moves : list Move) : bool :=
  existsb (fun move => Position_eqb (to_pos move) king_pos) moves.

(** The second loop nest of [is_check]. *)
Fixpoint attacked (g : Chess3D) (opponent_color : Color) (king_pos : Position)
    (ps : list Position) : option bool :=
  match ps with
  | [] => Some false
  | pos :: ps =>
      piece ← get_piece g pos;
      match piece with
      | Some p =>
          if Color_eqb (color p) opponent_color then
            moves ← get_valid_moves g pos;
            if targets king_pos moves then Some true
            else attacked g opponent_color king_pos ps
          else attacked g opponent_color king_pos ps
      | None => attacked g opponent_color king_pos ps
      end
  end.

Definition is_check (g : Chess3D) (color0 : Color) : option bool :=
  king_pos ← find_king g color0 all_positions;
  match king_pos with
  | None => Some false
  | Some king_pos => attacked g (opponent color0) king_pos all_positions
  end.

(** The trials of one piece in [is_checkmate]: [Some (true, g')] when a
    trial leaves the king out of check (the source returns [False] there). *)
Fixpoint escape_trials (g : Chess3D) (color0 : Color) (pos : Position)
    (piece : Piece) (moves : list Move) : option (bool * Chess3D) :=
  match moves with
  | [] => Some (false, g)
  | move :: moves =>
      captured_piece ← get_piece g (to_pos move);
      g1 ← set_piece g (to_pos move) (Some piece);
      g2 ← set_piece g1 pos None;
      still_in_check ← is_check g2 color0;
      g3 ← set_piece g2 pos (Some piece);
      g4 ← set_piece g3 (to_pos move) captured_piece;
      if negb still_in_check then Some (true, g4)
      else escape_trials g4 color0 pos piece moves
  end.

(** The loop nest of [is_checkmate] after the [is_check] test. *)
Fixpoint checkmate_scan (g : Chess3D) (color0 : Color) (ps : list Position)
  : option (bool * Chess3D) :=
  match ps with
  | [] => Some (true, g)
  | pos :: ps =>
      piece ← get_piece g pos;
      match piece with
      | Some p =>
          if Color_eqb (color p) color0 then
            moves ← get_valid_moves g pos;
            trial ← escape_trials g color0 pos p moves;
            match trial with
            | (true, g') => Some (false, g')
            | (false, g') => checkmate_scan g' color0 ps
            end
          else checkmate_scan g color0 ps
      | None => checkmate_scan g color0 ps
      end
  end.

Definition is_checkmate (g : Chess3D) (color0 : Color) : option (bool * Chess3D) :=
  in_check ← is_check g color0;
  if negb in_check then Some (false, g) else checkmate_scan g color0 all_positions.

(** ** Evaluation *)

Definition PIECE_VALUES (t : PieceType) : Z :=
  match t with
  | PAWN => 100 | KNIGHT => 320 | BISHOP => 330
  | ROOK => 500 | QUEEN => 900 | KING => 20000
  end.

Definition PAWN_TABLE : list (list Z) :=
  [ [0;  0;  0;  0;  0;  0;  0;  0];
    [50; 50; 50; 50; 50; 50; 50; 50];
    [10; 10; 20; 30; 30; 20; 10; 10];
    [5;  5; 10; 25; 25; 10;  5;  5];
    [0;  0;  0; 20; 20;  0;  0;  0];
    [5; -5;-10;  0;  0;-10; -5;  5];
    [5; 10; 10;-20;-20; 10; 10;  5];
    [0;  0;  0;  0;  0;  0;  0;  0] ].

Definition KNIGHT_TABLE : list (list Z) :=
  [ [-50;-40;-30;-30;-30;-30;-40;-50];
    [-40;-20;  0;  0;  0;  0;-20;-40];
    [-30;  0; 10; 15; 15; 10;  0;-30];
    [-30;  5; 15; 20; 20; 15;  5;-30];
    [-30;  0; 15; 20; 20; 15;  0;-30];
    [-30;  5; 10; 15; 15; 10;  5;-30];
    [-40;-20;  0;  5;  5;  0;-20;-40];
    [-50;-40;-30;-30;-30;-30;-40;-50] ].

Definition BISHOP_TABLE : list (list Z) :=
  [ [-20;-10;-10;-10;-10;-10;-10;-20];
    [-10;  0;  0;  0;  0;  0;  0;-10];
    [-10;  0; 10; 10; 10; 10;  0;-10];
    [-10;  5;  5; 10; 10;  5;  5;-10];
    [-10;  0;  5; 10; 10;  5;  0;-10];
    [-10;  5;  5;  5;  5;  5;  5;-10];
    [-10;  0;  5;  0;  0;  5;  0;-10];
    [-20;-10;-10;-10;-10;-10;-10;-20] ].

Definition ROOK_TABLE : list (list Z) :=
  [ [0;  0;  0;  0;  0;  0;  0;  0];
    [5; 10; 10; 10; 10; 10; 10;  5];
    [-5;  0;  0;  0;  0;  0;  0; -5];
    [-5;  0;  0;  0;  0;  0;  0; -5];
    [-5;  0;  0;  0;  0;  0;  0; -5];
    [-5;  0;  0;  0;  0;  0;  0; -5];
    [-5;  0;  0;  0;  0;  0;  0; -5];
    [0;  0;  0;  5;  5;  0;  0;  0] ].

Definition QUEEN_TABLE : list (list Z) :=
  [ [-20;-10;-10; -5; -5;-10;-10;-20];
    [-10;  0;  0;  0;  0;  0;  0;-10];
    [-10;  0;  5;  5;  5;  5;  0;-10];
    [-5;  0;  5;  5;  5;  5;  0; -5];
    [0;  0;  5;  5;  5;  5;  0; -5];
    [-10;  5;  5;  5;  5;  5;  0;-10];
    [-10;  0;  5;  0;  0;  0;  0;-10];
    [-20;-10;-10; -5; -5;-10;-10;-20] ].

Definition KING_MIDDLE_TABLE : list (list Z) :=
  [ [-30;-40;-40;-50;-50;-40;-40;-30];
    [-30;-40;-40;-50;-50;-40;-40;-30];
    [-30;-40;-40;-50;-50;-40;-40;-30];
    [-30;-40;-40;-50;-50;-40;-40;-30];
    [-20;-30;-30;-40;-40;-30;-30;-20];
    [-10;-20;-20;-20;-20;-20;-20;-10];
    [20; 20;  0;  0;  0;  0; 20; 20];
    [20; 30; 10;  0;  0; 10; 30; 20] ].

Definition KING_END_TABLE : list (list Z) :=
  [ [-50;-40;-30;-20;-20;-30;-40;-50];
    [-30;-20;-10;  0;  0;-10;-20;-30];
    [-30;-10; 20; 30; 30; 20;-10;-30];
    [-30;-10; 30; 40; 40; 30;-10;-30];
    [-30;-10; 30; 40; 40; 30;-10;-30];
    [-30;-10; 20; 30; 30; 20;-10;-30];
    [-30;-30;  0;  0;  0;  0;-30;-30];
    [-50;-30;-30;-30;-30;-30;-30;-50] ].

(** [table[r][f]] on Python lists; the indices come from [range(8)]. *)
Definition table_at (table : list (list Z)) (r f : Z) : option Z :=
  row ← table !! Z.to_nat r; row !! Z.to_nat f.

(** A [for] loop that updates local variables [s]. *)
Fixpoint for_acc {A S} (xs : list A) (s : S) (body : S → A → option S) : option S :=
  match xs with
  | [] => Some s
  | x :: xs => s' ← body s x; for_acc xs s' body
  end.

Definition count_piece (g : Chess3D) (piece_count : Z) (pos : Position) : option Z :=
  piece ← get_piece g pos;
  Some (match piece with
        | Some p => if negb (PieceType_eqb (type p) KING) then piece_count + 1
                    else piece_count
        | None => piece_count
        end).

Definition piece_square (p : Piece) (is_endgame : bool) (rank_mirror f : Z) : option Z :=
  match type p with
  | PAWN => table_at PAWN_TABLE rank_mirror f
  | KNIGHT => table_at KNIGHT_TABLE rank_mirror f
  | BISHOP => table_at BISHOP_TABLE rank_mirror f
  | ROOK => table_at ROOK_TABLE rank_mirror f
  | QUEEN => table_at QUEEN_TABLE rank_mirror f
  | KING => if is_endgame then table_at KING_END_TABLE rank_mirror f
            else table_at KING_MIDDLE_TABLE rank_mirror f
  end.

Definition score_piece (g : Chess3D) (is_endgame : bool) (score : Z) (pos : Position)
  : option Z :=
  piece ← get_piece g pos;
  match piece with
  | None => Some score
  | Some p =>
      let value := PIECE_VALUES (type p) in
      let rank_mirror := if Color_eqb (color p) BLACK then 7 - rank pos else rank pos in
      bonus ← piece_square p is_endgame rank_mirror (file pos);
      let value := value + bonus in
      let value := if level pos =? 1 then value + 10 else value in
      Some (if Color_eqb (color p) WHITE then score + value else score - value)
  end.

Definition count_mobility (g : Chess3D) (mobility : Z * Z) (pos : Position)
  : option (Z * Z) :=
  piece ← get_piece g pos;
  match piece with
  | None => Some mobility
  | Some p =>
      moves ← get_valid_moves g pos;
      Some (if Color_eqb (color p) WHITE
            then (fst mobility + Z.of_nat (length moves), snd mobility)
            else (fst mobility, snd mobility + Z.of_nat (length moves)))
  end.

(** The terms of [evaluate_position] that follow the two checkmate tests. *)
Definition evaluate_terms (g : Chess3D) : option Z :=
  piece_count ← for_acc all_positions 0 (count_piece g);
  let is_endgame := piece_count <=? 10 in
  score ← for_acc all_positions 0 (score_piece g is_endgame);
  mobility ← for_acc all_positions (0, 0) (count_mobility g);
  let score := score + (fst mobility - snd mobility) * 2 in
  white_check ← is_check g WHITE;
  let score := if (white_check : bool) then score - 50 else score in
  black_check ← is_check g BLACK;
  let score := if (black_check : bool) then score + 50 else score in
  Some score.

Definition evaluate_position (g : Chess3D) : option (Z * Chess3D) :=
  match is_checkmate g WHITE with
  | None => None
  | Some (true, g1) => Some (-10000, g1)
  | Some (false, g1) =>
      match is_checkmate g1 BLACK with
      | None => None
      | Some (true, g2) => Some (10000, g2)
      | Some (false, g2) => score ← evaluate_terms g2; Some (score, g2)
      end
  end.

(** ** Search *)

(** Search values: Python integers together with [float('-inf')] and
    [float('inf')]. *)
Inductive score := NegInf | Fin (v : Z) | PosInf.

(** [a < b] *)
Definition score_lt (a b : score) : bool :=
  match a, b with
  | NegInf, NegInf => false
  | NegInf, _ => true
  | Fin x, Fin y => x <? y
  | Fin _, PosInf => true
  | Fin _, NegInf => false
  | PosInf, _ => false
  end.

(** [a <= b] *)
Definition score_le (a b : score) : bool := negb (score_lt b a).

(** [max(a, b)]: Python returns the first argument unless the second is
    greater. *)
Definition score_max (a b : score) : score := if score_lt a b then b else a.

(** [min(a, b)] *)
Definition score_min (a b : score) : score := if score_lt b a then b else a.

Definition is_color (c : Color) (piece : option Piece) : bool :=
  match piece with
  | Some p => Color_eqb (color p) c
  | None => false
  end.

(** State of the loops of [minimax]: either a [return value] was executed
    inside the loop nest, or the loop is still running with its local
    [value] and its tightened bound. *)
Inductive flow :=
  | Returned (value : score) (g : Chess3D)
  | Running (value bound : score) (g : Chess3D).

Section MinimaxLoops.

(** The recursive call [self.minimax(game, depth, alpha, beta, maximizing)]. *)
Variable rec : Chess3D → Z → score → score → bool → option (score * Chess3D).

Fixpoint max_moves (depth : Z) (beta value alpha : score) (g : Chess3D)
    (moves : list Move) : option flow :=
  match moves with
  | [] => Some (Running value alpha g)
  | move :: moves =>
      made ← make_move g move;
      child ← rec (snd made) (depth - 1) alpha beta false;
      let value := score_max value (fst child) in
      undone ← undo_move (snd child);
      let alpha := score_max alpha value in
      if score_le beta alpha then Some (Returned value (snd undone))
      else max_moves depth beta value alpha (snd undone) moves
  end.

Fixpoint max_cells (depth : Z) (beta value alpha : score) (g : Chess3D)
    (ps : list Position) : option flow :=
  match ps with
  | [] => Some (Running value alpha g)
  | pos :: ps =>
      piece ← get_piece g pos;
      if is_color WHITE piece then
        moves ← get_valid_moves g pos;
        fl ← max_moves depth beta value alpha g moves;
        match fl with
        | Returned v g' => Some (Returned v g')
        | Running value alpha g' => max_cells depth beta value alpha g' ps
        end
      else max_cells depth beta value alpha g ps
  end.

Fixpoint min_moves (depth : Z) (alpha value beta : score) (g : Chess3D)
    (moves : list Move) : option flow :=
  match moves with
  | [] => Some (Running value beta g)
  | move :: moves =>
      made ← make_move g move;
      child ← rec (snd made) (depth - 1) alpha beta true;
      let value := score_min value (fst child) in
      undone ← undo_move (snd child);
      let beta := score_min beta value in
      if score_le beta alpha then Some (Returned value (snd undone))
      else min_moves depth alpha value beta (snd undone) moves
  end.

Fixpoint min_cells (depth : Z) (alpha value beta : score) (g : Chess3D)
    (ps : list Position) : option flow :=
  match ps with
  | [] => Some (Running value beta g)
  | pos :: ps =>
      piece ← get_piece g pos;
      if is_color BLACK piece then
        moves ← get_valid_moves g pos;
        fl ← min_moves depth alpha value beta g moves;
        match fl with
        | Returned v g' => Some (Returned v g')
        | Running value beta g' => min_cells depth alpha value beta g' ps
        end
      else min_cells depth alpha value beta g ps
  end.

End MinimaxLoops.

Definition flow_result (fl : flow) : score * Chess3D :=
  match fl with
  | Returned v g => (v, g)
  | Running v _ g => (v, g)
  end.

(** [ChessAI.minimax].  [depth] is a Python integer and the recursion stops
    at [depth == 0] only, so the function is defined on [fuel], the number
    of nested calls allowed; it returns [None] when the fuel runs out or
    an [IndexError] is raised. *)
Fixpoint minimax (fuel : nat) (game : Chess3D) (depth : Z) (alpha beta : score)
    (maximizing : bool) : option (score * Chess3D) :=
  match fuel with
  | O => None
  | S fuel =>
      if depth =? 0 then
        ev ← evaluate_position game; Some (Fin (fst ev), snd ev)
      else if maximizing then
        flow_result <$> max_cells (minimax fuel) depth beta NegInf alpha game all_positions
      else
        flow_result <$> min_cells (minimax fuel) depth alpha PosInf beta game all_positions
  end.

(** The moves of every piece of [color0], in scanning order ([all_moves]
    before the shuffle). *)
Fixpoint collect_moves (g : Chess3D) (color0 : Color) (ps : list Position)
  : option (list Move) :=
  match ps with
  | [] => Some []
  | pos :: ps =>
      piece ← get_piece g pos;
      if is_color color0 piece then
        moves ← get_valid_moves g pos;
        rest ← collect_moves g color0 ps;
        Some (moves ++ rest)
      else collect_moves g color0 ps
  end.

(** Locals of the root loop of [get_best_move]. *)
Record root_state := mkRoot {
  best_move : option Move;
  best_value : score;
  root_alpha : score;
  root_beta : score;
  temp_game : Chess3D
}.

Fixpoint root_loop (fuel : nat) (max_depth : Z) (color0 : Color) (s : root_state)
    (moves : list Move) : option root_state :=
  match moves with
  | [] => Some s
  | move :: moves =>
      captured_piece ← get_piece (temp_game s) (to_pos move);
      piece ← get_piece (temp_game s) (from_pos move);
      made ← make_move (temp_game s) move;
      if Color_eqb color0 WHITE then
        child ← minimax fuel (snd made) (max_depth - 1) (root_alpha s) (root_beta s) false;
        let value := fst child in
        let improved := score_lt (best_value s) value in
        undone ← undo_move (snd child);
        root_loop fuel max_depth color0
          (mkRoot (if improved then Some move else best_move s)
                  (if improved then value else best_value s)
                  (score_max (root_alpha s) value) (root_beta s) (snd undone))
          moves
      else
        child ← minimax fuel (snd made) (max_depth - 1) (root_alpha s) (root_beta s) true;
        let value := fst child in
        let improved := score_lt value (best_value s) in
        undone ← undo_move (snd child);
        root_loop fuel max_depth color0
          (mkRoot (if improved then Some move else best_move s)
                  (if improved then value else best_value s)
                  (root_alpha s) (score_min (root_beta s) value) (snd undone))
          moves
  end.

Section BestMove.

(** The outcome of [random.shuffle(all_moves)] on each list. *)
Variable shuffle : list Move → list Move.

(** [get_best_move] up to its [return]: the chosen move and the value
    that the source prints as [Eval].  [game] is deep-copied, so the
    caller's game is not part of the result. *)
Definition get_best_move_eval (fuel : nat) (game : Chess3D) (max_depth : Z)
    (color0 : Color) : option (option Move * score) :=
  let initial_value := if Color_eqb color0 WHITE then NegInf else PosInf in
  all_moves ← collect_moves game color0 all_positions;
  s ← root_loop fuel max_depth color0
        (mkRoot None initial_value NegInf PosInf game) (shuffle all_moves);
  Some (best_move s, best_value s).

Definition get_best_move (fuel : nat) (game : Chess3D) (max_depth : Z)
    (color0 : Color) : option (option Move) :=
  fst <$> get_best_move_eval fuel game max_depth color0.

End BestMove.

(** ** The player

    [AIPlayer.set_difficulty]: the [max_depth] and the [time_limit] of the
    engine that it builds. *)
Definition set_difficulty (level : Z) : Z * option Z :=
  if level =? 1 then (1, None)
  else if level =? 2 then (2, None)
  else if level =? 3 then (3, None)
  else if level =? 4 then (3, Some 5)
  else (4, Some 10).

Section AIPlayer.

Variable shuffle : list Move → list Move.

(** [AIPlayer.make_move] with an engine of depth [max_depth] and no time
    limit; [color0 = None] stands for the default [color=None], the side
    to move.  A [Move] object is always true in [if move:]. *)
Definition AIPlayer_make_move (fuel : nat) (g : Chess3D) (max_depth : Z)
    (color0 : option Color) : option (bool * Chess3D) :=
  let color1 := default (current_player g) color0 in
  move ← get_best_move shuffle fuel g max_depth color1;
  match move with
  | Some move => make_move g move
  | None => Some (false, g)
  end.

End AIPlayer.

(** ** Names of cells and pieces, and the board state

    A Python [str] is the list of its code points. *)
Definition text := list Z.

(** [chr(n)]; [None] is the [ValueError] outside [range(0x110000)]. *)
Definition chr (n : Z) : option Z :=
  if (0 <=? n) && (n <? 1114112) then Some n else None.

(** [str(n)] for an integer: its decimal digits after a minus sign for a
    negative one. *)
Definition str_int (n : Z) : text :=
  map (fun a => Z.of_N (Ascii.N_of_ascii a))
      (String.list_ascii_of_string
         (DecimalString.NilZero.string_of_int (Z.to_int n))).

(** [Position.__repr__]: ['A' + level], ['a' + file], [rank + 1]. *)
Definition Position_repr (pos : Position) : option text :=
  level_char ← chr (65 + level pos);
  file_char ← chr (97 + file pos);
  Some ([level_char; file_char] ++ str_int (rank pos + 1)).

(** [self.color.name[0]] and [self.type.name[0]] *)
Definition Color_initial (c : Color) : Z :=
  match c with WHITE => 87 | BLACK => 66 end.

Definition PieceType_initial (t : PieceType) : Z :=
  match t with
  | PAWN => 80 | KNIGHT => 75 | BISHOP => 66
  | ROOK => 82 | QUEEN => 81 | KING => 75
  end.

(** [Piece.__repr__] *)
Definition Piece_repr (p : Piece) : text :=
  [Color_initial (color p); PieceType_initial (type p)].

(** [pieces[key] = value] on a [dict], which keeps the order of first
    insertion, and [pieces.get(key)]. *)
Fixpoint dict_set (d : list (text * text)) (key value : text) : list (text * text) :=
  match d with
  | [] => [(key, value)]
  | (k, v) :: d =>
      if decide (k = key) then (k, value) :: d else (k, v) :: dict_set d key value
  end.

Fixpoint dict_get (d : list (text * text)) (key : text) : option text :=
  match d with
  | [] => None
  | (k, v) :: d => if decide (k = key) then Some v else dict_get d key
  end.

(** The dictionary that [get_board_state] returns: ["pieces"], the side to
    move and ["move_count"]. *)
Record board_state := mkBoardState {
  pieces : list (text * text);
  current_player_name : Color;
  move_count : nat
}.

Definition add_piece (g : Chess3D) (pieces : list (text * text)) (pos : Position)
  : option (list (text * text)) :=
  piece ← get_piece g pos;
  match piece with
  | Some p => key ← Position_repr pos; Some (dict_set pieces key (Piece_repr p))
  | None => Some pieces
  end.

Definition get_board_state (g : Chess3D) : option board_state :=
  pieces ← for_acc all_positions [] (add_piece g);
  Some (mkBoardState pieces (current_player g) (length (move_history g))).

(** ** Exhaustive minimax

    The search of the specification without pruning, over the same move
    enumeration: the value of a node of depth 0 is its evaluation, the
    value of a deeper node is the greatest (White to move) or the least
    (Black to move) of the values of the positions after each move, in
    scanning order; at the root the first move that strictly improves on
    the moves before it is kept. *)

(** The side that moves in a node. *)
Definition side (maximizing : bool) : Color := if maximizing then WHITE else BLACK.

(** The value [rec] gives to the position after each move of [moves]. *)
Fixpoint exhaustive_values (rec : Chess3D → option score) (g : Chess3D)
    (moves : list Move) : option (list score) :=
  match moves with
  | [] => Some []
  | move :: moves =>
      made ← make_move g move;
      value ← rec (snd made);
      values ← exhaustive_values rec g moves;
      Some (value :: values)
  end.

Fixpoint minimax_exhaustive (depth : nat) (g : Chess3D) (maximizing : bool)
  : option score :=
  match depth with
  | O => ev ← evaluate_position g; Some (Fin (fst ev))
  | S depth =>
      moves ← collect_moves g (side maximizing) all_positions;
      values ← exhaustive_values
                 (fun g1 => minimax_exhaustive depth g1 (negb maximizing)) g moves;
      Some (if maximizing then foldl score_max NegInf values
            else foldl score_min PosInf values)
  end.

(** One step of the choice at the root: [scored] replaces [best] when its
    value is strictly better for [color0]. *)
Definition best_of (color0 : Color) (best : option Move * score)
    (scored : Move * score) : option Move * score :=
  let improved :=
    if Color_eqb color0 WHITE then score_lt (snd best) (snd scored)
    else score_lt (snd scored) (snd best) in
  if improved then (Some (fst scored), snd scored) else best.

Section BestMoveExhaustive.

Variable shuffle : list Move → list Move.

Definition get_best_move_exhaustive (g : Chess3D) (max_depth : nat)
    (color0 : Color) : option (option Move * score) :=
  let initial_value := if Color_eqb color0 WHITE then NegInf else PosInf in
  all_moves ← collect_moves g color0 all_positions;
  let moves := shuffle all_moves in
  values ← exhaustive_values
             (fun g1 => minimax_exhaustive (max_depth - 1) g1
                          (negb (Color_eqb color0 WHITE))) g moves;
  Some (foldl (best_of color0) (None, initial_value) (zip moves values)).

End BestMoveExhaustive.

(** No move generated within [depth] plies of [g] carries a promotion, and
    the side to move alternates with [maximizing]: the part of the game
    tree in which [undo_move] restores what [make_move] changed. *)
Fixpoint clean (depth : nat) (g : Chess3D) (maximizing : bool) : bool :=
  match depth with
  | O => true
  | S depth =>
      Color_eqb (current_player g) (side maximizing)
      && match collect_moves g (side maximizing) all_positions with
         | Some moves =>
             forallb (fun move =>
                        match promotion move, make_move g move with
                        | None, Some (_, g1) => clean depth g1 (negb maximizing)
                        | _, _ => false
                        end) moves
         | None => false
         end
  end.

(** ** Positions used as examples *)

(** [np.full((3, 8, 8), None, dtype=object)], White to move, no history. *)
Definition empty_game : Chess3D := mkChess3D (replicate 192 None) WHITE [].

(** [self.board[pos.level, pos.rank, pos.file] = piece] for each entry. *)
Fixpoint place (g : Chess3D) (pieces : list (Position * Piece)) : option Chess3D :=
  match pieces with
  | [] => Some g
  | (pos, piece) :: pieces => g1 ← set_piece g pos (Some piece); place g1 pieces
  end.

Definition position_of (pieces : list (Position * Piece)) : Chess3D :=
  default empty_game (place empty_game pieces).

(** The moves of [moves] played in turn from [g]. *)
Fixpoint play (g : Chess3D) (moves : list Move) : option Chess3D :=
  match moves with
  | [] => Some g
  | move :: moves => made ← make_move g move; play (snd made) moves
  end.

(** A White king in the corner with Black rooks on its rank and on the
    next one. *)
Definition white_mated : Chess3D :=
  Eval vm_compute in
    position_of [ (mkPosition 0 0 0, mkPiece KING WHITE);
                  (mkPosition 0 0 7, mkPiece ROOK BLACK);
                  (mkPosition 0 1 7, mkPiece ROOK BLACK) ].

(** The same with the colours exchanged. *)
Definition black_mated : Chess3D :=
  Eval vm_compute in
    position_of [ (mkPosition 0 0 0, mkPiece KING BLACK);
                  (mkPosition 0 0 7, mkPiece ROOK WHITE);
                  (mkPosition 0 1 7, mkPiece ROOK WHITE) ].

(** A White pawn one step from promotion, alone on the board. *)
Definition pawn_on_seventh : Chess3D :=
  Eval vm_compute in position_of [ (mkPosition 0 6 0, mkPiece PAWN WHITE) ].

(** The same pawn after two moves of a game: the pawn stepped to rank 6
    and a Black knight answered. *)
Definition pawn_on_seventh_played : Chess3D :=
  Eval vm_compute in
    default empty_game
      (play (position_of [ (mkPosition 0 5 0, mkPiece PAWN WHITE);
                           (mkPosition 2 7 6, mkPiece KNIGHT BLACK) ])
            [ mkMove (mkPosition 0 5 0) (mkPosition 0 6 0) None;
              mkMove (mkPosition 2 7 6) (mkPosition 2 5 5) None ]).

(** A White king whose three moves all step onto a cell that a Black rook
    reaches. *)
Definition lone_king : Chess3D :=
  Eval vm_compute in
    position_of [ (mkPosition 0 0 0, mkPiece KING WHITE);
                  (mkPosition 0 7 1, mkPiece ROOK BLACK);
                  (mkPosition 0 1 7, mkPiece ROOK BLACK) ].

(** ** Predicates used in the statements *)

(** The board has the shape the constructor gives it. *)
Definition wf_board (g : Chess3D) : Prop := length (board g) = 192%nat.

(** What every generated move satisfies: it starts at [pos], its
    destination was read without error and is empty or holds an enemy of
    [piece], it is another cell of the array than [pos], and it is inside
    the board when [pos] is. *)
Definition lands (g : Chess3D) (pos : Position) (piece : Piece) (m : Move) : Prop :=
  from_pos m = pos
  ∧ (∃ target, get_piece g (to_pos m) = Some target
               ∧ empty_or_enemy target piece = true)
  ∧ cell (to_pos m) ≠ cell pos
  ∧ (is_valid_position pos = true → is_valid_position (to_pos m) = true).

(** The piece that stands on the destination after [make_move]: the
    promoted piece when the promotion test succeeds, the mover otherwise. *)
Definition arrived (move : Move) (piece : Piece) : Piece :=
  if promotes move piece then
    match promotion move with
    | Some pt => mkPiece pt (color piece)
    | None => piece
    end
  else piece.

(** Both cells of [move] can be indexed in the array. *)
Definition indexable (move : Move) : Prop :=
  is_Some (cell (from_pos move)) ∧ is_Some (cell (to_pos move)).

(** A game as the methods of [Chess3D] keep it: a board of the shape the
    constructor gives it and a history of moves whose cells exist. *)
Definition wf_game (g : Chess3D) : Prop :=
  wf_board g ∧ Forall (λ entry, indexable (fst entry)) (move_history g).

(** What a node of exact value [exact] may return when it is searched
    with the window [alpha], [beta]: the exact value inside the window, an
    upper bound of it at or below [alpha], a lower bound at or above
    [beta]. *)
Definition bounds (alpha beta exact returned : score) : Prop :=
  (score_le returned alpha = true → score_le exact returned = true)
  ∧ (score_lt alpha returned = true → score_lt returned beta = true →
     returned = exact)
  ∧ (score_le beta returned = true → score_le returned exact = true).

(** The locals of the loop of a maximising node before a cutoff, against
    the greatest exact value [exact] of the moves tried so far. *)
Definition max_running (alpha beta value bound exact : score) : Prop :=
  bound = score_max alpha value
  ∧ score_lt bound beta = true
  ∧ (score_le value alpha = true → score_le exact value = true)
  ∧ (score_lt alpha value = true → exact = value).

Definition max_flow (alpha beta exact : score) (fl : flow) : Prop :=
  match fl with
  | Running value bound _ => max_running alpha beta value bound exact
  | Returned value _ => score_le beta value = true ∧ score_le value exact = true
  end.

(** The same for a minimising node. *)
Definition min_running (alpha beta value bound exact : score) : Prop :=
  bound = score_min beta value
  ∧ score_lt alpha bound = true
  ∧ (score_le beta value = true → score_le value exact = true)
  ∧ (score_lt value beta = true → exact = value).

Definition min_flow (alpha beta exact : score) (fl : flow) : Prop :=
  match fl with
  | Running value bound _ => min_running alpha beta value bound exact
  | Returned value _ => score_le value alpha = true ∧ score_le exact value = true
  end.

(** The recursive call on [g1] returns a value within [bounds] of the
    exhaustive value and hands [g1] back. *)
Definition child_refines
    (rec : Chess3D → Z → score → score → bool → option (score * Chess3D))
    (rec_ex : Chess3D → option score) (depth : Z) (maximizing : bool)
    (g1 : Chess3D) : Prop :=
  ∃ exact,
    rec_ex g1 = Some exact
    ∧ ∀ alpha beta,
        ∃ returned,
          rec g1 (depth - 1) alpha beta maximizing = Some (returned, g1)
          ∧ (score_lt alpha beta = true → bounds alpha beta exact returned).

(** [move] is accepted on [g], [undo_move] then gives [g] back, and the
    recursive call on the position in between refines the exhaustive one. *)
Definition step_refines
    (rec : Chess3D → Z → score → score → bool → option (score * Chess3D))
    (rec_ex : Chess3D → option score) (depth : Z) (maximizing : bool)
    (g : Chess3D) (move : Move) : Prop :=
  ∃ g1,
    make_move g move = Some (true, g1)
    ∧ undo_move g1 = Some (true, g)
    ∧ child_refines rec rec_ex depth maximizing g1.

(** The step of [m] from [pos] follows the movement rule of [piece]:
    within the level the usual step of the piece, and between adjacent
    levels a one-cell diagonal step for knights, bishops and queens and a
    step straight up or down for rooks. *)
Definition geometry (piece : Piece) (pos : Position) (m : Move) : Prop :=
  let dl := level (to_pos m) - level pos in
  let dr := rank (to_pos m) - rank pos in
  let df := file (to_pos m) - file pos in
  let forward := if Color_eqb (color piece) WHITE then 1 else -1 in
  let start_rank := if Color_eqb (color piece) WHITE then 1 else 6 in
  let straight := (dr = 0 ∧ df ≠ 0) ∨ (dr ≠ 0 ∧ df = 0) in
  let diagonal := Z.abs dr = Z.abs df ∧ dr ≠ 0 in
  let leap := Z.abs dl = 1 ∧ Z.abs dr = 1 ∧ Z.abs df = 1 in
  match type piece with
  | PAWN =>
      dl = 0 ∧ ((dr = forward ∧ - 1 <= df <= 1)
                ∨ (dr = 2 * forward ∧ df = 0 ∧ rank pos = start_rank))
  | KNIGHT =>
      (dl = 0 ∧ ((Z.abs dr = 1 ∧ Z.abs df = 2) ∨ (Z.abs dr = 2 ∧ Z.abs df = 1)))
      ∨ leap
  | BISHOP => (dl = 0 ∧ diagonal) ∨ leap
  | ROOK => (dl = 0 ∧ straight) ∨ (Z.abs dl = 1 ∧ dr = 0 ∧ df = 0)
  | QUEEN => (dl = 0 ∧ (straight ∨ diagonal)) ∨ leap
  | KING => dl = 0 ∧ Z.abs dr <= 1 ∧ Z.abs df <= 1 ∧ (dr ≠ 0 ∨ df ≠ 0)
  end.

(** [m] carries a promotion exactly when it brings a pawn to its last
    rank, and the promotion is then one of the four of [_get_pawn_moves]. *)
Definition promotion_rule (piece : Piece) (m : Move) : Prop :=
  match promotion m with
  | None => ¬ (type piece = PAWN ∧ on_last_rank (to_pos m) piece = true)
  | Some pt =>
      type piece = PAWN ∧ on_last_rank (to_pos m) piece = true
      ∧ pt ∈ promotion_types
  end.

Definition well_shaped (piece : Piece) (pos : Position) (m : Move) : Prop :=
  from_pos m = pos ∧ geometry piece pos m ∧ promotion_rule piece m.

(** The cell [d] steps from [pos] in [direction], within the level. *)
Definition along (pos : Position) (direction : Z * Z) (d : Z) : Position :=
  mkPosition (level pos) (rank pos + fst direction * d) (file pos + snd direction * d).

(** The direction vectors that [get_valid_moves] walks for a piece type. *)
Definition directions_of (t : PieceType) : list (Z * Z) :=
  match t with
  | BISHOP => bishop_directions
  | ROOK => rook_directions
  | QUEEN => queen_directions
  | _ => []
  end.

(** The cells strictly between [pos] and the [k]-th cell in [direction]
    are inside the board and empty, and the [k]-th is inside the board and
    empty or held by a piece of the other colour. *)
Definition clear_path (g : Chess3D) (pos : Position) (piece : Piece)
    (direction : Z * Z) (k : Z) : Prop :=
  (∀ j, 1 <= j < k →
        is_valid_position (along pos direction j) = true
        ∧ get_piece g (along pos direction j) = Some None)
  ∧ is_valid_position (along pos direction k) = true
  ∧ ∃ target, get_piece g (along pos direction k) = Some target
              ∧ empty_or_enemy target piece = true.

(** A White rook in the middle of level 0 with a White pawn two cells
    above it and a Black pawn two cells below. *)
Definition rook_between_pawns : Chess3D :=
  Eval vm_compute in
    position_of [ (mkPosition 0 3 3, mkPiece ROOK WHITE);
                  (mkPosition 0 5 3, mkPiece PAWN WHITE);
                  (mkPosition 0 2 3, mkPiece PAWN BLACK) ].

(** The trial of [is_checkmate]: [piece] is put on the destination of
    [move] and the cell [pos] is emptied, without promotion and without
    touching the history. *)
Definition relocated (g : Chess3D) (pos : Position) (piece : Piece) (move : Move)
  : option Chess3D :=
  g1 ← set_piece g (to_pos move) (Some piece); set_piece g1 pos None.

(** The cell that mirrors [pos] across the middle of its level. *)
Definition mirror (pos : Position) : Position :=
  mkPosition (level pos) (7 - rank pos) (file pos).

(** * Properties *)

(** ** Cells of the array *)

Lemma axis_index_Some n i k :
  axis_index n i = Some k →
  0 <= k < n ∧ (k = i ∨ (k = i + n ∧ i < 0)).
Proof.
  unfold axis_index. intros H.
  destruct ((0 <=? i) && (i <? n)) eqn:E1.
  - injection H as <-. lia.
  - destruct ((- n <=? i) && (i <? 0)) eqn:E2; [|done].
    injection H as <-. lia.
Qed.

Lemma axis_index_in_range n i : 0 <= i < n → axis_index n i = Some i.
Proof.
  intros H. unfold axis_index.
  replace ((0 <=? i) && (i <? n)) with true; [done|].
  symmetry. apply andb_true_iff. split; [apply Z.leb_le | apply Z.ltb_lt]; lia.
Qed.

Lemma is_valid_position_spec pos :
  is_valid_position pos = true ↔
  0 <= level pos < 3 ∧ 0 <= rank pos < 8 ∧ 0 <= file pos < 8.
Proof.
  unfold is_valid_position. rewrite !andb_true_iff, !Z.leb_le, !Z.ltb_lt. lia.
Qed.

Lemma cell_valid pos :
  is_valid_position pos = true →
  cell pos = Some (Z.to_nat (level pos * 64 + rank pos * 8 + file pos)).
Proof.
  intros H%is_valid_position_spec. unfold cell.
  rewrite !axis_index_in_range by lia. done.
Qed.

Lemma cell_Some pos i :
  cell pos = Some i →
  ∃ l r f, axis_index 3 (level pos) = Some l ∧ axis_index 8 (rank pos) = Some r
           ∧ axis_index 8 (file pos) = Some f ∧ i = Z.to_nat (l * 64 + r * 8 + f).
Proof.
  unfold cell. intros H.
  destruct (axis_index 3 (level pos)) as [l|]; [|done].
  destruct (axis_index 8 (rank pos)) as [r|]; [|done].
  destruct (axis_index 8 (file pos)) as [f|]; [|done].
  simpl in H. injection H as <-. eauto 10.
Qed.

Lemma cell_lt pos i : cell pos = Some i → (i < 192)%nat.
Proof.
  intros (l & r & f & Hl & Hr & Hf & ->)%cell_Some.
  apply axis_index_Some in Hl, Hr, Hf. lia.
Qed.

(** A destination inside the board, at most two levels and seven ranks and
    files away from [pos] and different from it, is another cell than the
    one numpy reads for [pos], also when [pos] has negative coordinates. *)
Lemma cell_moved pos new_pos :
  is_valid_position new_pos = true →
  is_Some (cell pos) →
  - 2 <= level new_pos - level pos <= 2 →
  - 7 <= rank new_pos - rank pos <= 7 →
  - 7 <= file new_pos - file pos <= 7 →
  (level new_pos ≠ level pos ∨ rank new_pos ≠ rank pos ∨ file new_pos ≠ file pos) →
  cell new_pos ≠ cell pos.
Proof.
  intros Hv [i Hi] Hl Hr Hf Hne.
  rewrite (cell_valid _ Hv), Hi.
  apply is_valid_position_spec in Hv.
  apply cell_Some in Hi as (l & r & f & Hl' & Hr' & Hf' & ->).
  apply axis_index_Some in Hl', Hr', Hf'.
  intros [= Heq]. lia.
Qed.

Lemma get_piece_cell g pos x : get_piece g pos = Some x → is_Some (cell pos).
Proof. unfold get_piece. destruct (cell pos); [eauto | done]. Qed.

Lemma get_piece_valid g pos :
  wf_board g → is_valid_position pos = true → is_Some (get_piece g pos).
Proof.
  intros Hwf Hv. unfold get_piece. rewrite (cell_valid _ Hv). simpl.
  apply lookup_lt_is_Some. rewrite Hwf.
  apply is_valid_position_spec in Hv. lia.
Qed.

(** ** Shape of the generated moves *)

Lemma for_moves_Forall {A} (P : Move → Prop) (xs : list A) body l :
  for_moves xs body = Some l →
  (∀ x ms, x ∈ xs → body x = Some ms → Forall P ms) →
  Forall P l.
Proof.
  revert l. induction xs as [|x xs IH]; intros l H HP; simpl in H.
  - by injection H as <-.
  - destruct (body x) as [ms|] eqn:Hb; [|done]. simpl in H.
    destruct (for_moves xs body) as [rest|] eqn:Hr; [|done]. simpl in H.
    injection H as <-. apply Forall_app. split.
    + eapply HP; [left | done].
    + apply IH; [done|]. intros y ms' Hy. apply HP. by right.
Qed.

Lemma is_enemy_empty_or_enemy target piece :
  is_enemy target piece = true → empty_or_enemy target piece = true.
Proof. by destruct target. Qed.

(** Inversion of a successful monadic computation, one step at a time. *)
Ltac unravel_step :=
  match goal with
  | H : (_ ≫= _) = Some _ |- _ =>
      let x := fresh "x" in
      let Hx := fresh "Hx" in
      apply bind_Some in H as (x & Hx & H)
  | H : (if ?c then _ else _) = Some _ |- _ =>
      destruct c eqn:?; cbv beta iota in H
  | H : match ?c with _ => _ end = Some _ |- _ =>
      destruct c eqn:?; cbv beta iota in H
  | H : Some _ = Some _ |- _ => injection H as <-
  | H : None = Some _ |- _ => discriminate H
  end.

Ltac unravel := repeat unravel_step.

Section Lands.

Variables (g : Chess3D) (pos : Position) (piece : Piece).
Hypothesis Hpos : is_Some (cell pos).

Lemma lands_intro new_pos target promo :
  is_valid_position new_pos = true →
  get_piece g new_pos = Some target →
  empty_or_enemy target piece = true →
  - 2 <= level new_pos - level pos <= 2 →
  - 7 <= rank new_pos - rank pos <= 7 →
  - 7 <= file new_pos - file pos <= 7 →
  (level new_pos ≠ level pos ∨ rank new_pos ≠ rank pos ∨ file new_pos ≠ file pos) →
  lands g pos piece (mkMove pos new_pos promo).
Proof.
  intros Hv Hg He Hl Hr Hf Hne. repeat split; simpl; eauto.
  by apply cell_moved.
Qed.

Lemma try_target_lands new_pos ms :
  try_target g pos piece new_pos = Some ms →
  - 2 <= level new_pos - level pos <= 2 →
  - 7 <= rank new_pos - rank pos <= 7 →
  - 7 <= file new_pos - file pos <= 7 →
  (level new_pos ≠ level pos ∨ rank new_pos ≠ rank pos ∨ file new_pos ≠ file pos) →
  Forall (lands g pos piece) ms.
Proof.
  unfold try_target. intros H Hl Hr Hf Hne.
  destruct (is_valid_position new_pos) eqn:Hv; [|by injection H as <-].
  destruct (get_piece g new_pos) as [target|] eqn:Hg; [|done]. simpl in H.
  destruct (empty_or_enemy target piece) eqn:He; injection H as <-; [|done].
  apply Forall_singleton. eapply lands_intro; eauto.
Qed.

Lemma pawn_arrivals_lands new_pos target :
  is_valid_position new_pos = true →
  get_piece g new_pos = Some target →
  empty_or_enemy target piece = true →
  - 2 <= level new_pos - level pos <= 2 →
  - 7 <= rank new_pos - rank pos <= 7 →
  - 7 <= file new_pos - file pos <= 7 →
  (level new_pos ≠ level pos ∨ rank new_pos ≠ rank pos ∨ file new_pos ≠ file pos) →
  Forall (lands g pos piece) (pawn_arrivals pos new_pos piece).
Proof.
  intros. unfold pawn_arrivals, promotion_types.
  destruct (on_last_rank new_pos piece); simpl;
    repeat (apply Forall_cons; split; [eapply lands_intro; eauto|]);
    apply Forall_nil_2.
Qed.

Ltac solve_lands :=
  repeat match goal with
    | |- Forall _ [] => apply Forall_nil_2
    | |- Forall _ (_ ++ _) => apply Forall_app; split
    | |- Forall _ (pawn_arrivals _ _ _) =>
        eapply pawn_arrivals_lands;
          [eassumption | eassumption
           | first [eassumption | apply is_enemy_empty_or_enemy; eassumption
                    | reflexivity]
           | simpl; lia ..]
    | |- Forall _ (_ :: _) => apply Forall_cons; split
    | |- Forall _ (if ?c then _ else _) => destruct c eqn:?
    | |- Forall _ (match ?c with _ => _ end) => destruct c eqn:?
    | |- lands _ _ _ (mkMove _ _ _) =>
        eapply lands_intro;
          [eassumption | eassumption
           | first [eassumption | reflexivity | simpl; by rewrite ?negb_true_iff]
           | simpl; lia ..]
    end.

Lemma _get_pawn_moves_lands ms :
  _get_pawn_moves g pos piece = Some ms → Forall (lands g pos piece) ms.
Proof.
  unfold _get_pawn_moves. intros H.
  destruct (Color_eqb (color piece) WHITE); cbn [for_moves] in H;
    unravel; solve_lands.
Qed.

Lemma offsets_lands (offsets : list (Z * Z)) (level_offset : Z) ms :
  for_moves offsets (fun '(rank_offset, file_offset) =>
    try_target g pos piece
      (mkPosition (level pos + level_offset)
                  (rank pos + rank_offset) (file pos + file_offset))) = Some ms →
  - 1 <= level_offset <= 1 →
  Forall (fun o => - 7 <= fst o <= 7 ∧ - 7 <= snd o <= 7
                   ∧ (fst o ≠ 0 ∨ snd o ≠ 0)) offsets →
  Forall (lands g pos piece) ms.
Proof.
  intros H Hl Ho. eapply for_moves_Forall; [exact H|].
  intros [ro fo] ms' Hin Hb.
  rewrite Forall_forall in Ho. specialize (Ho _ Hin). simpl in Ho.
  eapply try_target_lands; [exact Hb | simpl; lia ..].
Qed.

Lemma _get_knight_moves_lands ms :
  _get_knight_moves g pos piece = Some ms → Forall (lands g pos piece) ms.
Proof.
  unfold _get_knight_moves. intros H.
  eapply for_moves_Forall; [exact H|].
  intros [ro fo] ms' Hin Hb.
  assert (- 2 <= ro <= 2 ∧ - 2 <= fo <= 2 ∧ ro ≠ 0) as Hb'.
  { unfold knight_offsets in Hin.
    repeat (apply elem_of_cons in Hin as [[= -> ->]|Hin]; [lia|]).
    by apply elem_of_nil in Hin. }
  eapply try_target_lands; [exact Hb | simpl; lia ..].
Qed.

Lemma slide_lands direction ds ms :
  slide g pos piece direction ds = Some ms →
  - 1 <= fst direction <= 1 → - 1 <= snd direction <= 1 →
  (fst direction ≠ 0 ∨ snd direction ≠ 0) →
  Forall (fun d => 1 <= d <= 7) ds →
  Forall (lands g pos piece) ms.
Proof.
  destruct direction as [dr df]. simpl. intros H Hr Hf Hne Hds.
  revert ms H. induction Hds as [|d ds Hd Hds IH]; intros ms H; simpl in H.
  - by injection H as <-.
  - assert (- 7 <= dr * d <= 7 ∧ - 7 <= df * d <= 7
            ∧ (dr * d ≠ 0 ∨ df * d ≠ 0)) as Hprod by nia.
    destruct (is_valid_position _) eqn:Hv in H; simpl in H;
      [|by injection H as <-].
    destruct (get_piece g _) as [[t|]|] eqn:Hg in H; simpl in H; [| |done].
    + destruct (negb _) eqn:Hc in H; injection H as <-; [|done].
      apply Forall_singleton. eapply lands_intro; eauto; simpl; lia.
    + destruct (slide g pos piece (dr, df) ds) as [rest|] eqn:Hs; [|done].
      simpl in H. injection H as <-. apply Forall_cons. split; [|by apply IH].
      eapply lands_intro; eauto; simpl; lia.
Qed.

Lemma _get_sliding_moves_lands directions ms :
  _get_sliding_moves g pos piece directions = Some ms →
  Forall (fun d => - 1 <= fst d <= 1 ∧ - 1 <= snd d <= 1
                   ∧ (fst d ≠ 0 ∨ snd d ≠ 0)) directions →
  Forall (lands g pos piece) ms.
Proof.
  unfold _get_sliding_moves. intros H Hd.
  eapply for_moves_Forall; [exact H|].
  intros d ms' Hin Hb. rewrite Forall_forall in Hd.
  destruct (Hd _ Hin) as (? & ? & ?).
  eapply slide_lands; [exact Hb | try done ..].
  unfold distances. repeat (apply Forall_cons; split; [lia|]). apply Forall_nil_2.
Qed.

Lemma queen_directions_unit :
  Forall (fun d : Z * Z => - 1 <= fst d <= 1 ∧ - 1 <= snd d <= 1
                   ∧ (fst d ≠ 0 ∨ snd d ≠ 0)) queen_directions.
Proof.
  unfold queen_directions.
  repeat (apply Forall_cons; split; [simpl; lia|]). apply Forall_nil_2.
Qed.

Lemma bishop_directions_unit :
  Forall (fun d : Z * Z => - 1 <= fst d <= 1 ∧ - 1 <= snd d <= 1
                   ∧ (fst d ≠ 0 ∨ snd d ≠ 0)) bishop_directions.
Proof.
  unfold bishop_directions.
  repeat (apply Forall_cons; split; [simpl; lia|]). apply Forall_nil_2.
Qed.

Lemma rook_directions_unit :
  Forall (fun d : Z * Z => - 1 <= fst d <= 1 ∧ - 1 <= snd d <= 1
                   ∧ (fst d ≠ 0 ∨ snd d ≠ 0)) rook_directions.
Proof.
  unfold rook_directions.
  repeat (apply Forall_cons; split; [simpl; lia|]). apply Forall_nil_2.
Qed.

Lemma _get_king_moves_lands ms :
  _get_king_moves g pos piece = Some ms → Forall (lands g pos piece) ms.
Proof.
  unfold _get_king_moves. intros H.
  eapply for_moves_Forall; [exact H|].
  intros d ms' Hin Hb.
  pose proof queen_directions_unit as Hq. rewrite Forall_forall in Hq.
  destruct (Hq _ Hin) as (? & ? & ?).
  eapply try_target_lands; [exact Hb | simpl; lia ..].
Qed.

Lemma level_diagonals_lands level_offset ms :
  level_diagonals g pos piece level_offset = Some ms →
  - 1 <= level_offset <= 1 →
  Forall (lands g pos piece) ms.
Proof.
  unfold level_diagonals. intros H Hl.
  eapply offsets_lands; [exact H | done |].
  unfold diagonal_offsets.
  repeat (apply Forall_cons; split; [simpl; lia|]). apply Forall_nil_2.
Qed.

Lemma level_vertical_lands level_offset ms :
  level_vertical g pos piece level_offset = Some ms →
  (level_offset = 1 ∧ level pos < 2) ∨ (level_offset = -1 ∧ level pos > 0) →
  Forall (lands g pos piece) ms.
Proof.
  unfold level_vertical. intros H Hguard.
  destruct (get_piece g _) as [target|] eqn:Hg; [|done]. simpl in H.
  destruct (empty_or_enemy target piece) eqn:He; injection H as <-;
    [|apply Forall_nil_2].
  apply Forall_singleton. repeat split; simpl; eauto.
  - destruct Hpos as [i Hi]. apply get_piece_cell in Hg as [j Hj].
    rewrite Hi, Hj. intros [= ->].
    apply cell_Some in Hi as (l & r & f & Hl & Hr & Hf & Hi).
    apply cell_Some in Hj as (l' & r' & f' & Hl' & Hr' & Hf' & Hj).
    simpl in *. rewrite Hr in Hr'. rewrite Hf in Hf'.
    injection Hr' as <-. injection Hf' as <-.
    apply axis_index_Some in Hl, Hl', Hr, Hf. lia.
  - rewrite !is_valid_position_spec. simpl. lia.
Qed.

Lemma _get_3d_moves_lands ms :
  _get_3d_moves g pos piece = Some ms → Forall (lands g pos piece) ms.
Proof.
  unfold _get_3d_moves. intros H.
  destruct (PieceType_eqb (type piece) KNIGHT).
  { eapply for_moves_Forall; [exact H|].
    intros lo ms' Hin Hb. eapply level_diagonals_lands; [exact Hb|].
    apply elem_of_app in Hin as [Hin|Hin].
    - destruct (level pos <? 2); [|by apply elem_of_nil in Hin].
      apply list_elem_of_singleton in Hin. lia.
    - destruct (level pos >? 0); [|by apply elem_of_nil in Hin].
      apply list_elem_of_singleton in Hin. lia. }
  destruct (PieceType_eqb (type piece) BISHOP || PieceType_eqb (type piece) QUEEN).
  { apply bind_Some in H as (up & Hup & H).
    apply bind_Some in H as (down & Hdown & H). injection H as <-.
    apply Forall_app. split.
    - destruct (level pos <? 2); [|injection Hup as <-; apply Forall_nil_2].
      eapply level_diagonals_lands; [exact Hup | lia].
    - destruct (level pos >? 0); [|injection Hdown as <-; apply Forall_nil_2].
      eapply level_diagonals_lands; [exact Hdown | lia]. }
  destruct (PieceType_eqb (type piece) ROOK || PieceType_eqb (type piece) QUEEN);
    [|injection H as <-; apply Forall_nil_2].
  apply bind_Some in H as (up & Hup & H).
  apply bind_Some in H as (down & Hdown & H). injection H as <-.
  apply Forall_app. split.
  - destruct (level pos <? 2) eqn:E; [|injection Hup as <-; apply Forall_nil_2].
    eapply level_vertical_lands; [exact Hup|]. left. split; [done|].
    by apply Z.ltb_lt.
  - destruct (level pos >? 0) eqn:E; [|injection Hdown as <-; apply Forall_nil_2].
    eapply level_vertical_lands; [exact Hdown|]. right. split; [done|].
    apply Z.gtb_lt in E. lia.
Qed.

End Lands.

(** Every move that [get_valid_moves] returns for the piece on [pos]
    satisfies [lands]. *)
Lemma get_valid_moves_lands g pos piece ms :
  get_piece g pos = Some (Some piece) →
  get_valid_moves g pos = Some ms →
  Forall (lands g pos piece) ms.
Proof.
  intros Hp H. unfold get_valid_moves in H. rewrite Hp in H. simpl in H.
  pose proof (get_piece_cell _ _ _ Hp) as Hc.
  apply bind_Some in H as (moves & Hm & H).
  apply bind_Some in H as (moves3d & H3 & H). injection H as <-.
  apply Forall_app. split; [|by apply _get_3d_moves_lands].
  destruct (type piece).
  - by apply _get_pawn_moves_lands.
  - by apply _get_knight_moves_lands.
  - eapply _get_sliding_moves_lands; eauto using bishop_directions_unit.
  - eapply _get_sliding_moves_lands; eauto using rook_directions_unit.
  - eapply _get_sliding_moves_lands; eauto using queen_directions_unit.
  - by apply _get_king_moves_lands.
Qed.

Lemma get_valid_moves_empty g pos :
  get_piece g pos = Some None → get_valid_moves g pos = Some [].
Proof. intros H. unfold get_valid_moves. by rewrite H. Qed.

(** ** The generator raises no [IndexError] *)

Lemma for_moves_is_Some {A} (xs : list A) body :
  (∀ x, x ∈ xs → is_Some (body x)) → is_Some (for_moves xs body).
Proof.
  induction xs as [|x xs IH]; intros H; simpl; [eauto|].
  destruct (H x) as [ms ->]; [left|]. simpl.
  destruct IH as [rest ->]; [intros y Hy; apply H; by right|]. simpl. eauto.
Qed.

Section Total.

Variables (g : Chess3D) (pos : Position) (piece : Piece).
Hypothesis Hwf : wf_board g.

Lemma try_target_is_Some new_pos : is_Some (try_target g pos piece new_pos).
Proof.
  unfold try_target. destruct (is_valid_position new_pos) eqn:Hv; [|eauto].
  destruct (get_piece_valid g new_pos Hwf Hv) as [t ->]. simpl. eauto.
Qed.

Lemma _get_pawn_moves_is_Some : is_Some (_get_pawn_moves g pos piece).
Proof.
  unfold _get_pawn_moves. cbn [for_moves].
  repeat match goal with
    | |- context [if is_valid_position ?p then _ else _] =>
        let Hv := fresh "Hv" in
        destruct (is_valid_position p) eqn:Hv;
        [destruct (get_piece_valid g p Hwf Hv) as [[?|] ->]|]; simpl
    | |- context [if ?a =? ?b then _ else _] => destruct (a =? b); simpl
    end; eauto.
Qed.

Lemma slide_is_Some direction ds : is_Some (slide g pos piece direction ds).
Proof.
  induction ds as [|d ds IH]; simpl; [eauto|].
  destruct (is_valid_position _) eqn:Hv; simpl; [|eauto].
  destruct (get_piece_valid g _ Hwf Hv) as [[t|] ->]; simpl.
  - destruct (negb _); eauto.
  - destruct IH as [rest ->]. simpl. eauto.
Qed.

Lemma level_diagonals_is_Some level_offset :
  is_Some (level_diagonals g pos piece level_offset).
Proof.
  apply for_moves_is_Some. intros [??] _. apply try_target_is_Some.
Qed.

Lemma level_vertical_is_Some level_offset :
  is_Some (cell pos) →
  (level_offset = 1 ∧ level pos < 2) ∨ (level_offset = -1 ∧ level pos > 0) →
  is_Some (level_vertical g pos piece level_offset).
Proof.
  intros [i Hi] Hguard. unfold level_vertical.
  assert (is_Some (get_piece g
    (mkPosition (level pos + level_offset) (rank pos) (file pos)))) as [t ->];
    [|simpl; eauto].
  apply cell_Some in Hi as (l & r & f & Hl & Hr & Hf & _).
  unfold get_piece, cell. simpl. rewrite Hr, Hf.
  assert (is_Some (axis_index 3 (level pos + level_offset))) as [l' Hl'].
  { apply axis_index_Some in Hl. unfold axis_index.
    destruct ((0 <=? _) && (_ <? 3)) eqn:E1; [eauto|].
    destruct ((- (3) <=? _) && (_ <? 0)) eqn:E2; [eauto|].
    rewrite andb_false_iff, Z.leb_gt, Z.ltb_ge in E1, E2. lia. }
  rewrite Hl'. simpl. apply lookup_lt_is_Some. rewrite Hwf.
  apply axis_index_Some in Hl', Hr, Hf. lia.
Qed.

Lemma _get_3d_moves_is_Some :
  is_Some (cell pos) → is_Some (_get_3d_moves g pos piece).
Proof.
  intros Hc. unfold _get_3d_moves.
  destruct (PieceType_eqb (type piece) KNIGHT).
  { apply for_moves_is_Some. intros lo _. apply level_diagonals_is_Some. }
  destruct (PieceType_eqb (type piece) BISHOP || PieceType_eqb (type piece) QUEEN).
  { destruct (level pos <? 2), (level pos >? 0);
      repeat match goal with
        | |- context [level_diagonals g pos piece ?lo] =>
            destruct (level_diagonals_is_Some lo) as [? ->]
        end; simpl; eauto. }
  destruct (PieceType_eqb (type piece) ROOK || PieceType_eqb (type piece) QUEEN);
    [|eauto].
  destruct (level pos <? 2) eqn:E1.
  - apply Z.ltb_lt in E1.
    destruct (level_vertical_is_Some 1 Hc) as [up ->]; [lia|]. simpl.
    destruct (level pos >? 0) eqn:E2; [|simpl; eauto].
    apply Z.gtb_lt in E2.
    destruct (level_vertical_is_Some (-1) Hc) as [down ->]; [lia|]. simpl. eauto.
  - simpl. destruct (level pos >? 0) eqn:E2; [|simpl; eauto].
    apply Z.gtb_lt in E2.
    destruct (level_vertical_is_Some (-1) Hc) as [down ->]; [lia|]. simpl. eauto.
Qed.

End Total.

(** Whenever the cell of [pos] can be read, [get_valid_moves] returns. *)
Lemma get_valid_moves_is_Some g pos :
  wf_board g → is_Some (get_piece g pos) → is_Some (get_valid_moves g pos).
Proof.
  intros Hwf [piece Hp]. unfold get_valid_moves. rewrite Hp. simpl.
  destruct piece as [piece|]; [|eauto].
  assert (is_Some (match type piece with
                   | PAWN => _get_pawn_moves g pos piece
                   | KNIGHT => _get_knight_moves g pos piece
                   | BISHOP => _get_bishop_moves g pos piece
                   | ROOK => _get_rook_moves g pos piece
                   | QUEEN => _get_queen_moves g pos piece
                   | KING => _get_king_moves g pos piece
                   end)) as [moves ->].
  { destruct (type piece).
    - by apply _get_pawn_moves_is_Some.
    - apply for_moves_is_Some. intros [??] _. by apply try_target_is_Some.
    - apply for_moves_is_Some. intros ? _. by apply slide_is_Some.
    - apply for_moves_is_Some. intros ? _. by apply slide_is_Some.
    - apply for_moves_is_Some. intros ? _. by apply slide_is_Some.
    - apply for_moves_is_Some. intros ? _. by apply try_target_is_Some. }
  simpl.
  destruct (_get_3d_moves_is_Some g pos piece Hwf) as [m3 ->];
    [by eapply get_piece_cell|].
  simpl. eauto.
Qed.

(** ** Equality tests *)

Lemma Color_eqb_eq a b : Color_eqb a b = true ↔ a = b.
Proof. destruct a, b; simpl; split; congruence. Qed.

Lemma PieceType_eqb_eq a b : PieceType_eqb a b = true ↔ a = b.
Proof. destruct a, b; simpl; split; congruence. Qed.

Lemma Position_eqb_eq p q : Position_eqb p q = true ↔ p = q.
Proof.
  unfold Position_eqb. rewrite !andb_true_iff, !Z.eqb_eq.
  destruct p, q; simpl. split; [intros [[-> ->] ->]; done | intros [= -> -> ->]; done].
Qed.

Lemma Move_eqb_eq m n : Move_eqb m n = true ↔ m = n.
Proof.
  unfold Move_eqb. rewrite !andb_true_iff, !Position_eqb_eq.
  destruct m as [f t p], n as [f' t' p']; simpl. split.
  - intros [[-> ->] Hp]. f_equal.
    destruct p, p'; simpl in Hp; try done. by apply PieceType_eqb_eq in Hp as ->.
  - intros [= -> -> ->]. repeat split. destruct p'; simpl; [|done].
    by apply PieceType_eqb_eq.
Qed.

Lemma Move_in_elem m l : Move_in m l = true ↔ m ∈ l.
Proof.
  unfold Move_in. rewrite existsb_exists. split.
  - intros (n & Hn & ->%Move_eqb_eq). by apply list_elem_of_In.
  - intros H. exists m. split; [by apply list_elem_of_In | by apply Move_eqb_eq].
Qed.

(** ** Two cells written and restored *)

(** Writes to two different cells [i] and [j] that end by putting [v] on
    [i] and the original content back on [j] amount to one write to [i]. *)
Lemma two_cells_restored (b b' : list (option Piece)) i j v c :
  i ≠ j → b !! j = Some c → length b' = length b →
  (∀ k, k ≠ i → k ≠ j → b' !! k = b !! k) →
  <[j := c]> (<[i := v]> b') = <[i := v]> b.
Proof.
  intros Hij Hj Hlen Hk. apply list_eq. intros k.
  pose proof (lookup_lt_Some _ _ _ Hj) as Hjlt.
  destruct (decide (k = j)) as [->|Hkj].
  - rewrite list_lookup_insert_eq by (rewrite !length_insert; lia).
    by rewrite list_lookup_insert_ne.
  - rewrite list_lookup_insert_ne by done.
    destruct (decide (k = i)) as [->|Hki].
    + destruct (decide (i < length b)%nat).
      * by rewrite !list_lookup_insert_eq by lia.
      * rewrite !list_insert_ge by lia.
        rewrite !lookup_ge_None_2 by lia. done.
    + rewrite !list_lookup_insert_ne by done. by apply Hk.
Qed.

(** ** Applying and undoing a move *)

Lemma promotes_arrived move piece :
  promotes move piece = false → arrived move piece = piece.
Proof. unfold arrived. by intros ->. Qed.

Lemma get_piece_at g pos i : cell pos = Some i → get_piece g pos = board g !! i.
Proof. unfold get_piece. by intros ->. Qed.

Lemma set_piece_at g pos i x :
  cell pos = Some i →
  set_piece g pos x = Some (with_board g (<[i := x]> (board g))).
Proof. unfold set_piece. by intros ->. Qed.

(** What an accepted move does. *)
Lemma make_move_accepted g move g1 :
  make_move g move = Some (true, g1) →
  ∃ piece captured i j,
    get_piece g (from_pos move) = Some (Some piece)
    ∧ color piece = current_player g
    ∧ (∃ ms, get_valid_moves g (from_pos move) = Some ms ∧ move ∈ ms)
    ∧ cell (from_pos move) = Some i ∧ cell (to_pos move) = Some j ∧ i ≠ j
    ∧ board g !! i = Some (Some piece) ∧ board g !! j = Some captured
    ∧ g1 = mkChess3D (<[j := Some (arrived move piece)]> (<[i := None]> (board g)))
                     (opponent (current_player g))
                     ((move, captured) :: move_history g).
Proof.
  unfold make_move. intros H.
  destruct (get_piece g (from_pos move)) as [[piece|]|] eqn:Hp; simpl in H; [|done..].
  destruct (Color_eqb (color piece) (current_player g)) eqn:Hc; simpl in H; [|done].
  apply Color_eqb_eq in Hc.
  destruct (get_valid_moves g (from_pos move)) as [ms|] eqn:Hms; simpl in H; [|done].
  destruct (Move_in move ms) eqn:Hin; simpl in H; [|done].
  apply Move_in_elem in Hin.
  pose proof (get_valid_moves_lands _ _ _ _ Hp Hms) as Hl.
  rewrite Forall_forall in Hl.
  destruct (Hl _ Hin) as (_ & (target & Ht & _) & Hne & _).
  rewrite Ht in H. simpl in H.
  unfold get_piece in Hp, Ht.
  destruct (cell (from_pos move)) as [i|] eqn:Hi; [|done].
  destruct (cell (to_pos move)) as [j|] eqn:Hj; [|done].
  simpl in Hp, Ht. assert (i ≠ j) as Hij by congruence.
  unfold set_piece in H. rewrite Hj in H. simpl in H. rewrite Hi in H. simpl in H.
  pose proof (lookup_lt_Some _ _ _ Hp). pose proof (lookup_lt_Some _ _ _ Ht).
  exists piece, target, i, j. repeat split; eauto.
  unfold arrived. destruct (promotes move piece) eqn:Hpr.
  - unfold promotes in Hpr. destruct (promotion move) as [pt|]; [|done].
    rewrite ?Hj in H. simpl in H. injection H as <-. f_equal.
    rewrite (list_insert_insert_ne _ i j) by done. by rewrite list_insert_insert_eq.
  - simpl in H. injection H as <-. f_equal. by rewrite list_insert_insert_ne.
Qed.

(** Undoing right after an accepted move: the mover is put back as it
    arrived, everything else is as before the move. *)
Lemma undo_after_make g move g1 :
  make_move g move = Some (true, g1) →
  ∃ piece i,
    get_piece g (from_pos move) = Some (Some piece)
    ∧ cell (from_pos move) = Some i
    ∧ undo_move g1
      = Some (true, mkChess3D (<[i := Some (arrived move piece)]> (board g))
                              (current_player g) (move_history g)).
Proof.
  intros (piece & captured & i & j & Hp & Hc & _ & Hi & Hj & Hij & Hbi & Hbj & ->)
    %make_move_accepted.
  exists piece, i. split; [done|]. split; [done|].
  pose proof (lookup_lt_Some _ _ _ Hbi). pose proof (lookup_lt_Some _ _ _ Hbj).
  unfold undo_move. cbn [move_history board current_player].
  rewrite (get_piece_at _ _ _ Hj). cbn [board].
  rewrite list_lookup_insert_eq by (rewrite length_insert; lia). cbn [mbind option_bind].
  rewrite (set_piece_at _ _ _ _ Hi). cbn [mbind option_bind].
  rewrite (set_piece_at _ _ _ _ Hj). cbn [mbind option_bind].
  unfold with_board. cbn [board current_player move_history]. do 2 f_equal.
  f_equal; [|by destruct (current_player g)].
  apply two_cells_restored; try done.
  - by rewrite !length_insert.
  - intros k Hki Hkj. by rewrite !list_lookup_insert_ne.
Qed.

(** ** Claims on the board engine *)

(** C1. For every state and every move that [make_move] accepts, an
    [undo_move] right afterwards returns [True] and gives back the board,
    the side to move and the history of before the move, except that a
    promoted pawn stays on its origin cell as the promoted piece. *)
Theorem make_move_undo_move g move g1 :
  make_move g move = Some (true, g1) →
  ∃ piece g2,
    get_piece g (from_pos move) = Some (Some piece)
    ∧ undo_move g1 = Some (true, g2)
    ∧ current_player g2 = current_player g
    ∧ move_history g2 = move_history g
    ∧ length (move_history g2) = length (move_history g)
    ∧ set_piece g (from_pos move) (Some (arrived move piece)) = Some g2
    ∧ (promotes move piece = false → g2 = g).
Proof.
  intros Hmake.
  destruct (undo_after_make _ _ _ Hmake) as (piece & i & Hp & Hi & Hundo).
  eexists piece, _. split; [done|]. split; [exact Hundo|].
  cbn [current_player move_history]. repeat split.
  - by rewrite (set_piece_at _ _ _ _ Hi).
  - intros Hpr. rewrite (promotes_arrived _ _ Hpr).
    rewrite (get_piece_at _ _ _ Hi) in Hp.
    rewrite (list_insert_id _ _ _ Hp). by destruct g.
Qed.

Lemma make_move_undo_move_witness :
  ∃ g1, make_move start (mkMove (mkPosition 0 1 4) (mkPosition 0 3 4) None)
        = Some (true, g1)
  ∧ ∃ piece g2,
      get_piece start (mkPosition 0 1 4) = Some (Some piece)
      ∧ undo_move g1 = Some (true, g2)
      ∧ current_player g2 = current_player start
      ∧ move_history g2 = move_history start
      ∧ length (move_history g2) = length (move_history start)
      ∧ set_piece start (mkPosition 0 1 4)
          (Some (arrived (mkMove (mkPosition 0 1 4) (mkPosition 0 3 4) None) piece))
        = Some g2
      ∧ (promotes (mkMove (mkPosition 0 1 4) (mkPosition 0 3 4) None) piece = false
         → g2 = start).
Proof.
  eexists. split; [vm_compute; reflexivity|].
  apply (make_move_undo_move start
           (mkMove (mkPosition 0 1 4) (mkPosition 0 3 4) None)).
  vm_compute. reflexivity.
Defined.

(** C10. On every board and for every position [pos] inside the board,
    [get_valid_moves] returns, and every move it returns starts at [pos]
    and ends inside the board on a cell that is empty or holds a piece of
    the other colour; this covers the vertical branch of [_get_3d_moves],
    which reads the board without [is_valid_position]. *)
Theorem get_valid_moves_in_bounds g pos :
  wf_board g →
  is_valid_position pos = true →
  ∃ moves,
    get_valid_moves g pos = Some moves
    ∧ ∀ move, move ∈ moves →
        from_pos move = pos
        ∧ is_valid_position (to_pos move) = true
        ∧ ∃ piece target,
            get_piece g pos = Some (Some piece)
            ∧ get_piece g (to_pos move) = Some target
            ∧ (target = None ∨ ∃ t, target = Some t ∧ color t ≠ color piece).
Proof.
  intros Hwf Hv.
  destruct (get_piece_valid g pos Hwf Hv) as [piece Hp].
  destruct (get_valid_moves_is_Some g pos Hwf) as [moves Hm]; [eauto|].
  exists moves. split; [done|]. intros move Hin.
  destruct piece as [piece|].
  - pose proof (get_valid_moves_lands _ _ _ _ Hp Hm) as Hl.
    rewrite Forall_forall in Hl.
    destruct (Hl _ Hin) as (Hfrom & (target & Ht & He) & _ & Hvalid).
    repeat split; [done | by apply Hvalid |].
    exists piece, target. repeat split; [done..|].
    destruct target as [t|]; [right | by left].
    exists t. split; [done|]. simpl in He. apply negb_true_iff in He.
    intros Hc. apply Color_eqb_eq in Hc. congruence.
  - rewrite (get_valid_moves_empty _ _ Hp) in Hm. injection Hm as <-.
    by apply elem_of_nil in Hin.
Qed.

Lemma start_wf : wf_board start.
Proof. reflexivity. Qed.

Lemma get_valid_moves_in_bounds_witness :
  wf_board start
  ∧ is_valid_position (mkPosition 0 0 0) = true
  ∧ ∃ moves,
      get_valid_moves start (mkPosition 0 0 0) = Some moves
      ∧ ∀ move, move ∈ moves →
          from_pos move = mkPosition 0 0 0
          ∧ is_valid_position (to_pos move) = true
          ∧ ∃ piece target,
              get_piece start (mkPosition 0 0 0) = Some (Some piece)
              ∧ get_piece start (to_pos move) = Some target
              ∧ (target = None ∨ ∃ t, target = Some t ∧ color t ≠ color piece).
Proof.
  split; [reflexivity|]. split; [reflexivity|].
  apply (get_valid_moves_in_bounds start (mkPosition 0 0 0)); reflexivity.
Defined.

(** C2, at the input where the code departs from it: in the initial
    position the queen on level 0 has the empty cell of level 1 right
    above her, and [get_valid_moves] offers no move there; the rook on the
    same rank does get its vertical move. *)
Theorem queen_has_no_vertical_move :
  get_piece start (mkPosition 0 0 3) = Some (Some (mkPiece QUEEN WHITE))
  ∧ get_piece start (mkPosition 1 0 3) = Some None
  ∧ (∃ moves, get_valid_moves start (mkPosition 0 0 3) = Some moves
              ∧ Move_in (mkMove (mkPosition 0 0 3) (mkPosition 1 0 3) None) moves
                = false)
  ∧ (∃ moves, get_valid_moves start (mkPosition 0 0 0) = Some moves
              ∧ Move_in (mkMove (mkPosition 0 0 0) (mkPosition 1 0 0) None) moves
                = true).
Proof.
  repeat split; try (eexists; split); vm_compute; reflexivity.
Qed.

(** ** Check and checkmate *)

Lemma all_positions_valid pos :
  pos ∈ all_positions → is_valid_position pos = true.
Proof.
  intros Hin. apply list_elem_of_In in Hin.
  assert (forallb is_valid_position all_positions = true) as H
    by (vm_compute; reflexivity).
  rewrite forallb_forall in H. by apply H.
Qed.

Lemma set_piece_wf g pos x g' : set_piece g pos x = Some g' → wf_board g → wf_board g'.
Proof.
  unfold set_piece, wf_board. intros H Hwf.
  destruct (cell pos); [|done]. simpl in H. injection H as <-. simpl.
  by rewrite length_insert.
Qed.

Lemma find_king_is_Some g color0 ps :
  wf_board g → (∀ pos, pos ∈ ps → is_valid_position pos = true) →
  is_Some (find_king g color0 ps).
Proof.
  intros Hwf. induction ps as [|pos ps IH]; intros Hv; simpl; [eauto|].
  destruct (get_piece_valid g pos Hwf) as [piece ->]; [apply Hv; left|]. simpl.
  destruct (is_king_of color0 piece); [eauto|].
  apply IH. intros ??. apply Hv. by right.
Qed.

Lemma find_king_valid g color0 ps king_pos :
  find_king g color0 ps = Some (Some king_pos) → king_pos ∈ ps.
Proof.
  induction ps as [|pos ps IH]; simpl; [done|]. intros H.
  destruct (get_piece g pos) as [piece|]; [|done]. simpl in H.
  destruct (is_king_of color0 piece).
  - injection H as <-. left.
  - right. by apply IH.
Qed.

Lemma attacked_is_Some g opponent_color king_pos ps :
  wf_board g → (∀ pos, pos ∈ ps → is_valid_position pos = true) →
  is_Some (attacked g opponent_color king_pos ps).
Proof.
  intros Hwf. induction ps as [|pos ps IH]; intros Hv; simpl; [eauto|].
  assert (is_Some (attacked g opponent_color king_pos ps)) as Hrest
    by (apply IH; intros ??; apply Hv; by right).
  destruct (get_piece_valid g pos Hwf) as [piece Hp]; [apply Hv; left|].
  rewrite Hp. simpl. destruct piece as [p|]; [|done].
  destruct (Color_eqb (color p) opponent_color); [|done].
  destruct (get_valid_moves_is_Some g pos Hwf) as [moves ->]; [eauto|]. simpl.
  destruct (targets king_pos moves); eauto.
Qed.

Lemma is_check_is_Some g color0 : wf_board g → is_Some (is_check g color0).
Proof.
  intros Hwf. unfold is_check.
  destruct (find_king_is_Some g color0 all_positions Hwf) as [king ->];
    [apply all_positions_valid|].
  cbn [mbind option_bind]. destruct king; [|eauto].
  apply attacked_is_Some; [done | apply all_positions_valid].
Qed.

(** C8. On every board without a king of [color0], [is_check] returns
    [False]; it raises nothing. *)
Theorem is_check_without_king g color0 :
  wf_board g →
  (∀ pos piece, is_valid_position pos = true →
                get_piece g pos = Some (Some piece) →
                ¬ (type piece = KING ∧ color piece = color0)) →
  is_check g color0 = Some false.
Proof.
  intros Hwf Hno. unfold is_check.
  assert (∀ ps, (∀ pos, pos ∈ ps → is_valid_position pos = true) →
                find_king g color0 ps = Some None) as Hfind.
  { induction ps as [|pos ps IH]; intros Hv; simpl; [done|].
    destruct (get_piece_valid g pos Hwf) as [piece Hp]; [apply Hv; left|].
    rewrite Hp. simpl.
    destruct (is_king_of color0 piece) eqn:Hk.
    - destruct piece as [p|]; [|done]. simpl in Hk.
      apply andb_true_iff in Hk as [Ht%PieceType_eqb_eq Hc%Color_eqb_eq].
      destruct (Hno pos p); [apply Hv; left | done | done].
    - apply IH. intros ??. apply Hv. by right. }
  rewrite Hfind by apply all_positions_valid. reflexivity.
Qed.

Lemma is_check_without_king_witness :
  wf_board (mkChess3D (replicate 192 None) WHITE [])
  ∧ is_check (mkChess3D (replicate 192 None) WHITE []) BLACK = Some false.
Proof.
  split; [reflexivity|].
  apply (is_check_without_king (mkChess3D (replicate 192 None) WHITE []) BLACK).
  - reflexivity.
  - intros pos piece Hv Hp. unfold get_piece in Hp. rewrite (cell_valid _ Hv) in Hp.
    cbn [board] in Hp. apply lookup_replicate in Hp as [Hp _]. discriminate Hp.
Defined.

(** One trial of [is_checkmate] puts both cells back. *)
Lemma escape_trials_frame g color0 pos piece moves :
  wf_board g →
  get_piece g pos = Some (Some piece) →
  Forall (lands g pos piece) moves →
  ∃ escaped, escape_trials g color0 pos piece moves = Some (escaped, g).
Proof.
  intros Hwf Hp. induction 1 as [|move moves Hl _ IH]; cbn [escape_trials]; [eauto|].
  destruct Hl as (_ & (target & Ht & _) & Hne & _).
  destruct (get_piece_cell _ _ _ Hp) as [i Hi].
  destruct (get_piece_cell _ _ _ Ht) as [j Hj].
  assert (i ≠ j) as Hij by congruence.
  rewrite Ht. cbn [mbind option_bind].
  rewrite (set_piece_at _ _ _ _ Hj). cbn [mbind option_bind].
  rewrite (set_piece_at _ _ _ _ Hi). cbn [mbind option_bind].
  match goal with
  | |- context [is_check ?g2 color0] =>
      destruct (is_check_is_Some g2 color0) as [still ->]
  end.
  { unfold wf_board, with_board. cbn [board]. by rewrite !length_insert. }
  cbn [mbind option_bind].
  rewrite (set_piece_at _ _ _ _ Hi). cbn [mbind option_bind].
  rewrite (set_piece_at _ _ _ _ Hj). cbn [mbind option_bind].
  unfold with_board. cbn [board current_player move_history].
  rewrite (get_piece_at _ _ _ Hi) in Hp. rewrite (get_piece_at _ _ _ Hj) in Ht.
  assert (<[j := target]> (<[i := Some piece]> (<[i := None]>
            (<[j := Some piece]> (board g)))) = board g) as ->.
  { rewrite list_insert_insert_eq.
    rewrite (two_cells_restored (board g)); try done.
    - by apply list_insert_id.
    - by rewrite length_insert.
    - intros k _ Hk. by rewrite list_lookup_insert_ne. }
  replace (mkChess3D (board g) (current_player g) (move_history g)) with g
    by (by destruct g).
  destruct still; cbn [negb]; eauto.
Qed.

Lemma checkmate_scan_frame g color0 ps :
  wf_board g → (∀ pos, pos ∈ ps → is_valid_position pos = true) →
  ∃ mated, checkmate_scan g color0 ps = Some (mated, g).
Proof.
  intros Hwf. induction ps as [|pos ps IH]; intros Hv; simpl; [eauto|].
  assert (∃ mated, checkmate_scan g color0 ps = Some (mated, g)) as [rest Hrest]
    by (apply IH; intros ??; apply Hv; by right).
  destruct (get_piece_valid g pos Hwf) as [piece Hp]; [apply Hv; left|].
  rewrite Hp. simpl. destruct piece as [p|]; [|eauto].
  destruct (Color_eqb (color p) color0); [|eauto].
  destruct (get_valid_moves_is_Some g pos Hwf) as [moves Hm]; [eauto|].
  rewrite Hm. simpl.
  destruct (escape_trials_frame g color0 pos p moves Hwf Hp) as [escaped ->].
  { by eapply get_valid_moves_lands. }
  simpl. destruct escaped; eauto.
Qed.

(** [is_checkmate] returns, and hands back the game it was given. *)
Lemma is_checkmate_returns g color0 :
  wf_board g →
  ∃ mated, is_checkmate g color0 = Some (mated, g).
Proof.
  intros Hwf. unfold is_checkmate.
  destruct (is_check_is_Some g color0 Hwf) as [in_check ->].
  cbn [mbind option_bind]. destruct in_check; cbn [negb]; [|eauto].
  apply checkmate_scan_frame; [done | apply all_positions_valid].
Qed.

(** C6. On every board and for every colour, [is_checkmate] returns, and
    the board, the side to move and the history (hence its length) are
    then as they were at entry: every trial has put its two cells back and
    nothing was pushed on the history. *)
Theorem is_checkmate_frame g color0 :
  wf_board g →
  ∃ mated g',
    is_checkmate g color0 = Some (mated, g')
    ∧ board g' = board g
    ∧ current_player g' = current_player g
    ∧ move_history g' = move_history g
    ∧ length (move_history g') = length (move_history g).
Proof.
  intros Hwf.
  destruct (is_checkmate_returns g color0 Hwf) as [mated Hm].
  exists mated, g. by rewrite Hm.
Qed.

Lemma is_checkmate_frame_witness :
  wf_board start
  ∧ ∃ mated g',
      is_checkmate start WHITE = Some (mated, g')
      ∧ board g' = board start
      ∧ current_player g' = current_player start
      ∧ move_history g' = move_history start
      ∧ length (move_history g') = length (move_history start).
Proof.
  split; [reflexivity|]. apply (is_checkmate_frame start WHITE). reflexivity.
Defined.

(** C7. [evaluate_position] returns -10000 when White is checkmated, and
    10000 when White is not and Black is: the White test comes first and
    no other term is computed in either case. *)
Theorem evaluate_position_checkmate g :
  wf_board g →
  (fst <$> is_checkmate g WHITE = Some true →
   evaluate_position g = Some (-10000, g))
  ∧ (fst <$> is_checkmate g WHITE = Some false →
     fst <$> is_checkmate g BLACK = Some true →
     evaluate_position g = Some (10000, g)).
Proof.
  intros Hwf. unfold evaluate_position.
  destruct (is_checkmate_returns g WHITE Hwf) as [white ->].
  destruct (is_checkmate_returns g BLACK Hwf) as [black Hb].
  split.
  - cbn [fmap option_fmap option_map fst]. by intros [= ->].
  - cbn [fmap option_fmap option_map fst]. intros [= ->]. rewrite Hb.
    cbn [fmap option_fmap option_map fst]. by intros [= ->].
Qed.

Lemma evaluate_position_checkmate_witness :
  wf_board white_mated
  ∧ evaluate_position white_mated = Some (-10000, white_mated)
  ∧ wf_board black_mated
  ∧ evaluate_position black_mated = Some (10000, black_mated).
Proof.
  split; [reflexivity|]. split; [|split; [reflexivity|]].
  - apply (proj1 (evaluate_position_checkmate white_mated eq_refl)).
    vm_compute. reflexivity.
  - apply (proj2 (evaluate_position_checkmate black_mated eq_refl));
      vm_compute; reflexivity.
Defined.

(** ** The search *)

(** C4, at inputs where the code departs from it.  A White pawn stands one
    step from promotion and [minimax] is called with depth 1 for White.
    The first promoting move is made and undone, and [undo_move] puts the
    promoted queen on the pawn's cell; the three other promoting moves are
    then refused by [make_move], whose result [minimax] does not look at,
    and each is followed by an [undo_move] all the same.  On an empty
    history the board comes back with a queen for the pawn; on a history of
    two moves these are taken back as well, so the history comes back
    empty and the pieces stand where they stood two moves earlier. *)
Theorem minimax_promotion_not_restored :
  (get_piece pawn_on_seventh (mkPosition 0 6 0) = Some (Some (mkPiece PAWN WHITE))
   ∧ ∃ value g,
       minimax 2 pawn_on_seventh 1 NegInf PosInf true = Some (value, g)
       ∧ get_piece g (mkPosition 0 6 0) = Some (Some (mkPiece QUEEN WHITE))
       ∧ board g ≠ board pawn_on_seventh)
  ∧ (length (move_history pawn_on_seventh_played) = 2%nat
     ∧ ∃ value g,
         minimax 2 pawn_on_seventh_played 1 NegInf PosInf true = Some (value, g)
         ∧ length (move_history g) = 0%nat
         ∧ get_piece g (mkPosition 0 6 0) = Some None
         ∧ get_piece g (mkPosition 0 5 0) = Some (Some (mkPiece QUEEN WHITE))
         ∧ board g ≠ board pawn_on_seventh_played).
Proof.
  split; (split; [reflexivity|]); eexists _, _;
    (split; [vm_compute; reflexivity|]); repeat split; try discriminate.
Qed.

(** ** The methods keep a game well formed *)

Lemma get_piece_is_Some g pos :
  wf_board g → is_Some (cell pos) → is_Some (get_piece g pos).
Proof.
  intros Hwf [i Hi]. rewrite (get_piece_at _ _ _ Hi).
  apply lookup_lt_is_Some. rewrite Hwf. by eapply cell_lt.
Qed.

Lemma with_board_wf g b :
  wf_game g → length b = 192%nat → wf_game (with_board g b).
Proof. intros [_ Hh] Hb. by split. Qed.

Lemma make_move_wf g move :
  wf_game g → indexable move →
  ∃ ok g', make_move g move = Some (ok, g') ∧ wf_game g'.
Proof.
  intros Hg Hm. pose proof Hg as [Hwf Hh]. pose proof Hm as [[i Hi] [j Hj]].
  unfold make_move.
  destruct (get_piece_is_Some g (from_pos move) Hwf) as [piece Hp]; [eauto|].
  rewrite Hp. cbn [mbind option_bind].
  destruct piece as [piece|]; [|eauto].
  destruct (negb (Color_eqb _ _)); [eauto|].
  destruct (get_valid_moves_is_Some g (from_pos move) Hwf) as [ms ->]; [eauto|].
  cbn [mbind option_bind].
  destruct (negb (Move_in move ms)); [eauto|].
  destruct (get_piece_is_Some g (to_pos move) Hwf) as [captured ->]; [eauto|].
  cbn [mbind option_bind].
  rewrite (set_piece_at _ _ _ _ Hj). cbn [mbind option_bind].
  rewrite (set_piece_at _ _ _ _ Hi). cbn [mbind option_bind].
  assert (∀ b, length b = 192%nat →
    wf_game (mkChess3D b (opponent (current_player g))
                       ((move, captured) :: move_history g))) as Hnew.
  { intros b Hb. split; [done|]. by constructor. }
  destruct (promotes move piece); [destruct (promotion move)|];
    rewrite ?(set_piece_at _ _ _ _ Hj); cbn [mbind option_bind];
    eexists _, _; (split; [reflexivity|]); apply Hnew;
    cbn [board with_board]; by rewrite !length_insert.
Qed.

Lemma undo_move_wf g :
  wf_game g → ∃ ok g', undo_move g = Some (ok, g') ∧ wf_game g'.
Proof.
  intros Hg. pose proof Hg as [Hwf Hh]. unfold undo_move.
  destruct (move_history g) as [|[move captured] history] eqn:E; [eauto|].
  apply Forall_cons in Hh as [[[i Hi] [j Hj]] Hh].
  rewrite (get_piece_at _ _ _ Hj). cbn [board].
  destruct (lookup_lt_is_Some_2 (board g) j) as [piece ->];
    [rewrite Hwf; by eapply cell_lt|].
  cbn [mbind option_bind].
  rewrite (set_piece_at _ _ _ _ Hi). cbn [mbind option_bind].
  rewrite (set_piece_at _ _ _ _ Hj). cbn [mbind option_bind].
  eexists _, _. split; [reflexivity|]. split; [|done].
  unfold wf_board. cbn [board with_board]. by rewrite !length_insert.
Qed.

(** C5, amended.  A move whose origin numpy does not accept as an index
    makes [make_move] raise [IndexError].  On a board of the right shape
    and for an origin that can be read, the cell and the generated moves
    of the origin are read without error, and [make_move] returns [False]
    and changes nothing when the cell is empty, when its piece is not of
    the side to move, or when the move is not among the generated moves.
    [undo_move] returns [False] and changes nothing on an empty history. *)
Theorem make_move_undo_move_refuse g move :
  (cell (from_pos move) = None → make_move g move = None)
  ∧ (wf_board g → is_Some (cell (from_pos move)) →
     ∃ piece valid_moves,
       get_piece g (from_pos move) = Some piece
       ∧ get_valid_moves g (from_pos move) = Some valid_moves
       ∧ (piece = None
          ∨ (∃ p, piece = Some p ∧ color p ≠ current_player g)
          ∨ Move_in move valid_moves = false →
          make_move g move = Some (false, g)))
  ∧ (move_history g = [] → undo_move g = Some (false, g)).
Proof.
  split; [|split].
  - intros Hc. unfold make_move, get_piece. by rewrite Hc.
  - intros Hwf Hc.
    destruct (get_piece_is_Some g (from_pos move) Hwf Hc) as [piece Hp].
    destruct (get_valid_moves_is_Some g (from_pos move) Hwf) as [valid_moves Hm];
      [eauto|].
    exists piece, valid_moves. split; [done|]. split; [done|].
    unfold make_move. rewrite Hp. cbn [mbind option_bind].
    intros [-> | [(p & -> & Hne) | Hin]].
    + done.
    + destruct (Color_eqb (color p) (current_player g)) eqn:E; [|done].
      by apply Color_eqb_eq in E.
    + destruct piece as [p|]; [|done].
      destruct (Color_eqb (color p) (current_player g)); cbn [negb]; [|done].
      rewrite Hm. cbn [mbind option_bind]. by rewrite Hin.
  - intros H. unfold undo_move. by rewrite H.
Qed.

Lemma make_move_undo_move_refuse_witness :
  make_move start (mkMove (mkPosition 8 0 0) (mkPosition 0 0 0) None) = None
  ∧ (∃ piece valid_moves,
       get_piece start (from_pos (mkMove (mkPosition 0 1 0) (mkPosition 0 5 0) None))
       = Some piece
       ∧ get_valid_moves start
           (from_pos (mkMove (mkPosition 0 1 0) (mkPosition 0 5 0) None))
         = Some valid_moves
       ∧ (piece = None
          ∨ (∃ p, piece = Some p ∧ color p ≠ current_player start)
          ∨ Move_in (mkMove (mkPosition 0 1 0) (mkPosition 0 5 0) None) valid_moves
            = false →
          make_move start (mkMove (mkPosition 0 1 0) (mkPosition 0 5 0) None)
          = Some (false, start)))
  ∧ undo_move start = Some (false, start).
Proof.
  split; [|split].
  - apply (make_move_undo_move_refuse start
             (mkMove (mkPosition 8 0 0) (mkPosition 0 0 0) None)).
    reflexivity.
  - apply (make_move_undo_move_refuse start
             (mkMove (mkPosition 0 1 0) (mkPosition 0 5 0) None)).
    + reflexivity.
    + by eexists.
  - apply (make_move_undo_move_refuse start
             (mkMove (mkPosition 0 1 0) (mkPosition 0 2 0) None)).
    reflexivity.
Defined.

(** C5 as stated fails for an origin outside the array: no piece can be
    read at level 3, and [make_move] raises [IndexError] there instead of
    returning [False]. *)
Lemma make_move_unreadable_origin_raises :
  is_valid_position (mkPosition 3 0 0) = false
  ∧ get_piece start (mkPosition 3 0 0) = None
  ∧ make_move start (mkMove (mkPosition 3 0 0) (mkPosition 0 0 0) None) = None
  ∧ make_move start (mkMove (mkPosition 3 0 0) (mkPosition 0 0 0) None)
    ≠ Some (false, start).
Proof.
  split; [reflexivity|]. split; [reflexivity|]. split; [reflexivity|].
  discriminate.
Qed.

(** ** The evaluation raises nothing *)

Lemma for_acc_is_Some {A S} (xs : list A) (body : S → A → option S) s :
  (∀ s x, x ∈ xs → is_Some (body s x)) → is_Some (for_acc xs s body).
Proof.
  revert s. induction xs as [|x xs IH]; intros s H; cbn [for_acc]; [eauto|].
  destruct (H s x) as [s' ->]; [left|]. cbn [mbind option_bind].
  apply IH. intros ???. apply H. by right.
Qed.

Lemma table_at_is_Some table r f :
  length table = 8%nat → Forall (λ row, length row = 8%nat) table →
  0 <= r < 8 → 0 <= f < 8 → is_Some (table_at table r f).
Proof.
  intros Hl Hrows Hr Hf. unfold table_at.
  destruct (lookup_lt_is_Some_2 table (Z.to_nat r)) as [row Hrow]; [lia|].
  rewrite Hrow. cbn [mbind option_bind].
  apply lookup_lt_is_Some. rewrite Forall_lookup in Hrows.
  rewrite (Hrows _ _ Hrow). lia.
Qed.

Lemma piece_square_is_Some p is_endgame r f :
  0 <= r < 8 → 0 <= f < 8 → is_Some (piece_square p is_endgame r f).
Proof.
  intros Hr Hf. unfold piece_square.
  destruct (type p); [..|destruct is_endgame];
    (apply table_at_is_Some; [reflexivity | repeat constructor | done | done]).
Qed.

Lemma evaluate_terms_is_Some g : wf_board g → is_Some (evaluate_terms g).
Proof.
  intros Hwf. unfold evaluate_terms.
  destruct (for_acc_is_Some all_positions (count_piece g) 0) as [piece_count ->].
  { intros s pos Hpos%all_positions_valid. unfold count_piece.
    destruct (get_piece_valid g pos Hwf Hpos) as [piece ->]. by eexists. }
  cbn [mbind option_bind].
  destruct (for_acc_is_Some all_positions
              (score_piece g (piece_count <=? 10)) 0) as [score0 ->].
  { intros s pos Hpos%all_positions_valid. unfold score_piece.
    destruct (get_piece_valid g pos Hwf Hpos) as [piece ->].
    cbn [mbind option_bind]. destruct piece as [p|]; [|by eexists].
    apply is_valid_position_spec in Hpos.
    destruct (piece_square_is_Some p (piece_count <=? 10)
                (if Color_eqb (color p) BLACK then 7 - rank pos else rank pos)
                (file pos)) as [bonus ->]; [destruct (Color_eqb _ _); lia | lia |].
    by eexists. }
  cbn [mbind option_bind].
  destruct (for_acc_is_Some all_positions (count_mobility g) (0, 0)) as [mobility ->].
  { intros s pos Hpos%all_positions_valid. unfold count_mobility.
    destruct (get_piece_valid g pos Hwf Hpos) as [piece Hp]. rewrite Hp.
    cbn [mbind option_bind]. destruct piece as [p|]; [|by eexists].
    destruct (get_valid_moves_is_Some g pos Hwf) as [moves ->]; [eauto|].
    by eexists. }
  cbn [mbind option_bind].
  destruct (is_check_is_Some g WHITE Hwf) as [white_check ->].
  cbn [mbind option_bind].
  destruct (is_check_is_Some g BLACK Hwf) as [black_check ->].
  by eexists.
Qed.

Lemma evaluate_position_returns g :
  wf_board g → ∃ value, evaluate_position g = Some (value, g).
Proof.
  intros Hwf. unfold evaluate_position.
  destruct (is_checkmate_returns g WHITE Hwf) as [[] ->]; [eauto|].
  destruct (is_checkmate_returns g BLACK Hwf) as [[] ->]; [eauto|].
  destruct (evaluate_terms_is_Some g Hwf) as [value ->]. eauto.
Qed.

(** ** The search returns *)

Lemma valid_moves_indexable g pos moves :
  is_valid_position pos = true →
  get_valid_moves g pos = Some moves →
  Forall indexable moves.
Proof.
  intros Hv Hm.
  destruct (get_piece g pos) as [[piece|]|] eqn:Hp.
  - eapply Forall_impl; [by eapply get_valid_moves_lands|].
    intros move (Hfrom & (target & Ht & _) & _). split.
    + rewrite Hfrom, (cell_valid _ Hv). eauto.
    + by eapply get_piece_cell.
  - rewrite (get_valid_moves_empty _ _ Hp) in Hm. by injection Hm as <-.
  - unfold get_valid_moves in Hm. by rewrite Hp in Hm.
Qed.

Section LoopsReturn.

Variable rec : Chess3D → Z → score → score → bool → option (score * Chess3D).
Variable depth : Z.
Variables (Q Imax Imin : score → Prop).

Hypothesis Hrec : ∀ g a b mx,
  wf_game g → ∃ v g', rec g (depth - 1) a b mx = Some (v, g') ∧ wf_game g' ∧ Q v.
Hypothesis Hmax : ∀ v c, Imax v → Q c → Imax (score_max v c).
Hypothesis Hmin : ∀ v c, Imin v → Q c → Imin (score_min v c).

Lemma max_moves_returns beta moves : ∀ value alpha g,
  wf_game g → Imax value → Forall indexable moves →
  ∃ fl, max_moves rec depth beta value alpha g moves = Some fl
        ∧ wf_game (flow_result fl).2 ∧ Imax (flow_result fl).1.
Proof.
  induction moves as [|move moves IH]; intros value alpha g Hg Hv Hms;
    cbn [max_moves]; [by eexists|].
  apply Forall_cons in Hms as [Hm Hms].
  destruct (make_move_wf g move Hg Hm) as (ok & g1 & -> & Hg1).
  cbn [mbind option_bind snd].
  destruct (Hrec g1 alpha beta false Hg1) as (v & g2 & -> & Hg2 & Hq).
  cbn [mbind option_bind snd fst].
  destruct (undo_move_wf g2 Hg2) as (ok' & g3 & -> & Hg3).
  cbn [mbind option_bind snd].
  destruct (score_le _ _).
  - eexists. split; [reflexivity|]. cbn [flow_result fst snd]. eauto.
  - apply IH; eauto.
Qed.

Lemma max_cells_returns beta ps : ∀ value alpha g,
  wf_game g → Imax value → (∀ pos, pos ∈ ps → is_valid_position pos = true) →
  ∃ fl, max_cells rec depth beta value alpha g ps = Some fl
        ∧ wf_game (flow_result fl).2 ∧ Imax (flow_result fl).1.
Proof.
  induction ps as [|pos ps IH]; intros value alpha g Hg Hv Hps;
    cbn [max_cells]; [by eexists|].
  assert (∀ pos, pos ∈ ps → is_valid_position pos = true) as Hps'
    by (intros ??; apply Hps; by right).
  destruct (get_piece_valid g pos (proj1 Hg)) as [piece Hp]; [apply Hps; left|].
  rewrite Hp. cbn [mbind option_bind].
  destruct (is_color WHITE piece); [|by apply IH].
  destruct (get_valid_moves_is_Some g pos (proj1 Hg)) as [moves Hm]; [eauto|].
  rewrite Hm. cbn [mbind option_bind].
  destruct (max_moves_returns beta moves value alpha g Hg Hv)
    as (fl & -> & Hg' & Hv').
  { eapply valid_moves_indexable; [|done]. apply Hps. left. }
  cbn [mbind option_bind]. destruct fl as [v g'|v a g']; [by eexists|].
  by apply IH.
Qed.

Lemma min_moves_returns alpha moves : ∀ value beta g,
  wf_game g → Imin value → Forall indexable moves →
  ∃ fl, min_moves rec depth alpha value beta g moves = Some fl
        ∧ wf_game (flow_result fl).2 ∧ Imin (flow_result fl).1.
Proof.
  induction moves as [|move moves IH]; intros value beta g Hg Hv Hms;
    cbn [min_moves]; [by eexists|].
  apply Forall_cons in Hms as [Hm Hms].
  destruct (make_move_wf g move Hg Hm) as (ok & g1 & -> & Hg1).
  cbn [mbind option_bind snd].
  destruct (Hrec g1 alpha beta true Hg1) as (v & g2 & -> & Hg2 & Hq).
  cbn [mbind option_bind snd fst].
  destruct (undo_move_wf g2 Hg2) as (ok' & g3 & -> & Hg3).
  cbn [mbind option_bind snd].
  destruct (score_le _ _).
  - eexists. split; [reflexivity|]. cbn [flow_result fst snd]. eauto.
  - apply IH; eauto.
Qed.

Lemma min_cells_returns alpha ps : ∀ value beta g,
  wf_game g → Imin value → (∀ pos, pos ∈ ps → is_valid_position pos = true) →
  ∃ fl, min_cells rec depth alpha value beta g ps = Some fl
        ∧ wf_game (flow_result fl).2 ∧ Imin (flow_result fl).1.
Proof.
  induction ps as [|pos ps IH]; intros value beta g Hg Hv Hps;
    cbn [min_cells]; [by eexists|].
  assert (∀ pos, pos ∈ ps → is_valid_position pos = true) as Hps'
    by (intros ??; apply Hps; by right).
  destruct (get_piece_valid g pos (proj1 Hg)) as [piece Hp]; [apply Hps; left|].
  rewrite Hp. cbn [mbind option_bind].
  destruct (is_color BLACK piece); [|by apply IH].
  destruct (get_valid_moves_is_Some g pos (proj1 Hg)) as [moves Hm]; [eauto|].
  rewrite Hm. cbn [mbind option_bind].
  destruct (min_moves_returns alpha moves value beta g Hg Hv)
    as (fl & -> & Hg' & Hv').
  { eapply valid_moves_indexable; [|done]. apply Hps. left. }
  cbn [mbind option_bind]. destruct fl as [v g'|v b g']; [by eexists|].
  by apply IH.
Qed.

End LoopsReturn.

Lemma minimax_S fuel g depth alpha beta maximizing :
  minimax (S fuel) g depth alpha beta maximizing
  = if depth =? 0 then
      ev ← evaluate_position g; Some (Fin (fst ev), snd ev)
    else if maximizing then
      flow_result <$> max_cells (minimax fuel) depth beta NegInf alpha g all_positions
    else
      flow_result <$> min_cells (minimax fuel) depth alpha PosInf beta g all_positions.
Proof. reflexivity. Qed.

(** A node of depth [d] returns within [d + 1] nested calls, whatever the
    moves in it do to the game. *)
Lemma minimax_returns d : ∀ fuel g alpha beta maximizing,
  (d < fuel)%nat → wf_game g →
  ∃ value g', minimax fuel g (Z.of_nat d) alpha beta maximizing = Some (value, g')
              ∧ wf_game g'.
Proof.
  induction d as [|d IH]; intros [|fuel] g alpha beta maximizing Hfuel Hg;
    try lia; cbn [minimax].
  - change (Z.of_nat 0 =? 0) with true. cbv iota.
    destruct (evaluate_position_returns g (proj1 Hg)) as [value ->]. by eexists _, _.
  - destruct (Z.eqb_spec (Z.of_nat (S d)) 0) as [|_]; [lia|].
    assert (∀ g a b mx, wf_game g →
      ∃ v g', minimax fuel g (Z.of_nat (S d) - 1) a b mx = Some (v, g')
              ∧ wf_game g' ∧ True) as Hrec.
    { intros g0 a b mx Hg0. replace (Z.of_nat (S d) - 1) with (Z.of_nat d) by lia.
      destruct (IH fuel g0 a b mx) as (v & g' & ? & ?); [lia | done |]. eauto. }
    destruct maximizing.
    + destruct (max_cells_returns _ _ _ (λ _, True) Hrec (λ _ _ _ _, I) beta
                  all_positions NegInf alpha g Hg I all_positions_valid)
        as (fl & -> & Hfl & _).
      destruct fl; by eexists _, _.
    + destruct (min_cells_returns _ _ _ (λ _, True) Hrec (λ _ _ _ _, I) alpha
                  all_positions PosInf beta g Hg I all_positions_valid)
        as (fl & -> & Hfl & _).
      destruct fl; by eexists _, _.
Qed.

(** A node of depth 0 returns the integer of [evaluate_position]. *)
Lemma minimax_leaf fuel g alpha beta maximizing :
  wf_game g →
  ∃ value, minimax (S fuel) g 0 alpha beta maximizing = Some (Fin value, g).
Proof.
  intros Hg. cbn [minimax]. change (0 =? 0) with true. cbv iota.
  destruct (evaluate_position_returns g (proj1 Hg)) as [value ->]. by eexists.
Qed.

(** A node of depth 1 never returns the initial bound of the level above:
    a minimising node returns [inf] or an integer, a maximising node
    [-inf] or an integer. *)
Lemma minimax_depth_one fuel g alpha beta maximizing :
  wf_game g →
  ∃ value g',
    minimax (S (S fuel)) g 1 alpha beta maximizing = Some (value, g')
    ∧ wf_game g'
    ∧ value ≠ (if maximizing then PosInf else NegInf).
Proof.
  intros Hg. rewrite minimax_S. change (1 =? 0) with false. cbv iota.
  set (rec := minimax (S fuel)).
  assert (∀ g a b mx, wf_game g →
    ∃ v g', rec g (1 - 1) a b mx = Some (v, g') ∧ wf_game g' ∧ ∃ z, v = Fin z)
    as Hrec.
  { intros g0 a b mx Hg0. destruct (minimax_leaf fuel g0 a b mx Hg0) as [z Hz].
    exists (Fin z), g0. eauto. }
  destruct maximizing.
  - destruct (max_cells_returns rec 1 _ (λ v, v ≠ PosInf) Hrec) with
      (beta := beta) (ps := all_positions) (value := NegInf) (alpha := alpha) (g := g)
      as (fl & -> & Hfl & Hv); [| done | done | apply all_positions_valid |].
    { intros v c Hv [z ->]. unfold score_max. destruct (score_lt v (Fin z)); done. }
    destruct fl; by eexists _, _.
  - destruct (min_cells_returns rec 1 _ (λ v, v ≠ NegInf) Hrec) with
      (alpha := alpha) (ps := all_positions) (value := PosInf) (beta := beta) (g := g)
      as (fl & -> & Hfl & Hv); [| done | done | apply all_positions_valid |].
    { intros v c Hv [z ->]. unfold score_min. destruct (score_lt (Fin z) v); done. }
    destruct fl; by eexists _, _.
Qed.

Lemma collect_moves_returns g color0 ps :
  wf_board g → (∀ pos, pos ∈ ps → is_valid_position pos = true) →
  ∃ moves, collect_moves g color0 ps = Some moves ∧ Forall indexable moves.
Proof.
  intros Hwf. induction ps as [|pos ps IH]; intros Hps; cbn [collect_moves];
    [by eexists|].
  destruct IH as (rest & Hrest & Hi); [intros ??; apply Hps; by right|].
  destruct (get_piece_valid g pos Hwf) as [piece Hp]; [apply Hps; left|].
  rewrite Hp. cbn [mbind option_bind].
  destruct (is_color color0 piece); [|eauto].
  destruct (get_valid_moves_is_Some g pos Hwf) as [moves Hm]; [eauto|].
  rewrite Hm, Hrest. cbn [mbind option_bind].
  eexists. split; [reflexivity|]. apply Forall_app. split; [|done].
  eapply valid_moves_indexable; [|done]. apply Hps. left.
Qed.

Section RootLoop.

Variables (fuel : nat) (max_depth : Z) (color0 : Color) (R : score → Prop).

Hypothesis Hchild : ∀ g a b,
  wf_game g →
  ∃ v g', minimax fuel g (max_depth - 1) a b (negb (Color_eqb color0 WHITE))
          = Some (v, g')
          ∧ wf_game g' ∧ R v.

Lemma root_loop_returns moves : ∀ s,
  wf_game (temp_game s) → Forall indexable moves →
  ∃ s', root_loop fuel max_depth color0 s moves = Some s'
        ∧ wf_game (temp_game s')
        ∧ (∀ m, best_move s' = Some m → best_move s = Some m ∨ m ∈ moves)
        ∧ (is_Some (best_move s) → is_Some (best_move s'))
        ∧ ((∀ v, R v → v ≠ (if Color_eqb color0 WHITE then NegInf else PosInf)) →
           moves ≠ [] →
           best_value s = (if Color_eqb color0 WHITE then NegInf else PosInf) →
           is_Some (best_move s')).
Proof.
  induction moves as [|move moves IH]; intros s Hg Hms; cbn [root_loop].
  { eexists. split; [reflexivity|]. split; [done|]. split; [by left|].
    split; [done|]. intros _ Hne. done. }
  apply Forall_cons in Hms as [Hm Hms].
  destruct (get_piece_is_Some (temp_game s) (to_pos move) (proj1 Hg)) as [? ->];
    [apply Hm|].
  destruct (get_piece_is_Some (temp_game s) (from_pos move) (proj1 Hg)) as [? ->];
    [apply Hm|].
  cbn [mbind option_bind].
  destruct (make_move_wf _ move Hg Hm) as (ok & g1 & -> & Hg1).
  cbn [mbind option_bind snd].
  destruct (Hchild g1 (root_alpha s) (root_beta s) Hg1) as (v & g2 & Hv & Hg2 & Hr).
  destruct (undo_move_wf g2 Hg2) as (ok' & g3 & Hu & Hg3).
  destruct color0; cbn [Color_eqb negb] in *; cbv iota; rewrite Hv;
    cbn [mbind option_bind snd fst]; rewrite Hu; cbn [mbind option_bind snd];
    match goal with
    | |- context [root_loop _ _ _ ?s1 moves] =>
        destruct (IH s1) as (s' & -> & Hg' & Hfrom & Hkeep & _); [done..|]
    end;
    cbn [best_move best_value] in *;
    (eexists; split; [reflexivity|]; split; [done|]; split; [|split]).
  - intros m Hbm. destruct (Hfrom m Hbm) as [H|H]; [|right; by right].
    destruct (score_lt (best_value s) v); [|by left].
    injection H as <-. right. left.
  - intros Hs. apply Hkeep. by destruct (score_lt (best_value s) v).
  - intros HR _ Hinit. apply Hkeep. rewrite Hinit.
    specialize (HR v Hr). destruct v; done.
  - intros m Hbm. destruct (Hfrom m Hbm) as [H|H]; [|right; by right].
    destruct (score_lt v (best_value s)); [|by left].
    injection H as <-. right. left.
  - intros Hs. apply Hkeep. by destruct (score_lt v (best_value s)).
  - intros HR _ Hinit. apply Hkeep. rewrite Hinit.
    specialize (HR v Hr). destruct v; done.
Qed.

End RootLoop.

(** C9, amended.  With no time limit, on every well-formed game and for
    every outcome of the shuffle: [get_best_move] returns [None] when the
    requested colour has no move on the board; when it has one and the
    depth is 1 or 2, [get_best_move] returns one of its moves. *)
Theorem get_best_move_none shuffle fuel g max_depth color0 :
  (∀ l, shuffle l ≡ₚ l) →
  (2 <= fuel)%nat →
  wf_game g →
  ∃ all_moves,
    collect_moves g color0 all_positions = Some all_moves
    ∧ (all_moves = [] → get_best_move shuffle fuel g max_depth color0 = Some None)
    ∧ (all_moves ≠ [] → max_depth = 1 ∨ max_depth = 2 →
       ∃ move, get_best_move shuffle fuel g max_depth color0 = Some (Some move)
               ∧ move ∈ all_moves).
Proof.
  intros Hshuffle Hfuel Hg.
  destruct (collect_moves_returns g color0 all_positions (proj1 Hg))
    as (all_moves & Hall & Hidx); [apply all_positions_valid|].
  exists all_moves. split; [done|].
  unfold get_best_move, get_best_move_eval. rewrite Hall. cbn [mbind option_bind].
  split.
  - intros ->. rewrite (proj1 (Permutation_nil_r _) (Hshuffle [])). reflexivity.
  - intros Hne Hdepth.
    set (initial := if Color_eqb color0 WHITE then NegInf else PosInf).
    destruct fuel as [|[|fuel]]; [lia..|].
    assert (∀ g a b, wf_game g →
      ∃ v g', minimax (S (S fuel)) g (max_depth - 1) a b (negb (Color_eqb color0 WHITE))
              = Some (v, g')
              ∧ wf_game g' ∧ v ≠ initial) as Hchild.
    { intros g0 a b Hg0. destruct Hdepth as [-> | ->].
      - destruct (minimax_leaf (S fuel) g0 a b (negb (Color_eqb color0 WHITE)) Hg0)
          as [z Hz].
        exists (Fin z), g0. split; [done|]. split; [done|].
        unfold initial. by destruct (Color_eqb color0 WHITE).
      - destruct (minimax_depth_one fuel g0 a b (negb (Color_eqb color0 WHITE)) Hg0)
          as (v & g' & Hv & Hg' & Hne').
        exists v, g'. split; [done|]. split; [done|].
        unfold initial. by destruct (Color_eqb color0 WHITE). }
    destruct (root_loop_returns (S (S fuel)) max_depth color0 _ Hchild
                (shuffle all_moves) (mkRoot None initial NegInf PosInf g))
      as (s' & -> & _ & Hfrom & _ & Hsome); [done | by rewrite Hshuffle |].
    cbn [mbind option_bind fmap option_fmap option_map fst].
    destruct Hsome as [move Hmove]; [done | | done |].
    { intros E. apply Hne. apply Permutation_nil_r. by rewrite <- (Hshuffle all_moves), E. }
    exists move. rewrite Hmove. split; [done|].
    destruct (Hfrom move Hmove) as [?|Hin]; [done|]. by rewrite Hshuffle in Hin.
Qed.

Lemma get_best_move_none_witness :
  ∃ all_moves,
    collect_moves start WHITE all_positions = Some all_moves
    ∧ (all_moves = [] → get_best_move (λ l, l) 2 start 2 WHITE = Some None)
    ∧ (all_moves ≠ [] → 2 = 1 ∨ 2 = 2 →
       ∃ move, get_best_move (λ l, l) 2 start 2 WHITE = Some (Some move)
               ∧ move ∈ all_moves).
Proof.
  apply (get_best_move_none (λ l, l) 2 start 2 WHITE).
  - intros l. reflexivity.
  - lia.
  - split; [reflexivity | constructor].
Defined.

(** C9 as stated fails at depth 3: the lone White king has three moves,
    each is answered by a capture of the king, after which White has no
    move and the maximising node returns [-inf]; no root value is greater
    than the initial [-inf] and [get_best_move] returns [None]. *)
Lemma get_best_move_none_with_moves :
  wf_game lone_king
  ∧ (∃ all_moves, collect_moves lone_king WHITE all_positions = Some all_moves
                  ∧ length all_moves = 3%nat)
  ∧ get_best_move (λ l, l) 3 lone_king 3 WHITE = Some None.
Proof.
  split; [split; [reflexivity | constructor]|].
  split; [eexists; split|]; vm_compute; reflexivity.
Qed.

(** ** Arithmetic of the search values *)

Ltac score_cases :=
  unfold bounds, max_running, min_running, score_le, score_max, score_min in *;
  repeat match goal with H : _ |- _ => revert H end;
  intros;
  repeat match goal with H : _ = _ |- _ => revert H
                    | H : _ ∧ _ |- _ => revert H
                    | H : _ → _ |- _ => revert H end;
  repeat match goal with x : score |- _ => destruct x end;
  repeat (cbn [score_lt negb];
          match goal with
          | |- context [?a <? ?b] => destruct (Z.ltb_spec a b)
          end);
  cbn [score_lt negb];
  intros;
  repeat match goal with
    | H : _ ∧ _ |- _ => destruct H
    | H : Fin _ = Fin _ |- _ => injection H as H
    | H : ?P → _ |- _ =>
        let HP := fresh in
        first [ assert P as HP by (first [reflexivity | assumption | lia]);
                specialize (H HP); clear HP
              | clear H ]
    end;
  repeat split; intros;
  try discriminate; try (f_equal; lia); try reflexivity; try lia.

Lemma score_le_refl v : score_le v v = true.
Proof. score_cases. Qed.

Lemma score_le_max_l v e x :
  score_le v e = true → score_le v (score_max e x) = true.
Proof. intros H. score_cases. Qed.

Lemma score_le_min_l v e x :
  score_le e v = true → score_le (score_min e x) v = true.
Proof. intros H. score_cases. Qed.

Lemma score_le_foldl_max v e values :
  score_le v e = true → score_le v (foldl score_max e values) = true.
Proof.
  revert e. induction values as [|x values IH]; intros e H; cbn [foldl]; [done|].
  apply IH. by apply score_le_max_l.
Qed.

Lemma score_le_foldl_min v e values :
  score_le e v = true → score_le (foldl score_min e values) v = true.
Proof.
  revert e. induction values as [|x values IH]; intros e H; cbn [foldl]; [done|].
  apply IH. by apply score_le_min_l.
Qed.

(** One move of a maximising node: the child is searched with the window
    [bound], [beta]; either the loop is cut off with a lower bound of the
    exact value, or it goes on with its invariant. *)
Lemma max_running_step alpha beta value bound exact child_exact child :
  max_running alpha beta value bound exact →
  bounds bound beta child_exact child →
  if score_le beta (score_max bound (score_max value child)) then
    score_le beta (score_max value child) = true
    ∧ score_le (score_max value child) (score_max exact child_exact) = true
  else
    max_running alpha beta (score_max value child)
      (score_max bound (score_max value child)) (score_max exact child_exact).
Proof. intros (-> & H1 & H2 & H3) (H4 & H5 & H6). score_cases. Qed.

Lemma min_running_step alpha beta value bound exact child_exact child :
  min_running alpha beta value bound exact →
  bounds alpha bound child_exact child →
  if score_le (score_min bound (score_min value child)) alpha then
    score_le (score_min value child) alpha = true
    ∧ score_le (score_min exact child_exact) (score_min value child) = true
  else
    min_running alpha beta (score_min value child)
      (score_min bound (score_min value child)) (score_min exact child_exact).
Proof. intros (-> & H1 & H2 & H3) (H4 & H5 & H6). score_cases. Qed.

Lemma max_running_init alpha beta :
  score_lt alpha beta = true → max_running alpha beta NegInf alpha NegInf.
Proof. intros H. score_cases. Qed.

Lemma min_running_init alpha beta :
  score_lt alpha beta = true → min_running alpha beta PosInf beta PosInf.
Proof. intros H. score_cases. Qed.

Lemma max_flow_bounds alpha beta exact fl :
  score_lt alpha beta = true →
  max_flow alpha beta exact fl → bounds alpha beta exact (flow_result fl).1.
Proof.
  intros H0. destruct fl as [value g|value bound g]; cbn [max_flow flow_result fst].
  - intros [H1 H2]. score_cases.
  - intros (-> & H1 & H2 & H3). score_cases.
Qed.

Lemma min_flow_bounds alpha beta exact fl :
  score_lt alpha beta = true →
  min_flow alpha beta exact fl → bounds alpha beta exact (flow_result fl).1.
Proof.
  intros H0. destruct fl as [value g|value bound g]; cbn [min_flow flow_result fst].
  - intros [H1 H2]. score_cases.
  - intros (-> & H1 & H2 & H3). score_cases.
Qed.

Lemma bounds_exact alpha beta value : bounds alpha beta value value.
Proof. score_cases. Qed.

(** At the root of a search for White the window is [best_value], [inf]:
    a value returned within [bounds] improves on [best_value] exactly when
    the exact value does, and is then the exact value. *)
Lemma root_step_white best exact returned :
  (score_lt best PosInf = true → bounds best PosInf exact returned) →
  score_lt best returned = score_lt best exact
  ∧ (score_lt best returned = true → returned = exact).
Proof. intros H. score_cases. Qed.

(** ** Alpha-beta against exhaustive minimax *)

Lemma exhaustive_values_app rec_ex g moves1 moves2 values1 values2 :
  exhaustive_values rec_ex g moves1 = Some values1 →
  exhaustive_values rec_ex g moves2 = Some values2 →
  exhaustive_values rec_ex g (moves1 ++ moves2) = Some (values1 ++ values2).
Proof.
  revert values1. induction moves1 as [|move moves1 IH]; intros values1 H1 H2;
    cbn [exhaustive_values app] in *.
  - by injection H1 as <-.
  - destruct (make_move g move) as [made|]; [|done]. cbn [mbind option_bind] in *.
    destruct (rec_ex (snd made)) as [value|]; [|done]. cbn [mbind option_bind] in *.
    destruct (exhaustive_values rec_ex g moves1) as [values|]; [|done].
    cbn [mbind option_bind] in *. injection H1 as <-.
    by rewrite (IH values eq_refl H2).
Qed.

Section Refinement.

Variable rec : Chess3D → Z → score → score → bool → option (score * Chess3D).
Variable rec_ex : Chess3D → option score.
Variable depth : Z.
Variable g : Chess3D.

Lemma max_moves_refines beta moves :
  Forall (step_refines rec rec_ex depth false g) moves →
  ∃ values,
    exhaustive_values rec_ex g moves = Some values
    ∧ ∀ value bound,
        ∃ fl, max_moves rec depth beta value bound g moves = Some fl
              ∧ (flow_result fl).2 = g
              ∧ ∀ alpha exact,
                  max_running alpha beta value bound exact →
                  max_flow alpha beta (foldl score_max exact values) fl.
Proof.
  induction 1 as [|move moves Hstep _ IH].
  { exists []. split; [done|]. intros value bound. eexists. split; [reflexivity|].
    split; [done|]. by intros alpha exact H. }
  destruct Hstep as (g1 & Hmake & Hundo & child_exact & Hex & Hchild).
  destruct IH as (values & Hvalues & Hloop).
  exists (child_exact :: values). split.
  { cbn [exhaustive_values]. rewrite Hmake. cbn [mbind option_bind snd].
    rewrite Hex. cbn [mbind option_bind]. by rewrite Hvalues. }
  intros value bound. cbn [max_moves]. rewrite Hmake. cbn [mbind option_bind snd].
  destruct (Hchild bound beta) as (child & -> & Hb).
  cbn [mbind option_bind snd fst]. rewrite Hundo. cbn [mbind option_bind snd].
  destruct (score_le beta (score_max bound (score_max value child))) eqn:Hcut.
  - eexists. split; [reflexivity|]. split; [done|]. intros alpha exact Hrun.
    pose proof (max_running_step _ _ _ _ _ child_exact child Hrun) as Hs.
    rewrite Hcut in Hs. destruct Hs as [Hs1 Hs2]; [apply Hb, Hrun|].
    cbn [max_flow foldl]. split; [done|]. by apply score_le_foldl_max.
  - destruct (Hloop (score_max value child)
                (score_max bound (score_max value child))) as (fl & Hfl & Hg & Hinv).
    exists fl. split; [done|]. split; [done|]. intros alpha exact Hrun.
    cbn [foldl]. apply Hinv.
    pose proof (max_running_step _ _ _ _ _ child_exact child Hrun) as Hs.
    rewrite Hcut in Hs. apply Hs, Hb, Hrun.
Qed.

Lemma max_cells_refines beta ps : ∀ all_moves,
  collect_moves g WHITE ps = Some all_moves →
  Forall (step_refines rec rec_ex depth false g) all_moves →
  ∃ values,
    exhaustive_values rec_ex g all_moves = Some values
    ∧ ∀ value bound,
        ∃ fl, max_cells rec depth beta value bound g ps = Some fl
              ∧ (flow_result fl).2 = g
              ∧ ∀ alpha exact,
                  max_running alpha beta value bound exact →
                  max_flow alpha beta (foldl score_max exact values) fl.
Proof.
  induction ps as [|pos ps IH]; intros all_moves Hall Hsteps;
    cbn [collect_moves max_cells] in *.
  { injection Hall as <-. exists []. split; [done|]. intros value bound.
    eexists. split; [reflexivity|]. split; [done|]. by intros alpha exact H. }
  destruct (get_piece g pos) as [piece|]; [|done]. cbn [mbind option_bind] in *.
  destruct (is_color WHITE piece); [|by apply IH].
  destruct (get_valid_moves g pos) as [moves|]; [|done].
  cbn [mbind option_bind] in *.
  destruct (collect_moves g WHITE ps) as [rest|]; [|done].
  cbn [mbind option_bind] in *. injection Hall as <-.
  apply Forall_app in Hsteps as [Hmoves Hrest].
  destruct (max_moves_refines beta moves Hmoves) as (values1 & Hv1 & Hloop1).
  destruct (IH rest eq_refl Hrest) as (values2 & Hv2 & Hloop2).
  exists (values1 ++ values2). split; [by apply exhaustive_values_app|].
  intros value bound.
  destruct (Hloop1 value bound) as (fl1 & -> & Hg1 & Hinv1).
  cbn [mbind option_bind]. destruct fl1 as [v g'|v b g']; cbn [flow_result snd] in Hg1;
    subst g'.
  - eexists. split; [reflexivity|]. split; [done|]. intros alpha exact Hrun.
    destruct (Hinv1 alpha exact Hrun) as [H1 H2]. rewrite foldl_app.
    cbn [max_flow]. split; [done|]. by apply score_le_foldl_max.
  - destruct (Hloop2 v b) as (fl2 & -> & Hg2 & Hinv2).
    eexists. split; [reflexivity|]. split; [done|]. intros alpha exact Hrun.
    rewrite foldl_app. apply Hinv2. by apply Hinv1.
Qed.

Lemma min_moves_refines alpha moves :
  Forall (step_refines rec rec_ex depth true g) moves →
  ∃ values,
    exhaustive_values rec_ex g moves = Some values
    ∧ ∀ value bound,
        ∃ fl, min_moves rec depth alpha value bound g moves = Some fl
              ∧ (flow_result fl).2 = g
              ∧ ∀ beta exact,
                  min_running alpha beta value bound exact →
                  min_flow alpha beta (foldl score_min exact values) fl.
Proof.
  induction 1 as [|move moves Hstep _ IH].
  { exists []. split; [done|]. intros value bound. eexists. split; [reflexivity|].
    split; [done|]. by intros beta exact H. }
  destruct Hstep as (g1 & Hmake & Hundo & child_exact & Hex & Hchild).
  destruct IH as (values & Hvalues & Hloop).
  exists (child_exact :: values). split.
  { cbn [exhaustive_values]. rewrite Hmake. cbn [mbind option_bind snd].
    rewrite Hex. cbn [mbind option_bind]. by rewrite Hvalues. }
  intros value bound. cbn [min_moves]. rewrite Hmake. cbn [mbind option_bind snd].
  destruct (Hchild alpha bound) as (child & -> & Hb).
  cbn [mbind option_bind snd fst]. rewrite Hundo. cbn [mbind option_bind snd].
  destruct (score_le (score_min bound (score_min value child)) alpha) eqn:Hcut.
  - eexists. split; [reflexivity|]. split; [done|]. intros beta exact Hrun.
    pose proof (min_running_step _ _ _ _ _ child_exact child Hrun) as Hs.
    rewrite Hcut in Hs. destruct Hs as [Hs1 Hs2]; [apply Hb, Hrun|].
    cbn [min_flow foldl]. split; [done|]. by apply score_le_foldl_min.
  - destruct (Hloop (score_min value child)
                (score_min bound (score_min value child))) as (fl & Hfl & Hg & Hinv).
    exists fl. split; [done|]. split; [done|]. intros beta exact Hrun.
    cbn [foldl]. apply Hinv.
    pose proof (min_running_step _ _ _ _ _ child_exact child Hrun) as Hs.
    rewrite Hcut in Hs. apply Hs, Hb, Hrun.
Qed.

Lemma min_cells_refines alpha ps : ∀ all_moves,
  collect_moves g BLACK ps = Some all_moves →
  Forall (step_refines rec rec_ex depth true g) all_moves →
  ∃ values,
    exhaustive_values rec_ex g all_moves = Some values
    ∧ ∀ value bound,
        ∃ fl, min_cells rec depth alpha value bound g ps = Some fl
              ∧ (flow_result fl).2 = g
              ∧ ∀ beta exact,
                  min_running alpha beta value bound exact →
                  min_flow alpha beta (foldl score_min exact values) fl.
Proof.
  induction ps as [|pos ps IH]; intros all_moves Hall Hsteps;
    cbn [collect_moves min_cells] in *.
  { injection Hall as <-. exists []. split; [done|]. intros value bound.
    eexists. split; [reflexivity|]. split; [done|]. by intros beta exact H. }
  destruct (get_piece g pos) as [piece|]; [|done]. cbn [mbind option_bind] in *.
  destruct (is_color BLACK piece); [|by apply IH].
  destruct (get_valid_moves g pos) as [moves|]; [|done].
  cbn [mbind option_bind] in *.
  destruct (collect_moves g BLACK ps) as [rest|]; [|done].
  cbn [mbind option_bind] in *. injection Hall as <-.
  apply Forall_app in Hsteps as [Hmoves Hrest].
  destruct (min_moves_refines alpha moves Hmoves) as (values1 & Hv1 & Hloop1).
  destruct (IH rest eq_refl Hrest) as (values2 & Hv2 & Hloop2).
  exists (values1 ++ values2). split; [by apply exhaustive_values_app|].
  intros value bound.
  destruct (Hloop1 value bound) as (fl1 & -> & Hg1 & Hinv1).
  cbn [mbind option_bind]. destruct fl1 as [v g'|v b g']; cbn [flow_result snd] in Hg1;
    subst g'.
  - eexists. split; [reflexivity|]. split; [done|]. intros beta exact Hrun.
    destruct (Hinv1 beta exact Hrun) as [H1 H2]. rewrite foldl_app.
    cbn [min_flow]. split; [done|]. by apply score_le_foldl_min.
  - destruct (Hloop2 v b) as (fl2 & -> & Hg2 & Hinv2).
    eexists. split; [reflexivity|]. split; [done|]. intros beta exact Hrun.
    rewrite foldl_app. apply Hinv2. by apply Hinv1.
Qed.

End Refinement.

Lemma collect_moves_elem g color0 ps : ∀ all_moves move,
  collect_moves g color0 ps = Some all_moves → move ∈ all_moves →
  ∃ pos piece moves,
    get_piece g pos = Some (Some piece) ∧ color piece = color0
    ∧ get_valid_moves g pos = Some moves ∧ move ∈ moves.
Proof.
  induction ps as [|pos ps IH]; intros all_moves move Hall Hin;
    cbn [collect_moves] in Hall.
  { injection Hall as <-. by apply elem_of_nil in Hin. }
  destruct (get_piece g pos) as [piece|] eqn:Hp; [|done].
  cbn [mbind option_bind] in Hall.
  destruct (is_color color0 piece) eqn:Hc; [|by eapply IH].
  destruct (get_valid_moves g pos) as [moves|] eqn:Hm; [|done].
  cbn [mbind option_bind] in Hall.
  destruct (collect_moves g color0 ps) as [rest|]; [|done].
  cbn [mbind option_bind] in Hall. injection Hall as <-.
  apply elem_of_app in Hin as [Hin|Hin]; [|by eapply IH].
  destruct piece as [piece|]; [|done]. cbn [is_color] in Hc.
  apply Color_eqb_eq in Hc. by exists pos, piece, moves.
Qed.

(** A generated move without promotion, of a piece of the side to move, is
    accepted by [make_move], and [undo_move] then gives the game back. *)
Lemma generated_move_undone g pos piece moves move :
  get_piece g pos = Some (Some piece) →
  color piece = current_player g →
  get_valid_moves g pos = Some moves →
  move ∈ moves →
  promotion move = None →
  ∃ g1, make_move g move = Some (true, g1)
        ∧ undo_move g1 = Some (true, g)
        ∧ (wf_board g → wf_board g1).
Proof.
  intros Hp Hc Hm Hin Hpromo.
  pose proof (get_valid_moves_lands _ _ _ _ Hp Hm) as Hl.
  rewrite Forall_forall in Hl.
  destruct (Hl _ Hin) as (Hfrom & (target & Ht & _) & _).
  destruct (get_piece_cell _ _ _ Hp) as [i Hi].
  destruct (get_piece_cell _ _ _ Ht) as [j Hj].
  assert (∃ g1, make_move g move = Some (true, g1)) as [g1 Hmake].
  { unfold make_move. rewrite Hfrom, Hp. cbn [mbind option_bind].
    rewrite (proj2 (Color_eqb_eq _ _) Hc). cbn [negb]. rewrite Hm.
    cbn [mbind option_bind]. rewrite (proj2 (Move_in_elem _ _) Hin). cbn [negb].
    rewrite Ht. cbn [mbind option_bind].
    rewrite (set_piece_at _ _ _ _ Hj). cbn [mbind option_bind].
    rewrite (set_piece_at _ _ _ _ Hi). cbn [mbind option_bind].
    unfold promotes. rewrite Hpromo. eauto. }
  exists g1. split; [done|].
  destruct (undo_after_make _ _ _ Hmake) as (piece' & i' & Hp' & Hi' & Hundo).
  rewrite Hfrom in Hp', Hi'. assert (piece' = piece) as -> by congruence.
  assert (i' = i) as -> by congruence.
  split.
  - rewrite Hundo. do 2 f_equal.
    rewrite promotes_arrived by (unfold promotes; by rewrite Hpromo).
    rewrite (get_piece_at _ _ _ Hi) in Hp. rewrite (list_insert_id _ _ _ Hp).
    by destruct g.
  - intros Hwf.
    destruct (make_move_accepted _ _ _ Hmake)
      as (? & ? & ? & ? & _ & _ & _ & _ & _ & _ & _ & _ & ->).
    unfold wf_board. cbn [board]. by rewrite !length_insert.
Qed.

(** Reading [clean] one ply down. *)
Lemma clean_S d g maximizing :
  clean (S d) g maximizing = true →
  current_player g = side maximizing
  ∧ ∃ moves,
      collect_moves g (side maximizing) all_positions = Some moves
      ∧ ∀ move, move ∈ moves →
          promotion move = None
          ∧ ∃ ok g1, make_move g move = Some (ok, g1)
                     ∧ clean d g1 (negb maximizing) = true.
Proof.
  cbn [clean]. intros [Hc H]%andb_true_iff. apply Color_eqb_eq in Hc.
  split; [done|].
  destruct (collect_moves g (side maximizing) all_positions) as [moves|]; [|done].
  exists moves. split; [done|]. intros move Hin%list_elem_of_In.
  rewrite forallb_forall in H. specialize (H move Hin).
  destruct (promotion move); [done|]. split; [done|].
  destruct (make_move g move) as [[ok g1]|]; [|done]. eauto.
Qed.

(** What the induction on the depth proves of a node. *)
Lemma clean_steps d fuel g maximizing :
  (∀ g1, wf_board g1 → clean d g1 (negb maximizing) = true →
         child_refines (minimax fuel)
           (fun g2 => minimax_exhaustive d g2 (negb maximizing))
           (Z.of_nat (S d)) (negb maximizing) g1) →
  wf_board g →
  clean (S d) g maximizing = true →
  ∃ moves,
    collect_moves g (side maximizing) all_positions = Some moves
    ∧ Forall (step_refines (minimax fuel)
                (fun g2 => minimax_exhaustive d g2 (negb maximizing))
                (Z.of_nat (S d)) (negb maximizing) g) moves.
Proof.
  intros Hd Hwf (Hplayer & moves & Hall & Hmoves)%clean_S.
  exists moves. split; [done|]. apply Forall_forall. intros move Hin.
  destruct (Hmoves move Hin) as (Hpromo & ok & g1 & Hmake & Hclean).
  destruct (collect_moves_elem _ _ _ _ _ Hall Hin)
    as (pos & piece & ms & Hp & Hc & Hms & Hin').
  destruct (generated_move_undone g pos piece ms move)
    as (g1' & Hmake' & Hundo & Hwf1); [done | congruence | done..|].
  assert (g1' = g1) as -> by congruence.
  exists g1. split; [done|]. split; [done|]. apply Hd; auto.
Qed.

Lemma minimax_refines d : ∀ fuel g maximizing,
  (d < fuel)%nat → wf_board g → clean d g maximizing = true →
  child_refines (minimax fuel) (fun g1 => minimax_exhaustive d g1 maximizing)
    (Z.of_nat (S d)) maximizing g.
Proof.
  unfold child_refines. replace (Z.of_nat (S d) - 1) with (Z.of_nat d) by lia.
  induction d as [|d IH]; intros [|fuel] g maximizing Hfuel Hwf Hclean; try lia.
  - destruct (evaluate_position_returns g Hwf) as [value Hv].
    exists (Fin value). cbn [minimax_exhaustive]. rewrite Hv.
    cbn [mbind option_bind fst snd]. split; [reflexivity|].
    intros alpha beta. exists (Fin value). rewrite minimax_S.
    change (Z.of_nat 0 =? 0) with true. cbv iota. rewrite Hv.
    cbn [mbind option_bind fst snd]. split; [done|]. intros _. apply bounds_exact.
  - destruct (clean_steps d fuel g maximizing) as (moves & Hall & Hsteps);
      [|done|done|].
    { intros g1 Hwf1 Hclean1. unfold child_refines.
      replace (Z.of_nat (S d) - 1) with (Z.of_nat d) by lia.
      apply IH; [lia | done..]. }
    cbn [minimax_exhaustive]. rewrite Hall. cbn [mbind option_bind].
    destruct maximizing; cbn [side negb] in *.
    + destruct (max_cells_refines _ _ _ _ NegInf all_positions moves Hall Hsteps)
        as (values & Hvalues & _).
      rewrite Hvalues. cbn [mbind option_bind]. eexists. split; [reflexivity|].
      intros alpha beta.
      destruct (max_cells_refines _ _ _ _ beta all_positions moves Hall Hsteps)
        as (values' & Hvalues' & Hloop).
      assert (values' = values) as -> by congruence.
      destruct (Hloop NegInf alpha) as (fl & Hfl & Hg & Hinv).
      exists (flow_result fl).1. rewrite minimax_S.
      destruct (Z.eqb_spec (Z.of_nat (S d)) 0) as [|_]; [lia|].
      rewrite Hfl. cbn [fmap option_fmap option_map]. split.
      { destruct (flow_result fl) as [v g']. cbn [fst snd] in *. by subst g'. }
      intros Hwin. apply max_flow_bounds; [done|].
      apply Hinv. by apply max_running_init.
    + destruct (min_cells_refines _ _ _ _ PosInf all_positions moves Hall Hsteps)
        as (values & Hvalues & _).
      rewrite Hvalues. cbn [mbind option_bind]. eexists. split; [reflexivity|].
      intros alpha beta.
      destruct (min_cells_refines _ _ _ _ alpha all_positions moves Hall Hsteps)
        as (values' & Hvalues' & Hloop).
      assert (values' = values) as -> by congruence.
      destruct (Hloop PosInf beta) as (fl & Hfl & Hg & Hinv).
      exists (flow_result fl).1. rewrite minimax_S.
      destruct (Z.eqb_spec (Z.of_nat (S d)) 0) as [|_]; [lia|].
      rewrite Hfl. cbn [fmap option_fmap option_map]. split.
      { destruct (flow_result fl) as [v g']. cbn [fst snd] in *. by subst g'. }
      intros Hwin. apply min_flow_bounds; [done|].
      apply Hinv. by apply min_running_init.
Qed.

(** The root loop of a search for White against the exhaustive choice. *)
Lemma root_loop_refines fuel max_depth rec_ex g moves :
  Forall (step_refines (minimax fuel) rec_ex max_depth false g) moves →
  ∃ values,
    exhaustive_values rec_ex g moves = Some values
    ∧ ∀ best best_val,
        ∃ s, root_loop fuel max_depth WHITE (mkRoot best best_val best_val PosInf g)
               moves = Some s
             ∧ (best_move s, best_value s)
               = foldl (best_of WHITE) (best, best_val) (zip moves values).
Proof.
  induction 1 as [|move moves Hstep _ IH].
  { exists []. split; [done|]. intros best best_val. by eexists. }
  destruct Hstep as (g1 & Hmake & Hundo & exact & Hex & Hchild).
  destruct IH as (values & Hvalues & Hloop).
  exists (exact :: values). split.
  { cbn [exhaustive_values]. rewrite Hmake. cbn [mbind option_bind snd].
    rewrite Hex. cbn [mbind option_bind]. by rewrite Hvalues. }
  intros best best_val. cbn [root_loop temp_game root_alpha root_beta best_value
                             best_move].
  destruct (make_move_accepted _ _ _ Hmake)
    as (piece & captured & i & j & Hp & _ & _ & Hi & Hj & _ & _ & Hbj & _).
  rewrite (get_piece_at _ _ _ Hj), Hbj, Hp, Hmake. cbn [mbind option_bind snd].
  change (Color_eqb WHITE WHITE) with true. cbv iota.
  destruct (Hchild best_val PosInf) as (returned & -> & Hb).
  cbn [mbind option_bind snd fst]. rewrite Hundo. cbn [mbind option_bind snd].
  destruct (root_step_white best_val exact returned Hb) as [Hsame Hexact].
  destruct (Hloop (if score_lt best_val returned then Some move else best)
                  (if score_lt best_val returned then returned else best_val))
    as (s & Hs & Hfold).
  exists s. split; [exact Hs|]. rewrite Hfold. cbn [zip zip_with foldl].
  f_equal. unfold best_of. change (Color_eqb WHITE WHITE) with true.
  cbn [fst snd]. rewrite <- Hsame.
  destruct (score_lt best_val returned); [|done]. by rewrite Hexact.
Qed.

(** Pruned and exhaustive search agree wherever the tree is [clean]. *)
Lemma get_best_move_refines shuffle fuel g d :
  (∀ l, shuffle l ≡ₚ l) →
  (d < fuel)%nat → wf_board g → clean (S d) g true = true →
  ∃ result,
    get_best_move_eval shuffle fuel g (Z.of_nat (S d)) WHITE = Some result
    ∧ get_best_move_exhaustive shuffle g (S d) WHITE = Some result.
Proof.
  intros Hshuffle Hfuel Hwf Hclean.
  destruct (clean_steps d fuel g true) as (moves & Hall & Hsteps); [|done|done|].
  { intros g1 Hwf1 Hclean1. by apply minimax_refines. }
  cbn [side negb] in *. rewrite <- (Hshuffle moves) in Hsteps.
  destruct (root_loop_refines _ _ _ _ _ Hsteps) as (values & Hvalues & Hloop).
  destruct (Hloop None NegInf) as (s & Hs & Hfold).
  exists (best_move s, best_value s).
  unfold get_best_move_eval, get_best_move_exhaustive.
  rewrite Hall. cbn [mbind option_bind]. change (Color_eqb WHITE WHITE) with true.
  cbv iota. cbn [negb]. rewrite Hs. cbn [mbind option_bind].
  replace (S d - 1)%nat with d by lia. rewrite Hvalues. cbn [mbind option_bind].
  by rewrite Hfold.
Qed.

(** C3. From the initial position, for White and for every depth from 1
    to 3, [get_best_move] with its alpha-beta pruning chooses the move and
    the value that exhaustive minimax chooses over the same enumeration,
    whatever the outcome of the shuffle. *)
Theorem get_best_move_exhaustive_agree shuffle fuel max_depth :
  (∀ l, shuffle l ≡ₚ l) →
  (1 <= max_depth <= 3)%nat →
  (max_depth <= fuel)%nat →
  ∃ result,
    get_best_move_eval shuffle fuel start (Z.of_nat max_depth) WHITE = Some result
    ∧ get_best_move_exhaustive shuffle start max_depth WHITE = Some result.
Proof.
  intros Hshuffle Hdepth Hfuel.
  destruct max_depth as [|[|[|[|]]]]; try lia;
    (apply get_best_move_refines;
     [done | lia | reflexivity | vm_compute; reflexivity]).
Qed.

Lemma get_best_move_exhaustive_agree_witness :
  ∃ result,
    get_best_move_eval (λ l, l) 3 start (Z.of_nat 3) WHITE = Some result
    ∧ get_best_move_exhaustive (λ l, l) start 3 WHITE = Some result.
Proof.
  apply (get_best_move_exhaustive_agree (λ l, l) 3 3).
  - intros l. reflexivity.
  - lia.
  - lia.
Defined.

(** * Further properties *)

(** ** The move generator follows the movement rules *)

Ltac split_moves :=
  repeat match goal with
    | |- Forall _ (if ?c then _ else _) => destruct c eqn:?
    | |- Forall _ (match ?c with _ => _ end) => destruct c eqn:?
    end.

Section Shape.

Variables (g : Chess3D) (pos : Position) (piece : Piece).

Lemma try_target_Forall (P : Move → Prop) new_pos ms :
  try_target g pos piece new_pos = Some ms →
  P (mkMove pos new_pos None) → Forall P ms.
Proof.
  unfold try_target. intros H HP. unravel; split_moves; repeat constructor; done.
Qed.

Lemma slide_Forall (P : Move → Prop) direction ds : ∀ ms,
  slide g pos piece direction ds = Some ms →
  Forall (fun d => P (mkMove pos
                        (mkPosition (level pos) (rank pos + fst direction * d)
                                    (file pos + snd direction * d)) None)) ds →
  Forall P ms.
Proof.
  induction ds as [|d ds IH]; intros ms H Hds; cbn [slide] in H.
  { by injection H as <-. }
  apply Forall_cons in Hds as [Hd Hds].
  unravel; split_moves; repeat constructor; try done. by apply IH.
Qed.

Lemma pawn_arrivals_Forall (P : Move → Prop) new_pos :
  (on_last_rank new_pos piece = true →
   ∀ pt, pt ∈ promotion_types → P (mkMove pos new_pos (Some pt))) →
  (on_last_rank new_pos piece = false → P (mkMove pos new_pos None)) →
  Forall P (pawn_arrivals pos new_pos piece).
Proof.
  intros Hlast Hnot. unfold pawn_arrivals.
  destruct (on_last_rank new_pos piece).
  - apply Forall_fmap, Forall_forall. intros pt Hpt. by apply Hlast.
  - apply Forall_singleton. by apply Hnot.
Qed.

Lemma unpromoted new_pos :
  type piece ≠ PAWN → promotion_rule piece (mkMove pos new_pos None).
Proof. intros Ht [? _]. done. Qed.

Lemma level_diagonals_shaped level_offset ms :
  level_diagonals g pos piece level_offset = Some ms →
  Z.abs level_offset = 1 →
  type piece = KNIGHT ∨ type piece = BISHOP ∨ type piece = QUEEN →
  Forall (well_shaped piece pos) ms.
Proof.
  intros H Hl Ht. eapply for_moves_Forall; [exact H|].
  intros [ro fo] ms' Hin Hb. eapply try_target_Forall; [exact Hb|].
  split; [done|]. split; [|apply unpromoted; by destruct Ht as [->|[->| ->]]].
  unfold geometry. cbn [to_pos level rank file].
  unfold diagonal_offsets in Hin.
  assert (Z.abs ro = 1 ∧ Z.abs fo = 1) as [??].
  { repeat (apply elem_of_cons in Hin as [[= -> ->]|Hin]; [lia|]).
    by apply elem_of_nil in Hin. }
  destruct Ht as [->|[->| ->]]; right; lia.
Qed.

Lemma level_vertical_shaped level_offset ms :
  level_vertical g pos piece level_offset = Some ms →
  Z.abs level_offset = 1 →
  type piece = ROOK →
  Forall (well_shaped piece pos) ms.
Proof.
  unfold level_vertical. intros H Hl Ht. unravel; split_moves; repeat constructor;
    try done.
  - unfold geometry. cbn [to_pos level rank file]. rewrite Ht. right. lia.
  - apply unpromoted. by rewrite Ht.
Qed.

Lemma _get_3d_moves_shaped ms :
  _get_3d_moves g pos piece = Some ms → Forall (well_shaped piece pos) ms.
Proof.
  unfold _get_3d_moves. intros H.
  destruct (PieceType_eqb (type piece) KNIGHT) eqn:Hk.
  { apply PieceType_eqb_eq in Hk. eapply for_moves_Forall; [exact H|].
    intros lo ms' Hin Hb. eapply level_diagonals_shaped; [exact Hb| |by left].
    destruct (level pos <? 2), (level pos >? 0); cbn [app] in Hin;
      repeat (apply elem_of_cons in Hin as [->|Hin]; [lia|]);
      by apply elem_of_nil in Hin. }
  destruct (PieceType_eqb (type piece) BISHOP || PieceType_eqb (type piece) QUEEN)
    eqn:Hbq.
  { assert (type piece = KNIGHT ∨ type piece = BISHOP ∨ type piece = QUEEN) as Ht.
    { apply orb_true_iff in Hbq as [?%PieceType_eqb_eq|?%PieceType_eqb_eq]; auto. }
    apply bind_Some in H as (up & Hup & H). apply bind_Some in H as (down & Hdown & H).
    injection H as <-. apply Forall_app. split.
    - destruct (level pos <? 2); [|by injection Hup as <-].
      by eapply level_diagonals_shaped.
    - destruct (level pos >? 0); [|by injection Hdown as <-].
      by eapply level_diagonals_shaped. }
  destruct (PieceType_eqb (type piece) ROOK || PieceType_eqb (type piece) QUEEN)
    eqn:Hrq; [|by injection H as <-].
  assert (type piece = ROOK) as Ht.
  { apply orb_false_iff in Hbq as [_ Hq]. rewrite Hq, orb_false_r in Hrq.
    by apply PieceType_eqb_eq. }
  apply bind_Some in H as (up & Hup & H). apply bind_Some in H as (down & Hdown & H).
  injection H as <-. apply Forall_app. split.
  - destruct (level pos <? 2); [|by injection Hup as <-].
    by eapply level_vertical_shaped.
  - destruct (level pos >? 0); [|by injection Hdown as <-].
    by eapply level_vertical_shaped.
Qed.

Lemma _get_sliding_moves_shaped directions ms :
  _get_sliding_moves g pos piece directions = Some ms →
  type piece ≠ PAWN →
  (∀ direction d, direction ∈ directions → 1 <= d <= 7 →
     geometry piece pos
       (mkMove pos (mkPosition (level pos) (rank pos + fst direction * d)
                               (file pos + snd direction * d)) None)) →
  Forall (well_shaped piece pos) ms.
Proof.
  intros H Ht Hgeo. eapply for_moves_Forall; [exact H|].
  intros direction ms' Hin Hs. eapply slide_Forall; [exact Hs|].
  apply Forall_forall. intros d Hd. split; [done|]. split; [|by apply unpromoted].
  apply Hgeo; [done|]. unfold distances in Hd.
  repeat (apply elem_of_cons in Hd as [->|Hd]; [lia|]). by apply elem_of_nil in Hd.
Qed.

Lemma _get_pawn_moves_shaped ms :
  _get_pawn_moves g pos piece = Some ms → type piece = PAWN →
  Forall (well_shaped piece pos) ms.
Proof.
  intros H Ht. unfold _get_pawn_moves in H. cbn [for_moves] in H.
  assert (∀ df, - 1 <= df <= 1 →
    Forall (well_shaped piece pos)
      (pawn_arrivals pos
         (mkPosition (level pos)
            (rank pos + (if Color_eqb (color piece) WHITE then 1 else -1))
            (file pos + df)) piece)) as Harr.
  { intros df Hdf. apply pawn_arrivals_Forall.
    - intros Hlast pt Hpt. split; [done|]. split; [|done].
      unfold geometry. cbn [to_pos level rank file]. rewrite Ht. split; [lia|].
      left. lia.
    - intros Hlast. split; [done|].
      split; [|unfold promotion_rule; cbn [promotion to_pos]; intros [_ ?]; congruence].
      unfold geometry. cbn [to_pos level rank file]. rewrite Ht. split; [lia|].
      left. lia. }
  assert (∀ r, mkPosition (level pos) r (file pos)
               = mkPosition (level pos) r (file pos + 0)) as Hzero
    by (intros; f_equal; lia).
  unravel; repeat (apply Forall_app; split); rewrite ?app_nil_r; split_moves;
    try apply Forall_nil_2; try (by apply Harr);
    try (rewrite Hzero; by apply Harr).
  all: apply Forall_singleton; (split; [done|]); split.
  all: try (unfold geometry; cbn [to_pos level rank file]; rewrite Ht;
            split; [lia|]; right;
            match goal with H : (rank pos =? _) = true |- _ => apply Z.eqb_eq in H end;
            lia).
  all: intros [_ Hlast]; unfold on_last_rank in Hlast; cbn [to_pos rank] in Hlast;
    match goal with H : (rank pos =? _) = true |- _ => apply Z.eqb_eq in H end;
    destruct (color piece); cbn [Color_eqb] in *;
    rewrite ?andb_false_r, ?andb_true_r, ?orb_false_r, ?orb_false_l in Hlast;
    apply Z.eqb_eq in Hlast; lia.
Qed.

End Shape.

Lemma get_valid_moves_shaped g pos piece moves :
  get_piece g pos = Some (Some piece) →
  get_valid_moves g pos = Some moves →
  Forall (well_shaped piece pos) moves.
Proof.
  intros Hp H. unfold get_valid_moves in H. rewrite Hp in H.
  cbn [mbind option_bind] in H.
  apply bind_Some in H as (ms & Hms & H). apply bind_Some in H as (m3 & H3 & H).
  injection H as <-. apply Forall_app. split; [|by eapply _get_3d_moves_shaped].
  destruct (type piece) eqn:Ht.
  - by apply (_get_pawn_moves_shaped g).
  - eapply for_moves_Forall; [exact Hms|]. intros [ro fo] ms' Hin Hb.
    eapply try_target_Forall; [exact Hb|]. split; [done|].
    split; [|apply unpromoted; by rewrite Ht].
    unfold geometry. cbn [to_pos level rank file]. rewrite Ht. left.
    unfold knight_offsets in Hin.
    repeat (apply elem_of_cons in Hin as [[= -> ->]|Hin]; [lia|]).
    by apply elem_of_nil in Hin.
  - eapply _get_sliding_moves_shaped; [exact Hms | by rewrite Ht |].
    intros direction d Hin Hd. unfold geometry. cbn [to_pos level rank file].
    rewrite Ht. left. unfold bishop_directions in Hin.
    repeat (apply elem_of_cons in Hin as [->|Hin]; [cbn [fst snd]; lia|]).
    by apply elem_of_nil in Hin.
  - eapply _get_sliding_moves_shaped; [exact Hms | by rewrite Ht |].
    intros direction d Hin Hd. unfold geometry. cbn [to_pos level rank file].
    rewrite Ht. left. unfold rook_directions in Hin.
    repeat (apply elem_of_cons in Hin as [->|Hin]; [cbn [fst snd]; lia|]).
    by apply elem_of_nil in Hin.
  - eapply _get_sliding_moves_shaped; [exact Hms | by rewrite Ht |].
    intros direction d Hin Hd. unfold geometry. cbn [to_pos level rank file].
    rewrite Ht. left. unfold queen_directions in Hin.
    repeat (apply elem_of_cons in Hin as [->|Hin]; [cbn [fst snd]; lia|]).
    by apply elem_of_nil in Hin.
  - eapply for_moves_Forall; [exact Hms|]. intros direction ms' Hin Hb.
    eapply try_target_Forall; [exact Hb|]. split; [done|].
    split; [|apply unpromoted; by rewrite Ht].
    unfold geometry. cbn [to_pos level rank file]. rewrite Ht.
    unfold queen_directions in Hin.
    repeat (apply elem_of_cons in Hin as [->|Hin]; [cbn [fst snd]; lia|]).
    by apply elem_of_nil in Hin.
Qed.

(** X1. Every move that [get_valid_moves] returns for the piece on [pos]
    follows the movement rule of that piece: the usual step within the
    level, a one-cell diagonal step onto an adjacent level for knights,
    bishops and queens, a step straight up or down for rooks, and no
    change of level for pawns and kings. *)
Theorem get_valid_moves_geometry g pos piece moves move :
  get_piece g pos = Some (Some piece) →
  get_valid_moves g pos = Some moves →
  move ∈ moves →
  from_pos move = pos ∧ geometry piece pos move.
Proof.
  intros Hp Hm Hin.
  pose proof (get_valid_moves_shaped _ _ _ _ Hp Hm) as Hs.
  rewrite Forall_forall in Hs. destruct (Hs move Hin) as (Hfrom & Hgeo & _).
  by split.
Qed.

Lemma get_valid_moves_geometry_witness :
  from_pos (mkMove (mkPosition 0 0 1) (mkPosition 1 1 2) None) = mkPosition 0 0 1
  ∧ geometry (mkPiece KNIGHT WHITE) (mkPosition 0 0 1)
      (mkMove (mkPosition 0 0 1) (mkPosition 1 1 2) None).
Proof.
  eapply (get_valid_moves_geometry start (mkPosition 0 0 1) (mkPiece KNIGHT WHITE)).
  - reflexivity.
  - vm_compute. reflexivity.
  - apply Move_in_elem. vm_compute. reflexivity.
Defined.

(** X2. A generated move carries a promotion exactly when it brings a pawn
    to its last rank, and the promotion is then a queen, a rook, a bishop
    or a knight. *)
Theorem get_valid_moves_promotion g pos piece moves move :
  get_piece g pos = Some (Some piece) →
  get_valid_moves g pos = Some moves →
  move ∈ moves →
  (is_Some (promotion move)
   ↔ type piece = PAWN ∧ on_last_rank (to_pos move) piece = true)
  ∧ ∀ pt, promotion move = Some pt → pt ∈ [QUEEN; ROOK; BISHOP; KNIGHT].
Proof.
  intros Hp Hm Hin.
  pose proof (get_valid_moves_shaped _ _ _ _ Hp Hm) as Hs.
  rewrite Forall_forall in Hs. destruct (Hs move Hin) as (_ & _ & Hpromo).
  unfold promotion_rule in Hpromo. destruct (promotion move) as [pt|].
  - destruct Hpromo as (Ht & Hlast & Hpt). split.
    + split; [by intros _ | by eexists].
    + by intros ? [= <-].
  - split; [|done]. split; [by intros [? ?] | by intros ?].
Qed.

Lemma get_valid_moves_promotion_witness :
  (is_Some (promotion (mkMove (mkPosition 0 6 0) (mkPosition 0 7 0) (Some ROOK)))
   ↔ type (mkPiece PAWN WHITE) = PAWN
     ∧ on_last_rank (to_pos (mkMove (mkPosition 0 6 0) (mkPosition 0 7 0) (Some ROOK)))
         (mkPiece PAWN WHITE) = true)
  ∧ ∀ pt, promotion (mkMove (mkPosition 0 6 0) (mkPosition 0 7 0) (Some ROOK)) = Some pt →
          pt ∈ [QUEEN; ROOK; BISHOP; KNIGHT].
Proof.
  eapply (get_valid_moves_promotion pawn_on_seventh (mkPosition 0 6 0)).
  - reflexivity.
  - vm_compute. reflexivity.
  - apply Move_in_elem. vm_compute. reflexivity.
Defined.

(** X3. On every board a queen is never offered a move that keeps her rank
    and her file: the step straight up or down of the specification is
    missing for queens wherever they stand. *)
Theorem queen_never_moves_vertically g pos piece moves move :
  get_piece g pos = Some (Some piece) →
  type piece = QUEEN →
  get_valid_moves g pos = Some moves →
  move ∈ moves →
  rank (to_pos move) ≠ rank pos ∨ file (to_pos move) ≠ file pos.
Proof.
  intros Hp Ht Hm Hin.
  pose proof (get_valid_moves_shaped _ _ _ _ Hp Hm) as Hs.
  rewrite Forall_forall in Hs. destruct (Hs move Hin) as (_ & Hgeo & _).
  unfold geometry in Hgeo. rewrite Ht in Hgeo. lia.
Qed.

Lemma queen_never_moves_vertically_witness :
  rank (to_pos (mkMove (mkPosition 0 0 3) (mkPosition 1 1 4) None))
    ≠ rank (mkPosition 0 0 3)
  ∨ file (to_pos (mkMove (mkPosition 0 0 3) (mkPosition 1 1 4) None))
    ≠ file (mkPosition 0 0 3).
Proof.
  eapply (queen_never_moves_vertically start (mkPosition 0 0 3) (mkPiece QUEEN WHITE)).
  - reflexivity.
  - reflexivity.
  - vm_compute. reflexivity.
  - apply Move_in_elem. vm_compute. reflexivity.
Defined.

(** X4. A rook is offered the step to the same rank and file of an
    adjacent level exactly when the cell there is empty or holds a piece
    of the other colour. *)
Theorem rook_vertical_moves g pos piece moves level_offset target :
  get_piece g pos = Some (Some piece) →
  type piece = ROOK →
  get_valid_moves g pos = Some moves →
  (level_offset = 1 ∧ level pos < 2) ∨ (level_offset = -1 ∧ level pos > 0) →
  get_piece g (mkPosition (level pos + level_offset) (rank pos) (file pos))
    = Some target →
  mkMove pos (mkPosition (level pos + level_offset) (rank pos) (file pos)) None
    ∈ moves
  ↔ empty_or_enemy target piece = true.
Proof.
  intros Hp Ht Hm Hoff Htarget.
  unfold get_valid_moves in Hm. rewrite Hp in Hm. cbn [mbind option_bind] in Hm.
  apply bind_Some in Hm as (ms & Hms & Hm).
  apply bind_Some in Hm as (m3 & H3 & Hm). injection Hm as <-.
  rewrite Ht in Hms.
  assert (Forall (fun m => level (to_pos m) = level pos) ms) as Hlevel.
  { eapply for_moves_Forall; [exact Hms|]. intros direction ms' _ Hs.
    eapply slide_Forall; [exact Hs|]. by apply Forall_forall. }
  rewrite Forall_forall in Hlevel.
  unfold _get_3d_moves in H3. rewrite Ht in H3. cbn [PieceType_eqb orb] in H3.
  apply bind_Some in H3 as (up & Hup & H3).
  apply bind_Some in H3 as (down & Hdown & H3). injection H3 as <-.
  rewrite !elem_of_app. split.
  - intros [Hin|[Hin|Hin]].
    + apply Hlevel in Hin. cbn [to_pos level] in Hin. lia.
    + destruct (level pos <? 2); [|injection Hup as <-; by apply elem_of_nil in Hin].
      unfold level_vertical in Hup. apply bind_Some in Hup as (t & Hget & Hup).
      injection Hup as <-. destruct (empty_or_enemy t piece) eqn:He;
        [|by apply elem_of_nil in Hin].
      apply list_elem_of_singleton in Hin. injection Hin as Hl.
      assert (level_offset = 1) as -> by lia. congruence.
    + destruct (level pos >? 0); [|injection Hdown as <-; by apply elem_of_nil in Hin].
      unfold level_vertical in Hdown. apply bind_Some in Hdown as (t & Hget & Hdown).
      injection Hdown as <-. destruct (empty_or_enemy t piece) eqn:He;
        [|by apply elem_of_nil in Hin].
      apply list_elem_of_singleton in Hin. injection Hin as Hl.
      assert (level_offset = -1) as -> by lia. congruence.
  - intros He. right. destruct Hoff as [[-> Hl]|[-> Hl]].
    + left. apply Z.ltb_lt in Hl. rewrite Hl in Hup.
      unfold level_vertical in Hup. rewrite Htarget in Hup.
      cbn [mbind option_bind] in Hup. rewrite He in Hup. injection Hup as <-. left.
    + right. apply Z.gt_lt, Z.gtb_lt in Hl. rewrite Hl in Hdown.
      unfold level_vertical in Hdown. rewrite Htarget in Hdown.
      cbn [mbind option_bind] in Hdown. rewrite He in Hdown. injection Hdown as <-.
      left.
Qed.

Lemma rook_vertical_moves_witness :
  mkMove (mkPosition 0 0 0) (mkPosition (0 + 1) 0 0) None
    ∈ [mkMove (mkPosition 0 0 0) (mkPosition 1 0 0) None]
  ↔ empty_or_enemy None (mkPiece ROOK WHITE) = true.
Proof.
  apply (rook_vertical_moves start (mkPosition 0 0 0) (mkPiece ROOK WHITE)
           [mkMove (mkPosition 0 0 0) (mkPosition 1 0 0) None] 1 None).
  - reflexivity.
  - reflexivity.
  - vm_compute. reflexivity.
  - left. cbn. lia.
  - reflexivity.
Defined.

(** ** Sliding moves *)

Lemma for_moves_elem {A} (xs : list A) body : ∀ l m,
  for_moves xs body = Some l →
  m ∈ l ↔ ∃ x ms, x ∈ xs ∧ body x = Some ms ∧ m ∈ ms.
Proof.
  induction xs as [|x xs IH]; intros l m H; cbn [for_moves] in H.
  { injection H as <-. split; [by intros ?%elem_of_nil|].
    by intros (? & ? & ?%elem_of_nil & _). }
  apply bind_Some in H as (ms & Hms & H). apply bind_Some in H as (rest & Hrest & H).
  injection H as <-. rewrite elem_of_app, (IH rest m Hrest). split.
  - intros [Hin|(y & ms' & Hy & Hb & Hin)].
    + exists x, ms. split; [left|done].
    + exists y, ms'. split; [by right|done].
  - intros (y & ms' & Hy & Hb & Hin). apply elem_of_cons in Hy as [->|Hy].
    + left. congruence.
    + right. by exists y, ms'.
Qed.

Lemma for_moves_body {A} (xs : list A) body l x :
  for_moves xs body = Some l → x ∈ xs → is_Some (body x).
Proof.
  revert l. induction xs as [|y xs IH]; intros l H Hx; cbn [for_moves] in H.
  { by apply elem_of_nil in Hx. }
  apply bind_Some in H as (ms & Hms & H). apply bind_Some in H as (rest & Hrest & H).
  apply elem_of_cons in Hx as [->|Hx]; [eauto|]. by eapply IH.
Qed.

(** What one direction of [_get_sliding_moves] returns: the walk goes on
    over empty cells and ends with the first cell that is off the board or
    occupied, which is kept when it holds a piece of the other colour. *)
Lemma slide_elem g pos piece direction ds : ∀ ms m,
  slide g pos piece direction ds = Some ms →
  m ∈ ms ↔
  ∃ k d, ds !! k = Some d
         ∧ m = mkMove pos (along pos direction d) None
         ∧ (∀ j d', (j < k)%nat → ds !! j = Some d' →
              is_valid_position (along pos direction d') = true
              ∧ get_piece g (along pos direction d') = Some None)
         ∧ is_valid_position (along pos direction d) = true
         ∧ ∃ target, get_piece g (along pos direction d) = Some target
                     ∧ empty_or_enemy target piece = true.
Proof.
  induction ds as [|d ds IH]; intros ms m H; cbn [slide] in H.
  { injection H as <-. split; [by intros ?%elem_of_nil|].
    by intros (k & d & Hk & _). }
  fold (along pos direction d) in H.
  destruct (is_valid_position (along pos direction d)) eqn:Hv; cbn [negb] in H.
  2:{ injection H as <-. split; [by intros ?%elem_of_nil|].
      intros ([|k] & d' & Hk & _ & Hbefore & Hv' & _).
      - injection Hk as <-. congruence.
      - destruct (Hbefore 0%nat d) as [? _]; [lia | done | congruence]. }
  apply bind_Some in H as (target & Ht & H). destruct target as [t|].
  - assert (∀ k d', (d :: ds) !! S k = Some d' →
        (∀ j d'', (j < S k)%nat → (d :: ds) !! j = Some d'' →
           is_valid_position (along pos direction d'') = true
           ∧ get_piece g (along pos direction d'') = Some None) → False) as Hstop.
    { intros k d' _ Hbefore. destruct (Hbefore 0%nat d) as [_ ?]; [lia|done|].
      congruence. }
    destruct (negb (Color_eqb (color t) (color piece))) eqn:He; injection H as <-.
    + rewrite list_elem_of_singleton. split.
      * intros ->. exists 0%nat, d. split; [done|]. split; [done|].
        split; [intros ??; lia|]. split; [done|]. by exists (Some t).
      * intros ([|k] & d' & Hk & -> & Hbefore & _); [by injection Hk as <-|].
        by destruct (Hstop k d').
    + split; [by intros ?%elem_of_nil|].
      intros ([|k] & d' & Hk & -> & Hbefore & _ & t' & Ht' & He').
      * injection Hk as <-. rewrite Ht in Ht'. injection Ht' as <-.
        cbn [empty_or_enemy] in He'. congruence.
      * by destruct (Hstop k d').
  - apply bind_Some in H as (rest & Hrest & H). injection H as <-.
    rewrite elem_of_cons, (IH rest m Hrest). split.
    + intros [->|(k & d' & Hk & -> & Hbefore & Hv' & Htarget)].
      * exists 0%nat, d. split; [done|]. split; [done|].
        split; [intros ??; lia|]. split; [done|]. by exists None.
      * exists (S k), d'. split; [done|]. split; [done|]. split; [|done].
        intros [|j] d'' Hj Hd''.
        -- injection Hd'' as <-. done.
        -- apply (Hbefore j); [lia|done].
    + intros ([|k] & d' & Hk & -> & Hbefore & Hv' & Htarget).
      * injection Hk as <-. by left.
      * right. exists k, d'. split; [done|]. split; [done|]. split; [|done].
        intros j d'' Hj Hd''. apply (Hbefore (S j)); [lia|done].
Qed.

Lemma distances_lookup j d :
  distances !! j = Some d ↔ d = Z.of_nat j + 1 ∧ (j < 7)%nat.
Proof.
  unfold distances. do 7 (destruct j as [|j]; [cbn; split; [intros [= <-]; lia | intros [-> _]; done]|]).
  cbn. split; [done | lia].
Qed.

(** The moves of one direction, by the number of steps. *)
Lemma slide_distances g pos piece direction ms k :
  slide g pos piece direction distances = Some ms →
  fst direction ≠ 0 ∨ snd direction ≠ 0 →
  1 <= k <= 7 →
  mkMove pos (along pos direction k) None ∈ ms ↔ clear_path g pos piece direction k.
Proof.
  intros Hs Hdir Hk. rewrite (slide_elem _ _ _ _ _ _ _ Hs). unfold clear_path. split.
  - intros (i & d & Hi & Hm & Hbefore & Hv & Ht).
    apply distances_lookup in Hi as [-> Hi].
    assert (Z.of_nat i + 1 = k) as Hik.
    { unfold along in Hm. injection Hm as H1 H2. nia. }
    rewrite Hik in Hv, Ht. split; [|done]. intros j Hj.
    apply (Hbefore (Z.to_nat (j - 1)) j); [lia|]. apply distances_lookup. lia.
  - intros (Hbefore & Hv & Ht). exists (Z.to_nat (k - 1)), k.
    split; [apply distances_lookup; lia|]. split; [done|]. split; [|done].
    intros j d Hj [-> _]%distances_lookup. apply Hbefore. lia.
Qed.

Lemma _get_3d_moves_level g pos piece ms :
  _get_3d_moves g pos piece = Some ms →
  Forall (fun m => level (to_pos m) ≠ level pos) ms.
Proof.
  assert (∀ lo ms', level_diagonals g pos piece lo = Some ms' → lo ≠ 0 →
            Forall (fun m => level (to_pos m) ≠ level pos) ms') as Hdiag.
  { intros lo ms' H Hlo. eapply for_moves_Forall; [exact H|].
    intros [ro fo] ms'' _ Hb. eapply try_target_Forall; [exact Hb|].
    cbn [to_pos level]. lia. }
  assert (∀ lo ms', level_vertical g pos piece lo = Some ms' → lo ≠ 0 →
            Forall (fun m => level (to_pos m) ≠ level pos) ms') as Hvert.
  { unfold level_vertical. intros lo ms' H Hlo. apply bind_Some in H as (t & _ & H).
    injection H as <-. destruct (empty_or_enemy t piece); repeat constructor.
    cbn [to_pos level]. lia. }
  unfold _get_3d_moves. intros H.
  destruct (PieceType_eqb (type piece) KNIGHT).
  { eapply for_moves_Forall; [exact H|]. intros lo ms' Hin Hb.
    eapply Hdiag; [exact Hb|].
    destruct (level pos <? 2), (level pos >? 0); cbn [app] in Hin;
      repeat (apply elem_of_cons in Hin as [->|Hin]; [lia|]);
      by apply elem_of_nil in Hin. }
  destruct (PieceType_eqb (type piece) BISHOP || PieceType_eqb (type piece) QUEEN).
  { apply bind_Some in H as (up & Hup & H). apply bind_Some in H as (down & Hdown & H).
    injection H as <-. apply Forall_app. split.
    - destruct (level pos <? 2); [|by injection Hup as <-]. by eapply Hdiag.
    - destruct (level pos >? 0); [|by injection Hdown as <-]. by eapply Hdiag. }
  destruct (PieceType_eqb (type piece) ROOK || PieceType_eqb (type piece) QUEEN);
    [|by injection H as <-].
  apply bind_Some in H as (up & Hup & H). apply bind_Some in H as (down & Hdown & H).
  injection H as <-. apply Forall_app. split.
  - destruct (level pos <? 2); [|by injection Hup as <-]. by eapply Hvert.
  - destruct (level pos >? 0); [|by injection Hdown as <-]. by eapply Hvert.
Qed.

Lemma directions_of_unit t direction :
  direction ∈ directions_of t →
  - 1 <= fst direction <= 1 ∧ - 1 <= snd direction <= 1
  ∧ (fst direction ≠ 0 ∨ snd direction ≠ 0).
Proof.
  intros Hin. destruct t; cbn [directions_of] in Hin;
    try (by apply elem_of_nil in Hin);
    unfold bishop_directions, rook_directions, queen_directions in Hin;
    repeat (apply elem_of_cons in Hin as [->|Hin]; [cbn [fst snd]; lia|]);
    by apply elem_of_nil in Hin.
Qed.

(** X5. Within its level a bishop, a rook or a queen is offered the [k]-th
    cell of one of its directions exactly when the cells before it are on
    the board and empty and the cell itself is on the board and empty or
    held by a piece of the other colour. *)
Theorem sliding_moves_exact g pos piece moves direction k :
  get_piece g pos = Some (Some piece) →
  get_valid_moves g pos = Some moves →
  direction ∈ directions_of (type piece) →
  1 <= k <= 7 →
  mkMove pos (along pos direction k) None ∈ moves
  ↔ clear_path g pos piece direction k.
Proof.
  intros Hp Hm Hdir Hk.
  destruct (directions_of_unit _ _ Hdir) as (Hf & Hs & Hne).
  unfold get_valid_moves in Hm. rewrite Hp in Hm. cbn [mbind option_bind] in Hm.
  apply bind_Some in Hm as (ms & Hms & Hm).
  apply bind_Some in Hm as (m3 & H3 & Hm). injection Hm as <-.
  assert (_get_sliding_moves g pos piece (directions_of (type piece)) = Some ms)
    as Hsl.
  { destruct (type piece); try (by apply elem_of_nil in Hdir); exact Hms. }
  clear Hms. unfold _get_sliding_moves in Hsl.
  pose proof (_get_3d_moves_level _ _ _ _ H3) as Hlevel.
  rewrite Forall_forall in Hlevel.
  rewrite elem_of_app, (for_moves_elem _ _ _ _ Hsl). split.
  - intros [(direction' & ms' & Hdir' & Hs' & Hin)|Hin].
    + destruct (directions_of_unit _ _ Hdir') as (Hf' & Hs'' & Hne').
      pose proof Hin as Hin'.
      apply (slide_elem _ _ _ _ _ _ _ Hs') in Hin'
        as (i & d & Hi & Heq & _).
      apply distances_lookup in Hi as [-> Hi].
      assert (direction' = direction) as ->.
      { unfold along in Heq. injection Heq as H1 H2.
        destruct direction as [a b], direction' as [a' b']. cbn [fst snd] in *.
        f_equal; nia. }
      by apply (proj1 (slide_distances _ _ _ _ _ _ Hs' Hne Hk)).
    + apply Hlevel in Hin. by cbn [to_pos along level] in Hin.
  - intros Hclear. left.
    destruct (for_moves_body _ _ _ _ Hsl Hdir) as [ms' Hs'].
    exists direction, ms'. split; [done|]. split; [done|].
    by apply (slide_distances _ _ _ _ _ _ Hs' Hne Hk).
Qed.

Lemma sliding_moves_exact_witness :
  mkMove (mkPosition 0 3 3) (along (mkPosition 0 3 3) (0, 1) 4) None
    ∈ [ mkMove (mkPosition 0 3 3) (mkPosition 0 3 4) None;
        mkMove (mkPosition 0 3 3) (mkPosition 0 3 5) None;
        mkMove (mkPosition 0 3 3) (mkPosition 0 3 6) None;
        mkMove (mkPosition 0 3 3) (mkPosition 0 3 7) None;
        mkMove (mkPosition 0 3 3) (mkPosition 0 4 3) None;
        mkMove (mkPosition 0 3 3) (mkPosition 0 3 2) None;
        mkMove (mkPosition 0 3 3) (mkPosition 0 3 1) None;
        mkMove (mkPosition 0 3 3) (mkPosition 0 3 0) None;
        mkMove (mkPosition 0 3 3) (mkPosition 0 2 3) None;
        mkMove (mkPosition 0 3 3) (mkPosition 1 3 3) None ]
  ↔ clear_path rook_between_pawns (mkPosition 0 3 3) (mkPiece ROOK WHITE) (0, 1) 4.
Proof.
  apply (sliding_moves_exact rook_between_pawns (mkPosition 0 3 3)
           (mkPiece ROOK WHITE)).
  - reflexivity.
  - vm_compute. reflexivity.
  - apply list_elem_of_In. cbn. auto.
  - lia.
Defined.


(** ** Steps of knights, kings and pawns *)

Lemma try_target_elem g pos piece new_pos ms m :
  try_target g pos piece new_pos = Some ms →
  m ∈ ms ↔ m = mkMove pos new_pos None
           ∧ is_valid_position new_pos = true
           ∧ ∃ target, get_piece g new_pos = Some target
                       ∧ empty_or_enemy target piece = true.
Proof.
  unfold try_target. intros H.
  destruct (is_valid_position new_pos) eqn:Hv.
  - apply bind_Some in H as (target & Ht & H). injection H as <-.
    destruct (empty_or_enemy target piece) eqn:He.
    + rewrite list_elem_of_singleton. split; [|by intros [? _]].
      intros ->. split; [done|]. split; [done|]. by exists target.
    + split; [by intros ?%elem_of_nil|].
      intros (_ & _ & t & Ht' & He'). congruence.
  - injection H as <-. split; [by intros ?%elem_of_nil|]. by intros (_ & ? & _).
Qed.

(** X6. Within its level a knight is offered each of its eight leaps, and
    a king each of its eight steps, exactly when the cell is on the board
    and empty or held by a piece of the other colour. *)
Theorem stepping_moves_exact g pos piece moves offset :
  get_piece g pos = Some (Some piece) →
  get_valid_moves g pos = Some moves →
  (type piece = KNIGHT ∧ offset ∈ knight_offsets)
  ∨ (type piece = KING ∧ offset ∈ queen_directions) →
  let new_pos :=
    mkPosition (level pos) (rank pos + fst offset) (file pos + snd offset) in
  mkMove pos new_pos None ∈ moves
  ↔ is_valid_position new_pos = true
    ∧ ∃ target, get_piece g new_pos = Some target
                ∧ empty_or_enemy target piece = true.
Proof.
  intros Hp Hm Hoff new_pos.
  unfold get_valid_moves in Hm. rewrite Hp in Hm. cbn [mbind option_bind] in Hm.
  apply bind_Some in Hm as (ms & Hms & Hm).
  apply bind_Some in Hm as (m3 & H3 & Hm). injection Hm as <-.
  pose proof (_get_3d_moves_level _ _ _ _ H3) as Hlevel.
  rewrite Forall_forall in Hlevel.
  assert (∃ offsets,
    offset ∈ offsets
    ∧ for_moves offsets (fun o =>
        try_target g pos piece
          (mkPosition (level pos) (rank pos + fst o) (file pos + snd o))) = Some ms)
    as (offsets & Hin & Hfor).
  { destruct Hoff as [[Ht Hin]|[Ht Hin]]; rewrite Ht in Hms.
    - exists knight_offsets. split; [done|]. rewrite <- Hms.
      unfold _get_knight_moves. f_equal.
    - exists queen_directions. by split. }
  rewrite elem_of_app, (for_moves_elem _ _ _ _ Hfor). split.
  - intros [(o & ms' & Ho & Hb & Hmem)|Hmem].
    + apply (try_target_elem _ _ _ _ _ _ Hb) in Hmem as (Heq & Hv & Ht).
      injection Heq as Hr Hf. fold new_pos in Hv, Ht.
      assert (mkPosition (level pos) (rank pos + fst o) (file pos + snd o) = new_pos)
        as Hsame by (unfold new_pos; f_equal; lia).
      by rewrite Hsame in Hv, Ht.
    + apply Hlevel in Hmem. by cbn [to_pos level] in Hmem.
  - intros [Hv Ht]. left.
    destruct (for_moves_body _ _ _ _ Hfor Hin) as [ms' Hb].
    exists offset, ms'. split; [done|]. split; [done|].
    by apply (try_target_elem _ _ _ _ _ _ Hb).
Qed.

Lemma stepping_moves_exact_witness :
  mkMove (mkPosition 0 0 1)
         (mkPosition (level (mkPosition 0 0 1)) (rank (mkPosition 0 0 1) + fst (2, 1))
                     (file (mkPosition 0 0 1) + snd (2, 1))) None
    ∈ [ mkMove (mkPosition 0 0 1) (mkPosition 0 2 2) None;
        mkMove (mkPosition 0 0 1) (mkPosition 0 2 0) None;
        mkMove (mkPosition 0 0 1) (mkPosition 1 1 2) None;
        mkMove (mkPosition 0 0 1) (mkPosition 1 1 0) None ]
  ↔ is_valid_position
      (mkPosition (level (mkPosition 0 0 1)) (rank (mkPosition 0 0 1) + fst (2, 1))
                  (file (mkPosition 0 0 1) + snd (2, 1))) = true
    ∧ ∃ target,
        get_piece start
          (mkPosition (level (mkPosition 0 0 1)) (rank (mkPosition 0 0 1) + fst (2, 1))
                      (file (mkPosition 0 0 1) + snd (2, 1))) = Some target
        ∧ empty_or_enemy target (mkPiece KNIGHT WHITE) = true.
Proof.
  apply (stepping_moves_exact start (mkPosition 0 0 1) (mkPiece KNIGHT WHITE)).
  - reflexivity.
  - vm_compute. reflexivity.
  - left. split; [reflexivity|]. left.
Defined.

Lemma pawn_arrivals_destination pos new_pos piece x :
  x ∈ to_pos <$> pawn_arrivals pos new_pos piece ↔ x = new_pos.
Proof.
  unfold pawn_arrivals, promotion_types.
  destruct (on_last_rank new_pos piece); cbn [fmap list_fmap map to_pos];
    rewrite ?elem_of_cons, elem_of_nil; tauto.
Qed.

Lemma is_enemy_spec target piece :
  is_enemy target piece = true
  ↔ ∃ t, target = Some t ∧ color t ≠ color piece.
Proof.
  destruct target as [t|]; cbn [is_enemy].
  - rewrite negb_true_iff. split.
    + intros H. exists t. split; [done|]. intros Hc%Color_eqb_eq. congruence.
    + intros (t' & [= <-] & Hne). destruct (Color_eqb (color t) (color piece)) eqn:E;
        [|done]. by apply Color_eqb_eq in E.
  - split; [done | by intros (? & ? & _)].
Qed.

(** X7. The cells that a pawn is offered: the cell ahead when it is on
    the board and empty; the second cell ahead, from the starting rank,
    when both cells are on the board and empty; and each of the two cells
    diagonally ahead when it is on the board and holds a piece of the
    other colour. *)
Theorem pawn_destinations g pos piece moves new_pos :
  get_piece g pos = Some (Some piece) →
  type piece = PAWN →
  get_valid_moves g pos = Some moves →
  let direction := if Color_eqb (color piece) WHITE then 1 else -1 in
  let start_rank := if Color_eqb (color piece) WHITE then 1 else 6 in
  let ahead := mkPosition (level pos) (rank pos + direction) (file pos) in
  let ahead2 := mkPosition (level pos) (rank pos + 2 * direction) (file pos) in
  new_pos ∈ to_pos <$> moves
  ↔ (new_pos = ahead ∧ is_valid_position ahead = true
     ∧ get_piece g ahead = Some None)
    ∨ (new_pos = ahead2 ∧ rank pos = start_rank
       ∧ is_valid_position ahead = true ∧ get_piece g ahead = Some None
       ∧ is_valid_position ahead2 = true ∧ get_piece g ahead2 = Some None)
    ∨ (∃ file_offset,
         (file_offset = -1 ∨ file_offset = 1)
         ∧ new_pos = mkPosition (level pos) (rank pos + direction)
                                (file pos + file_offset)
         ∧ is_valid_position new_pos = true
         ∧ ∃ t, get_piece g new_pos = Some (Some t) ∧ color t ≠ color piece).
Proof.
  intros Hp Ht Hm direction start_rank ahead ahead2.
  unfold get_valid_moves in Hm. rewrite Hp in Hm. cbn [mbind option_bind] in Hm.
  rewrite Ht in Hm. unfold _get_3d_moves in Hm. rewrite Ht in Hm.
  cbn [PieceType_eqb orb] in Hm.
  apply bind_Some in Hm as (ms & Hms & Hm). cbn [mbind option_bind] in Hm.
  injection Hm as <-. rewrite app_nil_r.
  unfold _get_pawn_moves in Hms. cbn [for_moves] in Hms.
  fold direction start_rank ahead ahead2 in Hms.
  apply bind_Some in Hms as (forward & Hfw & Hms).
  apply bind_Some in Hms as (captures & Hcap & Hms). injection Hms as <-.
  apply bind_Some in Hcap as (left_moves & Hleft & Hcap).
  apply bind_Some in Hcap as (rest & Hrest & Hcap). injection Hcap as <-.
  apply bind_Some in Hrest as (right_moves & Hright & Hrest).
  cbn [mbind option_bind] in Hrest. injection Hrest as <-. rewrite app_nil_r.
  assert (∀ file_offset (ms' : list Move),
    (if is_valid_position
          (mkPosition (level pos) (rank pos + direction) (file pos + file_offset))
     then
       target ← get_piece g
         (mkPosition (level pos) (rank pos + direction) (file pos + file_offset));
       Some (if is_enemy target piece
             then pawn_arrivals pos
                    (mkPosition (level pos) (rank pos + direction)
                                (file pos + file_offset)) piece
             else [])
     else Some []) = Some ms' →
    new_pos ∈ to_pos <$> ms'
    ↔ new_pos = mkPosition (level pos) (rank pos + direction) (file pos + file_offset)
      ∧ is_valid_position new_pos = true
      ∧ ∃ t, get_piece g new_pos = Some (Some t) ∧ color t ≠ color piece) as Hcapture.
  { intros fo ms' H.
    destruct (is_valid_position _) eqn:Hv in H.
    - apply bind_Some in H as (target & Hget & H). injection H as <-.
      destruct (is_enemy target piece) eqn:He.
      + rewrite pawn_arrivals_destination. split; [|by intros [? _]].
        intros ->. split; [done|]. split; [done|].
        apply is_enemy_spec in He as (t & -> & Hne). by exists t.
      + split; [by intros ?%elem_of_nil|]. intros (-> & _ & t & Hget' & Hne).
        assert (is_enemy target piece = true); [|congruence].
        apply is_enemy_spec. exists t. split; [congruence | done].
    - injection H as <-. split; [by intros ?%elem_of_nil|].
      intros (-> & ? & _). congruence. }
  assert (new_pos ∈ to_pos <$> forward
          ↔ (new_pos = ahead ∧ is_valid_position ahead = true
             ∧ get_piece g ahead = Some None)
            ∨ (new_pos = ahead2 ∧ rank pos = start_rank
               ∧ is_valid_position ahead = true ∧ get_piece g ahead = Some None
               ∧ is_valid_position ahead2 = true ∧ get_piece g ahead2 = Some None))
    as Hforward.
  { assert (ahead ≠ ahead2) as Hdiff.
    { unfold ahead, ahead2, direction. intros [= H].
      destruct (Color_eqb (color piece) WHITE); lia. }
    destruct (is_valid_position ahead) eqn:Hv.
    2:{ injection Hfw as <-. split; [by intros ?%elem_of_nil|].
        intros [(_ & ? & _)|(_ & _ & ? & _)]; congruence. }
    apply bind_Some in Hfw as (target & Hget & Hfw). destruct target as [t|].
    { injection Hfw as <-. split; [by intros ?%elem_of_nil|].
      intros [(_ & _ & ?)|(_ & _ & _ & ? & _)]; congruence. }
    apply bind_Some in Hfw as (double & Hdouble & Hfw). injection Hfw as <-.
    rewrite fmap_app, elem_of_app, pawn_arrivals_destination.
    assert (new_pos ∈ to_pos <$> double
            ↔ new_pos = ahead2 ∧ rank pos = start_rank
              ∧ is_valid_position ahead2 = true ∧ get_piece g ahead2 = Some None)
      as ->.
    { destruct (rank pos =? start_rank) eqn:Hr.
      2:{ injection Hdouble as <-. split; [by intros ?%elem_of_nil|].
          intros (_ & Hr' & _). apply Z.eqb_neq in Hr. done. }
      apply Z.eqb_eq in Hr. destruct (is_valid_position ahead2) eqn:Hv2.
      2:{ injection Hdouble as <-. split; [by intros ?%elem_of_nil|].
          by intros (_ & _ & ? & _). }
      apply bind_Some in Hdouble as (target2 & Hget2 & Hdouble).
      injection Hdouble as <-. destruct target2 as [t2|].
      - split; [by intros ?%elem_of_nil|]. intros (_ & _ & _ & ?). congruence.
      - cbn [fmap list_fmap to_pos]. rewrite list_elem_of_singleton. tauto. }
    tauto. }
  rewrite !fmap_app, !elem_of_app, Hforward.
  rewrite (Hcapture (-1) left_moves Hleft), (Hcapture 1 right_moves Hright).
  split.
  - intros [[H|H]|[H|H]]; [by left | right; by left | right; right..].
    + exists (-1). split; [by left | done].
    + exists 1. split; [by right | done].
  - intros [H|[H|(fo & [-> | ->] & H)]]; [left; by left | left; by right | right..].
    + by left.
    + by right.
Qed.

Lemma pawn_destinations_witness :
  mkPosition 0 3 4 ∈ to_pos <$> [ mkMove (mkPosition 0 1 4) (mkPosition 0 2 4) None;
                                 mkMove (mkPosition 0 1 4) (mkPosition 0 3 4) None ]
  ↔ (mkPosition 0 3 4 = mkPosition 0 (1 + 1) 4
     ∧ is_valid_position (mkPosition 0 (1 + 1) 4) = true
     ∧ get_piece start (mkPosition 0 (1 + 1) 4) = Some None)
    ∨ (mkPosition 0 3 4 = mkPosition 0 (1 + 2 * 1) 4 ∧ 1 = 1
       ∧ is_valid_position (mkPosition 0 (1 + 1) 4) = true
       ∧ get_piece start (mkPosition 0 (1 + 1) 4) = Some None
       ∧ is_valid_position (mkPosition 0 (1 + 2 * 1) 4) = true
       ∧ get_piece start (mkPosition 0 (1 + 2 * 1) 4) = Some None)
    ∨ (∃ file_offset,
         (file_offset = -1 ∨ file_offset = 1)
         ∧ mkPosition 0 3 4 = mkPosition 0 (1 + 1) (4 + file_offset)
         ∧ is_valid_position (mkPosition 0 3 4) = true
         ∧ ∃ t, get_piece start (mkPosition 0 3 4) = Some (Some t)
                ∧ color t ≠ color (mkPiece PAWN WHITE)).
Proof.
  apply (pawn_destinations start (mkPosition 0 1 4) (mkPiece PAWN WHITE)).
  - reflexivity.
  - reflexivity.
  - vm_compute. reflexivity.
Defined.

(** X8. A knight, a bishop or a queen is offered the one-cell diagonal
    step onto an adjacent level exactly when the cell is on the board and
    empty or held by a piece of the other colour. *)
Theorem level_diagonal_moves_exact g pos piece moves level_offset offset :
  get_piece g pos = Some (Some piece) →
  type piece = KNIGHT ∨ type piece = BISHOP ∨ type piece = QUEEN →
  get_valid_moves g pos = Some moves →
  (level_offset = 1 ∧ level pos < 2) ∨ (level_offset = -1 ∧ level pos > 0) →
  offset ∈ diagonal_offsets →
  let new_pos :=
    mkPosition (level pos + level_offset) (rank pos + fst offset)
               (file pos + snd offset) in
  mkMove pos new_pos None ∈ moves
  ↔ is_valid_position new_pos = true
    ∧ ∃ target, get_piece g new_pos = Some target
                ∧ empty_or_enemy target piece = true.
Proof.
  intros Hp Ht Hm Hlo Hoff new_pos.
  unfold get_valid_moves in Hm. rewrite Hp in Hm. cbn [mbind option_bind] in Hm.
  apply bind_Some in Hm as (ms & Hms & Hm).
  apply bind_Some in Hm as (m3 & H3 & Hm). injection Hm as <-.
  assert (Forall (fun m => level (to_pos m) = level pos) ms) as Hlevel.
  { destruct Ht as [Ht|[Ht|Ht]]; rewrite Ht in Hms;
      (eapply for_moves_Forall; [exact Hms|]); intros o ms' _ Hb.
    - destruct o. by eapply try_target_Forall.
    - eapply slide_Forall; [exact Hb|]. by apply Forall_forall.
    - eapply slide_Forall; [exact Hb|]. by apply Forall_forall. }
  rewrite Forall_forall in Hlevel.
  set (in_range := fun lo => (lo = 1 ∧ level pos < 2) ∨ (lo = -1 ∧ level pos > 0)).
  assert ((∀ m, m ∈ m3 → ∃ lo ms', in_range lo
                                    ∧ level_diagonals g pos piece lo = Some ms'
                                    ∧ m ∈ ms')
          ∧ (∀ lo, in_range lo →
               ∃ ms', level_diagonals g pos piece lo = Some ms'
                      ∧ ∀ m, m ∈ ms' → m ∈ m3)) as [Hfrom Hinto].
  { unfold _get_3d_moves in H3.
    destruct (PieceType_eqb (type piece) KNIGHT) eqn:Hk.
    - assert (∀ lo, lo ∈ (if level pos <? 2 then [1] else [])
                          ++ (if level pos >? 0 then [-1] else [])
                    ↔ in_range lo) as Hlevels.
      { intros lo. unfold in_range. rewrite elem_of_app.
        destruct (Z.ltb_spec (level pos) 2), (Z.gtb_spec (level pos) 0);
          cbv iota; rewrite ?list_elem_of_singleton, ?elem_of_nil.
        all: lia. }
      split.
      + intros m (lo & ms' & Hlo' & Hb & Hin)%(for_moves_elem _ _ _ _ H3).
        exists lo, ms'. split; [by apply Hlevels | done].
      + intros lo Hlo'%Hlevels.
        destruct (for_moves_body _ _ _ _ H3 Hlo') as [ms' Hb].
        exists ms'. split; [done|]. intros m Hin.
        apply (for_moves_elem _ _ _ _ H3). by exists lo, ms'.
    - assert (PieceType_eqb (type piece) BISHOP || PieceType_eqb (type piece) QUEEN
              = true) as Hbq.
      { destruct Ht as [Ht|[Ht|Ht]]; rewrite Ht in *; done. }
      rewrite Hbq in H3.
      apply bind_Some in H3 as (up & Hup & H3).
      apply bind_Some in H3 as (down & Hdown & H3). injection H3 as <-.
      split.
      + intros m [Hin|Hin]%elem_of_app.
        * destruct (Z.ltb_spec (level pos) 2);
            [|injection Hup as <-; by apply elem_of_nil in Hin].
          exists 1, up. split; [unfold in_range; lia | done].
        * destruct (Z.gtb_spec (level pos) 0);
            [|injection Hdown as <-; by apply elem_of_nil in Hin].
          exists (-1), down. split; [unfold in_range; lia | done].
      + intros lo [[-> Hl]|[-> Hl]].
        * apply Z.ltb_lt in Hl. rewrite Hl in Hup. exists up. split; [done|].
          intros m Hin. apply elem_of_app. by left.
        * apply Z.gt_lt, Z.gtb_lt in Hl. rewrite Hl in Hdown. exists down.
          split; [done|]. intros m Hin. apply elem_of_app. by right. }
  rewrite elem_of_app. split.
  - intros [Hin|Hin].
    + apply Hlevel in Hin. unfold new_pos in Hin. cbn [to_pos level] in Hin. lia.
    + destruct (Hfrom _ Hin) as (lo & ms' & Hlo' & Hb & Hin').
      unfold level_diagonals in Hb.
      apply (for_moves_elem _ _ _ _ Hb) in Hin' as ([ro fo] & ms'' & Ho & Hb' & Hin').
      apply (try_target_elem _ _ _ _ _ _ Hb') in Hin' as (Heq & Hv & Htarget).
      injection Heq as Hl Hr Hf.
      assert (mkPosition (level pos + lo) (rank pos + ro) (file pos + fo) = new_pos)
        as Hsame by (unfold new_pos; f_equal; lia).
      by rewrite Hsame in Hv, Htarget.
  - intros [Hv Htarget]. right.
    destruct (Hinto level_offset Hlo) as (ms' & Hb & Hsub). apply Hsub.
    unfold level_diagonals in Hb. rewrite (for_moves_elem _ _ _ _ Hb).
    destruct (for_moves_body _ _ _ _ Hb Hoff) as [ms'' Hb'].
    exists offset, ms''. split; [done|]. split; [done|].
    destruct offset as [ro fo]. by apply (try_target_elem _ _ _ _ _ _ Hb').
Qed.

Lemma level_diagonal_moves_exact_witness :
  mkMove (mkPosition 0 0 3)
         (mkPosition (level (mkPosition 0 0 3) + 1)
                     (rank (mkPosition 0 0 3) + fst (1, 1))
                     (file (mkPosition 0 0 3) + snd (1, 1))) None
    ∈ [ mkMove (mkPosition 0 0 3) (mkPosition 1 1 4) None;
        mkMove (mkPosition 0 0 3) (mkPosition 1 1 2) None ]
  ↔ is_valid_position
      (mkPosition (level (mkPosition 0 0 3) + 1)
                  (rank (mkPosition 0 0 3) + fst (1, 1))
                  (file (mkPosition 0 0 3) + snd (1, 1))) = true
    ∧ ∃ target,
        get_piece start
          (mkPosition (level (mkPosition 0 0 3) + 1)
                      (rank (mkPosition 0 0 3) + fst (1, 1))
                      (file (mkPosition 0 0 3) + snd (1, 1))) = Some target
        ∧ empty_or_enemy target (mkPiece QUEEN WHITE) = true.
Proof.
  apply (level_diagonal_moves_exact start (mkPosition 0 0 3) (mkPiece QUEEN WHITE)).
  - reflexivity.
  - right. right. reflexivity.
  - vm_compute. reflexivity.
  - left. cbn. lia.
  - left.
Defined.

(** ** Making and undoing moves *)

Lemma get_piece_with_board g b pos i :
  cell pos = Some i → get_piece (with_board g b) pos = b !! i.
Proof. intros Hi. by rewrite (get_piece_at _ _ _ Hi). Qed.

(** Every generated move of a piece of the side to move is accepted. *)
Lemma generated_move_made g pos piece moves move :
  get_piece g pos = Some (Some piece) →
  color piece = current_player g →
  get_valid_moves g pos = Some moves →
  move ∈ moves →
  ∃ g1, make_move g move = Some (true, g1).
Proof.
  intros Hp Hc Hm Hin.
  pose proof (get_valid_moves_lands _ _ _ _ Hp Hm) as Hl.
  rewrite Forall_forall in Hl.
  destruct (Hl _ Hin) as (Hfrom & (target & Ht & _) & _).
  destruct (get_piece_cell _ _ _ Hp) as [i Hi].
  destruct (get_piece_cell _ _ _ Ht) as [j Hj].
  unfold make_move. rewrite Hfrom, Hp. cbn [mbind option_bind].
  rewrite (proj2 (Color_eqb_eq _ _) Hc). cbn [negb]. rewrite Hm.
  cbn [mbind option_bind]. rewrite (proj2 (Move_in_elem _ _) Hin). cbn [negb].
  rewrite Ht. cbn [mbind option_bind].
  rewrite (set_piece_at _ _ _ _ Hj). cbn [mbind option_bind].
  rewrite (set_piece_at _ _ _ _ Hi). cbn [mbind option_bind].
  destruct (promotes move piece); [destruct (promotion move)|];
    rewrite ?(set_piece_at _ _ _ _ Hj); cbn [mbind option_bind]; eauto.
Qed.

(** X9. [make_move] accepts exactly the moves that [get_valid_moves]
    returns for a piece of the side to move. *)
Theorem make_move_accepts_generated g move :
  (∃ g1, make_move g move = Some (true, g1))
  ↔ ∃ piece moves,
      get_piece g (from_pos move) = Some (Some piece)
      ∧ color piece = current_player g
      ∧ get_valid_moves g (from_pos move) = Some moves
      ∧ move ∈ moves.
Proof.
  split.
  - intros [g1 Hmake].
    destruct (make_move_accepted _ _ _ Hmake)
      as (piece & captured & i & j & Hp & Hc & (moves & Hm & Hin) & ?).
    by exists piece, moves.
  - intros (piece & moves & Hp & Hc & Hm & Hin).
    by eapply generated_move_made.
Qed.

(** X10. What an accepted move does: the side to move changes, the move
    and the piece that stood on the destination are pushed on the
    history, the origin cell is emptied, the destination holds the mover
    (the promoted piece for a promoting pawn), and every other cell keeps
    its content. *)
Theorem make_move_effect g move g1 :
  make_move g move = Some (true, g1) →
  ∃ piece captured,
    get_piece g (from_pos move) = Some (Some piece)
    ∧ get_piece g (to_pos move) = Some captured
    ∧ current_player g1 = opponent (current_player g)
    ∧ move_history g1 = (move, captured) :: move_history g
    ∧ get_piece g1 (from_pos move) = Some None
    ∧ get_piece g1 (to_pos move) = Some (Some (arrived move piece))
    ∧ ∀ pos, cell pos ≠ cell (from_pos move) → cell pos ≠ cell (to_pos move) →
             get_piece g1 pos = get_piece g pos.
Proof.
  intros (piece & captured & i & j & Hp & Hc & _ & Hi & Hj & Hij & Hbi & Hbj & ->)
    %make_move_accepted.
  pose proof (lookup_lt_Some _ _ _ Hbi) as Hilt.
  pose proof (lookup_lt_Some _ _ _ Hbj) as Hjlt.
  exists piece, captured. split; [done|].
  split; [by rewrite (get_piece_at _ _ _ Hj)|].
  split; [done|]. split; [done|].
  rewrite (get_piece_at _ _ _ Hi), (get_piece_at _ _ _ Hj). cbn [board].
  split; [|split].
  - rewrite list_lookup_insert_ne by done.
    by rewrite list_lookup_insert_eq by lia.
  - by rewrite list_lookup_insert_eq by (rewrite length_insert; lia).
  - intros pos Hne1 Hne2. unfold get_piece. destruct (cell pos) as [k|]; [|done].
    cbn [mbind option_bind board].
    rewrite !list_lookup_insert_ne by congruence. done.
Qed.

Lemma make_move_effect_witness :
  ∃ g1 piece captured,
    make_move start (mkMove (mkPosition 0 1 4) (mkPosition 0 3 4) None)
      = Some (true, g1)
    ∧ get_piece start (mkPosition 0 1 4) = Some (Some piece)
    ∧ get_piece start (mkPosition 0 3 4) = Some captured
    ∧ current_player g1 = opponent (current_player start)
    ∧ move_history g1
      = (mkMove (mkPosition 0 1 4) (mkPosition 0 3 4) None, captured)
          :: move_history start
    ∧ get_piece g1 (mkPosition 0 1 4) = Some None
    ∧ get_piece g1 (mkPosition 0 3 4)
      = Some (Some (arrived (mkMove (mkPosition 0 1 4) (mkPosition 0 3 4) None) piece))
    ∧ ∀ pos, cell pos ≠ cell (mkPosition 0 1 4) →
             cell pos ≠ cell (mkPosition 0 3 4) →
             get_piece g1 pos = get_piece start pos.
Proof.
  eexists.
  assert (∀ (P : Piece → option Piece → Prop) (A : Prop),
            A → (∃ piece captured, P piece captured) →
            ∃ piece captured, A ∧ P piece captured) as Hsplit.
  { intros P A HA (piece & captured & HP). by exists piece, captured. }
  apply Hsplit; [vm_compute; reflexivity|].
  apply (make_move_effect start (mkMove (mkPosition 0 1 4) (mkPosition 0 3 4) None)).
  vm_compute. reflexivity.
Defined.

(** X11. What [undo_move] does on a history that is not empty: it pops
    the last entry, gives the move back to the other side, carries the
    piece on the destination of the popped move back to its origin and
    puts the captured piece on the destination; every other cell keeps its
    content. *)
Theorem undo_move_effect g g1 :
  wf_board g →
  undo_move g = Some (true, g1) →
  ∃ move captured piece,
    move_history g = (move, captured) :: move_history g1
    ∧ current_player g1 = opponent (current_player g)
    ∧ get_piece g (to_pos move) = Some piece
    ∧ get_piece g1 (to_pos move) = Some captured
    ∧ (cell (from_pos move) ≠ cell (to_pos move) →
       get_piece g1 (from_pos move) = Some piece)
    ∧ ∀ pos, cell pos ≠ cell (from_pos move) → cell pos ≠ cell (to_pos move) →
             get_piece g1 pos = get_piece g pos.
Proof.
  unfold undo_move. intros Hwf H.
  destruct (move_history g) as [|[move captured] history] eqn:Hh; [done|].
  apply bind_Some in H as (piece & Hp & H).
  apply bind_Some in H as (g2 & H2 & H). apply bind_Some in H as (g3 & H3 & H).
  injection H as <-.
  destruct (get_piece_cell _ _ _ Hp) as [j Hj].
  unfold set_piece in H2. destruct (cell (from_pos move)) as [i|] eqn:Hi; [|done].
  cbn [mbind option_bind] in H2. injection H2 as <-.
  rewrite (set_piece_at _ _ _ _ Hj) in H3. injection H3 as <-.
  rewrite (get_piece_at _ _ _ Hj) in Hp. cbn [board] in Hp.
  pose proof (lookup_lt_Some _ _ _ Hp) as Hjlt.
  exists move, captured, piece. cbn [with_board board current_player move_history].
  split; [done|]. split; [done|].
  rewrite !(get_piece_at _ _ _ Hj). cbn [board]. split; [done|]. split; [|split].
  - by rewrite list_lookup_insert_eq by (rewrite length_insert; lia).
  - intros Hne. unfold get_piece. rewrite Hi. cbn [mbind option_bind board].
    rewrite list_lookup_insert_ne by congruence.
    apply list_lookup_insert_eq. rewrite Hwf. by eapply cell_lt.
  - intros pos Hne1 Hne2. unfold get_piece. destruct (cell pos) as [k|]; [|done].
    cbn [mbind option_bind board].
    rewrite !list_lookup_insert_ne by congruence. done.
Qed.

Lemma undo_move_effect_witness :
  ∃ g1 move captured piece,
    undo_move pawn_on_seventh_played = Some (true, g1)
    ∧ move_history pawn_on_seventh_played = (move, captured) :: move_history g1
    ∧ current_player g1 = opponent (current_player pawn_on_seventh_played)
    ∧ get_piece pawn_on_seventh_played (to_pos move) = Some piece
    ∧ get_piece g1 (to_pos move) = Some captured
    ∧ (cell (from_pos move) ≠ cell (to_pos move) →
       get_piece g1 (from_pos move) = Some piece)
    ∧ ∀ pos, cell pos ≠ cell (from_pos move) → cell pos ≠ cell (to_pos move) →
             get_piece g1 pos = get_piece pawn_on_seventh_played pos.
Proof.
  eexists.
  assert (∀ (P : Move → option Piece → option Piece → Prop) (A : Prop),
            A → (∃ move captured piece, P move captured piece) →
            ∃ move captured piece, A ∧ P move captured piece) as Hsplit.
  { intros P A HA (move & captured & piece & HP). by exists move, captured, piece. }
  apply Hsplit; [vm_compute; reflexivity|].
  apply (undo_move_effect pawn_on_seventh_played); [reflexivity|].
  vm_compute. reflexivity.
Defined.


(** ** Check and checkmate, by the moves of the pieces *)

Lemma all_positions_complete pos :
  is_valid_position pos = true → pos ∈ all_positions.
Proof.
  intros H%is_valid_position_spec. destruct pos as [l r f]. cbn [level rank file] in H.
  unfold all_positions. apply list_elem_of_bind. exists l. split.
  - apply list_elem_of_bind. exists r. split.
    + apply list_elem_of_bind. exists f. split; [left|].
      assert (f = 0 ∨ f = 1 ∨ f = 2 ∨ f = 3 ∨ f = 4 ∨ f = 5 ∨ f = 6 ∨ f = 7)
        as Hf by lia.
      unfold files. repeat (destruct Hf as [->|Hf]; [apply list_elem_of_In; cbn; auto 10|]).
      subst f. apply list_elem_of_In; cbn; auto 10.
    + assert (r = 0 ∨ r = 1 ∨ r = 2 ∨ r = 3 ∨ r = 4 ∨ r = 5 ∨ r = 6 ∨ r = 7)
        as Hr by lia.
      unfold ranks. repeat (destruct Hr as [->|Hr]; [apply list_elem_of_In; cbn; auto 10|]).
      subst r. apply list_elem_of_In; cbn; auto 10.
  - assert (l = 0 ∨ l = 1 ∨ l = 2) as Hl by lia.
    unfold levels. repeat (destruct Hl as [->|Hl]; [apply list_elem_of_In; cbn; auto|]).
    subst l. apply list_elem_of_In; cbn; auto.
Qed.

Lemma is_king_of_spec color0 piece :
  is_king_of color0 piece = true
  ↔ ∃ king, piece = Some king ∧ type king = KING ∧ color king = color0.
Proof.
  destruct piece as [p|]; cbn [is_king_of].
  - rewrite andb_true_iff, PieceType_eqb_eq, Color_eqb_eq. split.
    + intros [??]. by exists p.
    + by intros (? & [= <-] & ? & ?).
  - split; [done | by intros (? & ? & _)].
Qed.

(** The king that [is_check] looks at is a king of the colour. *)
Lemma find_king_found g color0 ps king_pos :
  find_king g color0 ps = Some (Some king_pos) →
  king_pos ∈ ps ∧ ∃ piece, get_piece g king_pos = Some piece
                           ∧ is_king_of color0 piece = true.
Proof.
  induction ps as [|pos ps IH]; cbn [find_king]; [done|]. intros H.
  apply bind_Some in H as (piece & Hp & H).
  destruct (is_king_of color0 piece) eqn:Hk.
  - injection H as <-. split; [left | eauto].
  - destruct (IH H) as [Hin Hking]. split; [by right | done].
Qed.

Lemma find_king_exists g color0 ps king_pos piece :
  wf_board g → (∀ pos, pos ∈ ps → is_valid_position pos = true) →
  king_pos ∈ ps → get_piece g king_pos = Some piece →
  is_king_of color0 piece = true →
  ∃ found, find_king g color0 ps = Some (Some found).
Proof.
  intros Hwf. induction ps as [|pos ps IH]; intros Hv Hin Hp Hk;
    [by apply elem_of_nil in Hin|].
  cbn [find_king].
  destruct (get_piece_valid g pos Hwf) as [piece' Hp']; [apply Hv; left|].
  rewrite Hp'. cbn [mbind option_bind].
  destruct (is_king_of color0 piece') eqn:Hk'; [eauto|].
  apply elem_of_cons in Hin as [->|Hin]; [congruence|].
  apply IH; [intros ??; apply Hv; by right | done..].
Qed.

Lemma targets_spec king_pos moves :
  targets king_pos moves = true ↔ ∃ move, move ∈ moves ∧ to_pos move = king_pos.
Proof.
  unfold targets. rewrite existsb_exists. split.
  - intros (move & Hin%list_elem_of_In & Heq%Position_eqb_eq). eauto.
  - intros (move & Hin%list_elem_of_In & Heq%Position_eqb_eq). eauto.
Qed.

Lemma attacked_spec g opponent_color king_pos ps :
  wf_board g → (∀ pos, pos ∈ ps → is_valid_position pos = true) →
  ∃ result,
    attacked g opponent_color king_pos ps = Some result
    ∧ (result = true ↔
       ∃ pos piece moves move,
         pos ∈ ps ∧ get_piece g pos = Some (Some piece)
         ∧ color piece = opponent_color
         ∧ get_valid_moves g pos = Some moves
         ∧ move ∈ moves ∧ to_pos move = king_pos).
Proof.
  intros Hwf. induction ps as [|pos ps IH]; intros Hv; cbn [attacked].
  { exists false. split; [done|]. split; [done|].
    by intros (? & ? & ? & ? & ?%elem_of_nil & _). }
  destruct IH as (rest & Hrest & Hiff); [intros ??; apply Hv; by right|].
  destruct (get_piece_valid g pos Hwf) as [piece Hp]; [apply Hv; left|].
  rewrite Hp. cbn [mbind option_bind].
  assert (
    (¬ ∃ p moves move, get_piece g pos = Some (Some p) ∧ color p = opponent_color
                       ∧ get_valid_moves g pos = Some moves
                       ∧ move ∈ moves ∧ to_pos move = king_pos) →
    (rest = true ↔
     ∃ pos0 piece0 moves move,
       pos0 ∈ pos :: ps ∧ get_piece g pos0 = Some (Some piece0)
       ∧ color piece0 = opponent_color
       ∧ get_valid_moves g pos0 = Some moves
       ∧ move ∈ moves ∧ to_pos move = king_pos)) as Hskip.
  { intros Hnot. rewrite Hiff. split.
    - intros (pos0 & p0 & ms & m & Hin & H). exists pos0, p0, ms, m.
      split; [by right | done].
    - intros (pos0 & p0 & ms & m & Hin & H1 & H2 & H3 & H4 & H5).
      apply elem_of_cons in Hin as [->|Hin]; [|by exists pos0, p0, ms, m].
      destruct Hnot. by exists p0, ms, m. }
  destruct piece as [p|].
  2:{ exists rest. split; [done|]. apply Hskip.
      intros (? & ? & ? & ? & _). congruence. }
  destruct (Color_eqb (color p) opponent_color) eqn:Hc.
  2:{ exists rest. split; [done|]. apply Hskip.
      intros (p' & ? & ? & Hp' & Hc' & _). assert (p' = p) as -> by congruence.
      apply Color_eqb_eq in Hc'. congruence. }
  apply Color_eqb_eq in Hc.
  destruct (get_valid_moves_is_Some g pos Hwf) as [moves Hm]; [eauto|].
  rewrite Hm. cbn [mbind option_bind].
  destruct (targets king_pos moves) eqn:Ht.
  - exists true. split; [done|]. split; [|done]. intros _.
    apply targets_spec in Ht as (move & Hin & Hto).
    exists pos, p, moves, move. split; [left | done].
  - exists rest. split; [done|]. apply Hskip.
    intros (p' & ms & m & Hp' & _ & Hm' & Hin & Hto).
    assert (ms = moves) as -> by congruence.
    assert (targets king_pos moves = true) by (apply targets_spec; eauto).
    congruence.
Qed.

(** X12. When [king_pos] holds the only king of [color0], [is_check]
    returns [True] exactly when some piece of the other colour has a
    generated move onto [king_pos]. *)
Theorem is_check_attacked g color0 king_pos king :
  wf_board g →
  is_valid_position king_pos = true →
  get_piece g king_pos = Some (Some king) →
  type king = KING → color king = color0 →
  (∀ pos piece, is_valid_position pos = true →
                get_piece g pos = Some (Some piece) →
                type piece = KING → color piece = color0 → pos = king_pos) →
  is_check g color0 = Some true
  ↔ ∃ pos piece moves move,
      is_valid_position pos = true
      ∧ get_piece g pos = Some (Some piece)
      ∧ color piece = opponent color0
      ∧ get_valid_moves g pos = Some moves
      ∧ move ∈ moves ∧ to_pos move = king_pos.
Proof.
  intros Hwf Hv Hking Ht Hc Honly. unfold is_check.
  destruct (find_king_exists g color0 all_positions king_pos (Some king) Hwf)
    as [found Hfound];
    [apply all_positions_valid | by apply all_positions_complete | done
    | apply is_king_of_spec; by exists king |].
  rewrite Hfound. cbn [mbind option_bind].
  assert (found = king_pos) as ->.
  { apply find_king_found in Hfound as (Hin & piece & Hp & Hk).
    apply is_king_of_spec in Hk as (k & -> & Hkt & Hkc).
    eapply Honly; [by apply all_positions_valid | done..]. }
  destruct (attacked_spec g (opponent color0) king_pos all_positions Hwf
              all_positions_valid) as (result & -> & Hiff).
  split.
  - intros [= ->]. destruct (proj1 Hiff eq_refl)
      as (pos & piece & moves & move & Hin & H).
    exists pos, piece, moves, move. split; [by apply all_positions_valid | done].
  - intros (pos & piece & moves & move & Hpos & H). f_equal. apply Hiff.
    exists pos, piece, moves, move. split; [by apply all_positions_complete | done].
Qed.

Lemma is_check_attacked_witness :
  is_check white_mated WHITE = Some true
  ↔ ∃ pos piece moves move,
      is_valid_position pos = true
      ∧ get_piece white_mated pos = Some (Some piece)
      ∧ color piece = opponent WHITE
      ∧ get_valid_moves white_mated pos = Some moves
      ∧ move ∈ moves ∧ to_pos move = mkPosition 0 0 0.
Proof.
  apply (is_check_attacked white_mated WHITE (mkPosition 0 0 0) (mkPiece KING WHITE)).
  - reflexivity.
  - reflexivity.
  - reflexivity.
  - reflexivity.
  - reflexivity.
  - intros pos piece Hv Hp Ht Hc.
    apply all_positions_complete, list_elem_of_In in Hv.
    assert (forallb (fun p => match get_piece white_mated p with
                              | Some (Some q) =>
                                  negb (PieceType_eqb (type q) KING)
                                  || Position_eqb p (mkPosition 0 0 0)
                              | _ => true
                              end) all_positions = true) as Hall
      by (vm_compute; reflexivity).
    rewrite forallb_forall in Hall. specialize (Hall pos Hv). rewrite Hp in Hall.
    rewrite Ht in Hall. cbn [PieceType_eqb negb orb] in Hall.
    by apply Position_eqb_eq in Hall.
Defined.

Lemma relocated_at g pos piece move i j :
  cell pos = Some i → cell (to_pos move) = Some j →
  relocated g pos piece move
  = Some (with_board g (<[i := None]> (<[j := Some piece]> (board g)))).
Proof.
  intros Hi Hj. unfold relocated. rewrite (set_piece_at _ _ _ _ Hj).
  cbn [mbind option_bind]. by rewrite (set_piece_at _ _ _ _ Hi).
Qed.

(** The trials of one piece: the game comes back as it was, and a trial
    escapes when the relocation leaves the king out of check. *)
Lemma escape_trials_spec g color0 pos piece moves :
  wf_board g →
  get_piece g pos = Some (Some piece) →
  Forall (lands g pos piece) moves →
  ∃ escaped,
    escape_trials g color0 pos piece moves = Some (escaped, g)
    ∧ (escaped = true ↔
       ∃ move g', move ∈ moves ∧ relocated g pos piece move = Some g'
                  ∧ is_check g' color0 = Some false).
Proof.
  intros Hwf Hp. induction 1 as [|move moves Hl _ IH]; cbn [escape_trials].
  { exists false. split; [done|]. split; [done|].
    by intros (? & ? & ?%elem_of_nil & _). }
  destruct Hl as (_ & (target & Ht & _) & Hne & _).
  destruct (get_piece_cell _ _ _ Hp) as [i Hi].
  destruct (get_piece_cell _ _ _ Ht) as [j Hj].
  assert (i ≠ j) as Hij by congruence.
  rewrite Ht. cbn [mbind option_bind].
  rewrite (set_piece_at _ _ _ _ Hj). cbn [mbind option_bind].
  rewrite (set_piece_at _ _ _ _ Hi). cbn [mbind option_bind].
  pose proof (relocated_at g pos piece move i j Hi Hj) as Hrel.
  match goal with |- context [is_check ?x color0] => set (g2 := x) in * end.
  change (relocated g pos piece move = Some g2) in Hrel.
  destruct (is_check_is_Some g2 color0) as [still Hstill].
  { unfold wf_board, g2, with_board. cbn [board]. rewrite !length_insert. exact Hwf. }
  rewrite Hstill. cbn [mbind option_bind].
  rewrite (set_piece_at _ _ _ _ Hi). cbn [mbind option_bind].
  rewrite (set_piece_at _ _ _ _ Hj). cbn [mbind option_bind].
  unfold g2, with_board. cbn [board current_player move_history].
  rewrite (get_piece_at _ _ _ Hi) in Hp. rewrite (get_piece_at _ _ _ Hj) in Ht.
  assert (<[j := target]> (<[i := Some piece]> (<[i := None]>
            (<[j := Some piece]> (board g)))) = board g) as ->.
  { rewrite list_insert_insert_eq.
    rewrite (two_cells_restored (board g)); try done.
    - by apply list_insert_id.
    - by rewrite length_insert.
    - intros k _ Hk. by rewrite list_lookup_insert_ne. }
  replace (mkChess3D (board g) (current_player g) (move_history g)) with g
    by (by destruct g).
  destruct still; cbn [negb].
  - destruct IH as (escaped & Hesc & Hiff). exists escaped. split; [done|].
    rewrite Hiff. split.
    + intros (m & g' & Hin & H). exists m, g'. split; [by right | done].
    + intros (m & g' & Hin & Hrel' & Hout).
      apply elem_of_cons in Hin as [->|Hin]; [|by exists m, g'].
      rewrite Hrel in Hrel'. injection Hrel' as <-. congruence.
  - exists true. split; [done|]. split; [|done]. intros _.
    exists move, g2. split; [left | done].
Qed.

Lemma relocated_wf g pos piece move g' :
  relocated g pos piece move = Some g' → wf_board g → wf_board g'.
Proof.
  unfold relocated. intros H Hwf. apply bind_Some in H as (g1 & H1 & H2).
  eapply set_piece_wf; [exact H2|]. by eapply set_piece_wf.
Qed.

Lemma checkmate_scan_spec g color0 ps :
  wf_board g → (∀ pos, pos ∈ ps → is_valid_position pos = true) →
  ∃ mated,
    checkmate_scan g color0 ps = Some (mated, g)
    ∧ (mated = true ↔
       ∀ pos piece moves move g',
         pos ∈ ps → get_piece g pos = Some (Some piece) → color piece = color0 →
         get_valid_moves g pos = Some moves → move ∈ moves →
         relocated g pos piece move = Some g' →
         is_check g' color0 = Some true).
Proof.
  intros Hwf. induction ps as [|pos ps IH]; intros Hv; cbn [checkmate_scan].
  { exists true. split; [done|]. split; [|done].
    intros _ ????? ?%elem_of_nil. done. }
  destruct IH as (rest & Hrest & Hiff); [intros ??; apply Hv; by right|].
  destruct (get_piece_valid g pos Hwf) as [piece Hp]; [apply Hv; left|].
  rewrite Hp. cbn [mbind option_bind].
  assert ((∀ p moves move g', get_piece g pos = Some (Some p) → color p = color0 →
              get_valid_moves g pos = Some moves → move ∈ moves →
              relocated g pos p move = Some g' → is_check g' color0 = Some true) →
          (rest = true ↔
           ∀ pos0 piece0 moves move g',
             pos0 ∈ pos :: ps → get_piece g pos0 = Some (Some piece0) →
             color piece0 = color0 →
             get_valid_moves g pos0 = Some moves → move ∈ moves →
             relocated g pos0 piece0 move = Some g' →
             is_check g' color0 = Some true)) as Hskip.
  { intros Hhere. rewrite Hiff. split.
    - intros H pos0 p0 ms m g' Hin. apply elem_of_cons in Hin as [->|Hin].
      + apply Hhere.
      + by apply H.
    - intros H pos0 p0 ms m g' Hin. apply H. by right. }
  destruct piece as [p|].
  2:{ exists rest. split; [done|]. apply Hskip. intros; congruence. }
  destruct (Color_eqb (color p) color0) eqn:Hc.
  2:{ exists rest. split; [done|]. apply Hskip. intros p' ???? Hc' ???.
      assert (p' = p) as -> by congruence. apply Color_eqb_eq in Hc'. congruence. }
  apply Color_eqb_eq in Hc.
  destruct (get_valid_moves_is_Some g pos Hwf) as [moves Hm]; [eauto|].
  rewrite Hm. cbn [mbind option_bind].
  destruct (escape_trials_spec g color0 pos p moves Hwf Hp)
    as (escaped & -> & Hesc); [by eapply get_valid_moves_lands|].
  cbn [mbind option_bind]. destruct escaped.
  - exists false. split; [done|]. split; [done|]. intros H.
    destruct (proj1 Hesc eq_refl) as (move & g' & Hin & Hrel & Hout).
    assert (is_check g' color0 = Some true) as Hstill.
    { eapply (H pos p moves move g'); [left | done..]. }
    congruence.
  - exists rest. split; [done|]. apply Hskip.
    intros p' ms m g' Hp' _ Hms Hin Hrel.
    assert (p' = p) as -> by congruence. assert (ms = moves) as -> by congruence.
    destruct (is_check_is_Some g' color0) as [[] Hb];
      [by eapply relocated_wf | done |].
    assert (false = true); [|done]. apply Hesc. by exists m, g'.
Qed.

(** X13. [is_checkmate] returns [True] exactly when [color0] is in check
    and stays in check after every relocation of one of its pieces along
    one of its generated moves; a promoting pawn is tried as a pawn. *)
Theorem is_checkmate_no_escape g color0 :
  wf_board g →
  is_checkmate g color0 = Some (true, g)
  ↔ is_check g color0 = Some true
    ∧ ∀ pos piece moves move g',
        is_valid_position pos = true →
        get_piece g pos = Some (Some piece) → color piece = color0 →
        get_valid_moves g pos = Some moves → move ∈ moves →
        relocated g pos piece move = Some g' →
        is_check g' color0 = Some true.
Proof.
  intros Hwf. unfold is_checkmate.
  destruct (is_check_is_Some g color0 Hwf) as [in_check ->].
  cbn [mbind option_bind].
  destruct (checkmate_scan_spec g color0 all_positions Hwf all_positions_valid)
    as (mated & Hscan & Hiff).
  destruct in_check; cbn [negb].
  - rewrite Hscan. split.
    + intros [= ->]. split; [done|]. intros pos piece moves move g' Hv.
      apply (proj1 Hiff eq_refl). by apply all_positions_complete.
    + intros [_ H]. do 2 f_equal. apply Hiff.
      intros pos piece moves move g' Hin. apply H. by apply all_positions_valid.
  - split; [done | by intros [? _]].
Qed.

Lemma is_checkmate_no_escape_witness :
  is_checkmate white_mated WHITE = Some (true, white_mated)
  ↔ is_check white_mated WHITE = Some true
    ∧ ∀ pos piece moves move g',
        is_valid_position pos = true →
        get_piece white_mated pos = Some (Some piece) → color piece = WHITE →
        get_valid_moves white_mated pos = Some moves → move ∈ moves →
        relocated white_mated pos piece move = Some g' →
        is_check g' WHITE = Some true.
Proof.
  apply (is_checkmate_no_escape white_mated WHITE). reflexivity.
Defined.

(** ** Setting up the board *)

Lemma Position_eqb_cell p q :
  is_valid_position p = true → is_valid_position q = true →
  cell p = cell q → p = q.
Proof.
  intros Hp Hq. rewrite (cell_valid _ Hp), (cell_valid _ Hq).
  apply is_valid_position_spec in Hp, Hq. intros [= H].
  destruct p as [l r f], q as [l' r' f']. cbn [level rank file] in *. f_equal; lia.
Qed.

(** Reading a cell after a write. *)
Lemma get_piece_set_piece g p x g' q :
  wf_board g → set_piece g p x = Some g' →
  is_valid_position p = true → is_valid_position q = true →
  get_piece g' q = if Position_eqb p q then Some x else get_piece g q.
Proof.
  intros Hwf Hset Hp Hq.
  rewrite (set_piece_at _ _ _ _ (cell_valid _ Hp)) in Hset. injection Hset as <-.
  rewrite (get_piece_with_board _ _ _ _ (cell_valid _ Hq)).
  rewrite (get_piece_at _ _ _ (cell_valid _ Hq)).
  destruct (Position_eqb p q) eqn:E.
  - apply Position_eqb_eq in E as ->. apply list_lookup_insert_eq. rewrite Hwf.
    eapply cell_lt, cell_valid, Hq.
  - apply list_lookup_insert_ne. intros Heq.
    assert (p = q) as ->.
    { apply Position_eqb_cell; [done..|]. by rewrite !cell_valid, Heq. }
    assert (Position_eqb q q = true) by (by apply Position_eqb_eq). congruence.
Qed.

Lemma setup_files_effect lv c back_rank pawn_rank :
  0 <= lv < 3 → 0 <= back_rank < 8 → 0 <= pawn_rank < 8 → back_rank ≠ pawn_rank →
  ∀ fs g,
    wf_board g → Forall (fun f => 0 <= f < 8) fs →
    ∃ g',
      setup_files g lv c back_rank pawn_rank fs = Some g'
      ∧ wf_board g'
      ∧ current_player g' = current_player g
      ∧ move_history g' = move_history g
      ∧ ∀ pos, is_valid_position pos = true →
          get_piece g' pos =
          if bool_decide (level pos = lv ∧ rank pos = pawn_rank ∧ file pos ∈ fs)
          then Some (Some (mkPiece PAWN c))
          else if bool_decide (level pos = lv ∧ rank pos = back_rank ∧ file pos ∈ fs)
          then (fun pt => Some (mkPiece pt c)) <$> piece_order !! Z.to_nat (file pos)
          else get_piece g pos.
Proof.
  intros Hlv Hback Hpawn Hne fs.
  induction fs as [|f fs IH]; intros g Hwf Hfs; cbn [setup_files].
  { exists g. repeat split; try done. intros pos Hv.
    rewrite !bool_decide_eq_false_2; [done|..]; by intros (_ & _ & ?%elem_of_nil). }
  apply Forall_cons in Hfs as [Hf Hfs].
  destruct (lookup_lt_is_Some_2 piece_order (Z.to_nat f)) as [pt Hpt];
    [cbn; lia|].
  rewrite Hpt. cbn [mbind option_bind].
  assert (is_valid_position (mkPosition lv back_rank f) = true) as Hvb
    by (apply is_valid_position_spec; cbn; lia).
  assert (is_valid_position (mkPosition lv pawn_rank f) = true) as Hvp
    by (apply is_valid_position_spec; cbn; lia).
  destruct (set_piece g (mkPosition lv back_rank f) (Some (mkPiece pt c)))
    as [g1|] eqn:H1; [|by rewrite (set_piece_at _ _ _ _ (cell_valid _ Hvb)) in H1].
  cbn [mbind option_bind].
  destruct (set_piece g1 (mkPosition lv pawn_rank f) (Some (mkPiece PAWN c)))
    as [g2|] eqn:H2; [|by rewrite (set_piece_at _ _ _ _ (cell_valid _ Hvp)) in H2].
  cbn [mbind option_bind].
  pose proof (set_piece_wf _ _ _ _ H1 Hwf) as Hwf1.
  pose proof (set_piece_wf _ _ _ _ H2 Hwf1) as Hwf2.
  destruct (IH g2 Hwf2 Hfs) as (g' & -> & Hwf' & Hcp & Hmh & Hcells).
  exists g'. split; [done|]. split; [done|].
  assert (current_player g2 = current_player g ∧ move_history g2 = move_history g)
    as [Hcp2 Hmh2].
  { rewrite (set_piece_at _ _ _ _ (cell_valid _ Hvb)) in H1.
    rewrite (set_piece_at _ _ _ _ (cell_valid _ Hvp)) in H2.
    injection H1 as <-. injection H2 as <-. done. }
  split; [congruence|]. split; [congruence|].
  intros pos Hv. rewrite (Hcells pos Hv).
  rewrite (get_piece_set_piece _ _ _ _ pos Hwf1 H2 Hvp Hv).
  rewrite (get_piece_set_piece _ _ _ _ pos Hwf H1 Hvb Hv).
  destruct pos as [l r f']. cbn [level rank file].
  unfold Position_eqb. cbn [level rank file].
  repeat case_bool_decide;
    repeat match goal with
      | |- context [?a =? ?b] => destruct (Z.eqb_spec a b)
      end; cbn [andb]; try done;
    try (subst; rewrite ?Hpt; done);
    exfalso; repeat match goal with H : context [_ ∈ _ :: _] |- _ =>
                      rewrite elem_of_cons in H end;
    intuition (subst; try lia; try done).
Qed.

(** X14. [setup_standard_board] writes the sixteen cells of the back rank
    and of the pawn rank of the level, the pieces of [piece_order] behind
    and a pawn in front, and leaves every other cell, the side to move and
    the history as they were. *)
Theorem setup_standard_board_effect g lv c :
  wf_board g → 0 <= lv < 3 →
  ∃ g',
    setup_standard_board g lv c = Some g'
    ∧ wf_board g'
    ∧ current_player g' = current_player g
    ∧ move_history g' = move_history g
    ∧ ∀ pos, is_valid_position pos = true →
        get_piece g' pos =
        if bool_decide (level pos = lv
                        ∧ rank pos = if Color_eqb c WHITE then 1 else 6)
        then Some (Some (mkPiece PAWN c))
        else if bool_decide (level pos = lv
                             ∧ rank pos = if Color_eqb c WHITE then 0 else 7)
        then (fun pt => Some (mkPiece pt c)) <$> piece_order !! Z.to_nat (file pos)
        else get_piece g pos.
Proof.
  intros Hwf Hlv. unfold setup_standard_board.
  destruct (setup_files_effect lv c
              (if Color_eqb c WHITE then 0 else 7)
              (if Color_eqb c WHITE then 1 else 6)) with (fs := files) (g := g)
    as (g' & Hset & Hwf' & Hcp & Hmh & Hcells);
    [done | destruct c; cbn; lia.. | done | by repeat constructor |].
  exists g'. split; [done|]. split; [done|]. split; [done|]. split; [done|].
  intros pos Hv. rewrite (Hcells pos Hv).
  assert (file pos ∈ files) as Hfile.
  { apply is_valid_position_spec in Hv.
    assert (file pos = 0 ∨ file pos = 1 ∨ file pos = 2 ∨ file pos = 3
            ∨ file pos = 4 ∨ file pos = 5 ∨ file pos = 6 ∨ file pos = 7) as Hf by lia.
    apply list_elem_of_In. unfold files. cbn. intuition auto 10. }
  repeat case_bool_decide; try done; exfalso; intuition auto.
Qed.

Lemma setup_standard_board_effect_witness :
  ∃ g',
    setup_standard_board empty_game 2 BLACK = Some g'
    ∧ wf_board g'
    ∧ current_player g' = current_player empty_game
    ∧ move_history g' = move_history empty_game
    ∧ ∀ pos, is_valid_position pos = true →
        get_piece g' pos =
        if bool_decide (level pos = 2
                        ∧ rank pos = if Color_eqb BLACK WHITE then 1 else 6)
        then Some (Some (mkPiece PAWN BLACK))
        else if bool_decide (level pos = 2
                             ∧ rank pos = if Color_eqb BLACK WHITE then 0 else 7)
        then (fun pt => Some (mkPiece pt BLACK)) <$> piece_order !! Z.to_nat (file pos)
        else get_piece empty_game pos.
Proof.
  apply (setup_standard_board_effect empty_game 2 BLACK); [reflexivity | lia].
Defined.

(** ** The search, further *)

(** X15. On a well-formed game a node of any depth [>= 0] returns within
    [depth + 1] nested calls, with any window, also when promotions in
    the tree make [undo_move] leave another game than [make_move] found;
    the game it leaves is well formed. *)
Theorem minimax_terminates g depth alpha beta maximizing :
  wf_game g → 0 <= depth →
  ∃ value g',
    minimax (S (Z.to_nat depth)) g depth alpha beta maximizing = Some (value, g')
    ∧ wf_game g'.
Proof.
  intros Hg Hdepth.
  destruct (minimax_returns (Z.to_nat depth) (S (Z.to_nat depth)) g alpha beta
              maximizing) as (value & g' & Hm & Hg'); [lia | done |].
  rewrite Z2Nat.id in Hm by done. by exists value, g'.
Qed.

Lemma minimax_terminates_witness :
  ∃ value g',
    minimax (S (Z.to_nat 1)) pawn_on_seventh_played 1 NegInf PosInf true
    = Some (value, g')
    ∧ wf_game g'.
Proof.
  apply (minimax_terminates pawn_on_seventh_played 1 NegInf PosInf true); [|lia].
  split; [reflexivity|]. repeat constructor; cbn; eauto.
Defined.

Lemma bounds_full exact returned :
  bounds NegInf PosInf exact returned → returned = exact.
Proof. intros (H1 & H2 & H3). score_cases. Qed.

(** X16. Where no promotion is within [depth] plies and the side to move
    is the side of the node, [minimax] hands the game back as it found
    it, with any window; with the full window it returns the value of
    exhaustive minimax, and with a window [alpha < beta] that value, an
    upper bound of it at or below [alpha], or a lower bound at or above
    [beta]. *)
Theorem minimax_clean_exact fuel g depth maximizing :
  wf_board g → clean depth g maximizing = true → (depth < fuel)%nat →
  ∃ exact,
    minimax_exhaustive depth g maximizing = Some exact
    ∧ minimax fuel g (Z.of_nat depth) NegInf PosInf maximizing = Some (exact, g)
    ∧ ∀ alpha beta,
        ∃ returned,
          minimax fuel g (Z.of_nat depth) alpha beta maximizing = Some (returned, g)
          ∧ (score_lt alpha beta = true → bounds alpha beta exact returned).
Proof.
  intros Hwf Hclean Hfuel.
  destruct (minimax_refines depth fuel g maximizing Hfuel Hwf Hclean)
    as (exact & Hex & Hret).
  replace (Z.of_nat (S depth) - 1) with (Z.of_nat depth) in Hret by lia.
  exists exact. split; [done|]. split; [|done].
  destruct (Hret NegInf PosInf) as (returned & Hm & Hb).
  by rewrite Hm, (bounds_full exact returned (Hb eq_refl)).
Qed.

Lemma minimax_clean_exact_witness :
  ∃ exact,
    minimax_exhaustive 2 start true = Some exact
    ∧ minimax 3 start (Z.of_nat 2) NegInf PosInf true = Some (exact, start)
    ∧ ∀ alpha beta,
        ∃ returned,
          minimax 3 start (Z.of_nat 2) alpha beta true = Some (returned, start)
          ∧ (score_lt alpha beta = true → bounds alpha beta exact returned).
Proof.
  apply (minimax_clean_exact 3 start 2 true).
  - reflexivity.
  - vm_compute. reflexivity.
  - lia.
Defined.

(** X17. On a well-formed game, for every depth [>= 1] and every outcome
    of the shuffle, [get_best_move] returns without raising, and a move
    that it returns is one of the generated moves of the requested
    colour. *)
Theorem get_best_move_returns shuffle fuel g max_depth color0 :
  (∀ l, shuffle l ≡ₚ l) →
  wf_game g → 1 <= max_depth → (Z.to_nat max_depth <= fuel)%nat →
  ∃ all_moves result,
    collect_moves g color0 all_positions = Some all_moves
    ∧ get_best_move shuffle fuel g max_depth color0 = Some result
    ∧ ∀ move, result = Some move → move ∈ all_moves.
Proof.
  intros Hshuffle Hg Hdepth Hfuel.
  destruct (collect_moves_returns g color0 all_positions (proj1 Hg))
    as (all_moves & Hall & Hidx); [apply all_positions_valid|].
  assert (∀ g a b, wf_game g →
    ∃ v g', minimax fuel g (max_depth - 1) a b (negb (Color_eqb color0 WHITE))
            = Some (v, g')
            ∧ wf_game g' ∧ True) as Hchild.
  { intros g0 a b Hg0.
    destruct (minimax_returns (Z.to_nat (max_depth - 1)) fuel g0 a b
                (negb (Color_eqb color0 WHITE))) as (v & g' & Hm & Hg');
      [lia | done |].
    rewrite Z2Nat.id in Hm by lia. by exists v, g'. }
  destruct (root_loop_returns fuel max_depth color0 _ Hchild (shuffle all_moves)
              (mkRoot None (if Color_eqb color0 WHITE then NegInf else PosInf)
                      NegInf PosInf g))
    as (s & Hs & _ & Hfrom & _); [done | by rewrite Hshuffle |].
  exists all_moves, (best_move s). split; [done|]. split.
  - unfold get_best_move, get_best_move_eval. rewrite Hall.
    cbn [mbind option_bind]. by rewrite Hs.
  - intros move Hmove. destruct (Hfrom move Hmove) as [?|Hin]; [done|].
    by rewrite Hshuffle in Hin.
Qed.

Lemma get_best_move_returns_witness :
  ∃ all_moves result,
    collect_moves lone_king WHITE all_positions = Some all_moves
    ∧ get_best_move (fun l => l) 3 lone_king 3 WHITE = Some result
    ∧ ∀ move, result = Some move → move ∈ all_moves.
Proof.
  apply (get_best_move_returns (fun l => l) 3 lone_king 3 WHITE).
  - intros l. reflexivity.
  - split; [reflexivity | constructor].
  - lia.
  - cbn. lia.
Defined.

(** At depth 1 and 2 the root finds a move whenever there is one. *)
Lemma get_best_move_shallow shuffle fuel g max_depth color0 all_moves :
  (∀ l, shuffle l ≡ₚ l) →
  (2 <= fuel)%nat → wf_game g →
  collect_moves g color0 all_positions = Some all_moves →
  (all_moves = [] → get_best_move shuffle fuel g max_depth color0 = Some None)
  ∧ (all_moves ≠ [] → max_depth = 1 ∨ max_depth = 2 →
     ∃ move, get_best_move shuffle fuel g max_depth color0 = Some (Some move)
             ∧ move ∈ all_moves).
Proof.
  intros Hshuffle Hfuel Hg Hall.
  destruct (collect_moves_returns g color0 all_positions (proj1 Hg))
    as (all_moves' & Hall' & Hidx); [apply all_positions_valid|].
  assert (all_moves' = all_moves) as -> by congruence.
  unfold get_best_move, get_best_move_eval. rewrite Hall. cbn [mbind option_bind].
  split.
  - intros ->. rewrite (proj1 (Permutation_nil_r _) (Hshuffle [])). reflexivity.
  - intros Hne Hdepth.
    set (initial := if Color_eqb color0 WHITE then NegInf else PosInf).
    destruct fuel as [|[|fuel]]; [lia..|].
    assert (∀ g a b, wf_game g →
      ∃ v g', minimax (S (S fuel)) g (max_depth - 1) a b (negb (Color_eqb color0 WHITE))
              = Some (v, g')
              ∧ wf_game g' ∧ v ≠ initial) as Hchild.
    { intros g0 a b Hg0. destruct Hdepth as [-> | ->].
      - destruct (minimax_leaf (S fuel) g0 a b (negb (Color_eqb color0 WHITE)) Hg0)
          as [z Hz].
        exists (Fin z), g0. split; [done|]. split; [done|].
        unfold initial. by destruct (Color_eqb color0 WHITE).
      - destruct (minimax_depth_one fuel g0 a b (negb (Color_eqb color0 WHITE)) Hg0)
          as (v & g' & Hv & Hg' & Hne').
        exists v, g'. split; [done|]. split; [done|].
        unfold initial. by destruct (Color_eqb color0 WHITE). }
    destruct (root_loop_returns (S (S fuel)) max_depth color0 _ Hchild
                (shuffle all_moves) (mkRoot None initial NegInf PosInf g))
      as (s' & -> & _ & Hfrom & _ & Hsome); [done | by rewrite Hshuffle |].
    cbn [mbind option_bind fmap option_fmap option_map fst].
    destruct Hsome as [move Hmove]; [done | | done |].
    { intros E. apply Hne. apply Permutation_nil_r. by rewrite <- (Hshuffle all_moves), E. }
    exists move. rewrite Hmove. split; [done|].
    destruct (Hfrom move Hmove) as [?|Hin]; [done|]. by rewrite Hshuffle in Hin.
Qed.

(** X18. The player of difficulty 1 or 2, asked to move for the side to
    move on a well-formed game: when that side has no generated move it
    returns [False] and leaves the game as it is; otherwise it returns
    [True], and the game has one more move in its history, which is one
    of the generated moves, and the other side to move. *)
Theorem AIPlayer_make_move_plays shuffle fuel g level max_depth :
  (∀ l, shuffle l ≡ₚ l) →
  (2 <= fuel)%nat → wf_game g →
  level = 1 ∨ level = 2 →
  set_difficulty level = (max_depth, None) →
  ∃ all_moves,
    collect_moves g (current_player g) all_positions = Some all_moves
    ∧ (all_moves = [] →
       AIPlayer_make_move shuffle fuel g max_depth None = Some (false, g))
    ∧ (all_moves ≠ [] →
       ∃ move captured g1,
         AIPlayer_make_move shuffle fuel g max_depth None = Some (true, g1)
         ∧ move ∈ all_moves
         ∧ move_history g1 = (move, captured) :: move_history g
         ∧ current_player g1 = opponent (current_player g)).
Proof.
  intros Hshuffle Hfuel Hg Hlevel Hset.
  assert (max_depth = 1 ∨ max_depth = 2) as Hdepth.
  { destruct Hlevel as [-> | ->]; cbn in Hset; injection Hset as <-; auto. }
  destruct (collect_moves_returns g (current_player g) all_positions (proj1 Hg))
    as (all_moves & Hall & _); [apply all_positions_valid|].
  exists all_moves. split; [done|].
  destruct (get_best_move_shallow shuffle fuel g max_depth (current_player g)
              all_moves Hshuffle Hfuel Hg Hall) as [Hnone Hsome].
  unfold AIPlayer_make_move. cbn [default]. split.
  - intros Hnil. by rewrite (Hnone Hnil).
  - intros Hne. destruct (Hsome Hne Hdepth) as (move & -> & Hin).
    cbn [mbind option_bind].
    destruct (collect_moves_elem _ _ _ _ _ Hall Hin)
      as (pos & piece & moves & Hp & Hc & Hm & Hin').
    destruct (generated_move_made g pos piece moves move Hp Hc Hm Hin')
      as [g1 Hmake].
    destruct (make_move_accepted _ _ _ Hmake)
      as (? & captured & ? & ? & _ & _ & _ & _ & _ & _ & _ & _ & Hg1).
    exists move, captured, g1. split; [done|]. split; [done|]. by rewrite Hg1.
Qed.

Lemma AIPlayer_make_move_plays_witness :
  ∃ all_moves,
    collect_moves start (current_player start) all_positions = Some all_moves
    ∧ (all_moves = [] →
       AIPlayer_make_move (fun l => l) 2 start 2 None = Some (false, start))
    ∧ (all_moves ≠ [] →
       ∃ move captured g1,
         AIPlayer_make_move (fun l => l) 2 start 2 None = Some (true, g1)
         ∧ move ∈ all_moves
         ∧ move_history g1 = (move, captured) :: move_history start
         ∧ current_player g1 = opponent (current_player start)).
Proof.
  apply (AIPlayer_make_move_plays (fun l => l) 2 start 2 2).
  - intros l. reflexivity.
  - lia.
  - split; [reflexivity | constructor].
  - by right.
  - reflexivity.
Defined.

(** ** Names of cells and pieces *)

Lemma Position_repr_valid pos :
  is_valid_position pos = true →
  Position_repr pos = Some [65 + level pos; 97 + file pos; 49 + rank pos].
Proof.
  intros H%is_valid_position_spec. unfold Position_repr, chr.
  destruct ((0 <=? 65 + level pos) && (65 + level pos <? 1114112)) eqn:E1.
  2:{ apply andb_false_iff in E1 as [?%Z.leb_gt|?%Z.ltb_ge]; lia. }
  destruct ((0 <=? 97 + file pos) && (97 + file pos <? 1114112)) eqn:E2.
  2:{ apply andb_false_iff in E2 as [?%Z.leb_gt|?%Z.ltb_ge]; lia. }
  cbn [mbind option_bind app]. do 3 f_equal.
  assert (rank pos = 0 ∨ rank pos = 1 ∨ rank pos = 2 ∨ rank pos = 3
          ∨ rank pos = 4 ∨ rank pos = 5 ∨ rank pos = 6 ∨ rank pos = 7) as Hr by lia.
  repeat (destruct Hr as [->|Hr]; [reflexivity|]). by rewrite Hr.
Qed.

Lemma Position_repr_inj p q :
  is_valid_position p = true → is_valid_position q = true →
  Position_repr p = Position_repr q → p = q.
Proof.
  intros Hp Hq. rewrite (Position_repr_valid _ Hp), (Position_repr_valid _ Hq).
  intros [= Hl Hf Hr].
  destruct p as [l r f], q as [l' r' f']. cbn [level rank file] in *.
  f_equal; lia.
Qed.

(** X19. On the board the name of a cell is three characters, the letter
    of the level from [A], the letter of the file from [a] and the digit
    of the rank from [1]; two cells of the board with the same name are
    the same cell. *)
Theorem Position_repr_injective p q :
  is_valid_position p = true → is_valid_position q = true →
  (∃ name, Position_repr p = Some name ∧ length name = 3%nat)
  ∧ (Position_repr p = Position_repr q → p = q).
Proof.
  intros Hp Hq. split.
  - rewrite (Position_repr_valid _ Hp). by eexists.
  - by apply Position_repr_inj.
Qed.

Lemma Position_repr_injective_witness :
  (∃ name, Position_repr (mkPosition 1 3 4) = Some name ∧ length name = 3%nat)
  ∧ (Position_repr (mkPosition 1 3 4) = Position_repr (mkPosition 1 3 4) →
     mkPosition 1 3 4 = mkPosition 1 3 4).
Proof.
  apply (Position_repr_injective (mkPosition 1 3 4) (mkPosition 1 3 4));
    reflexivity.
Defined.

(** X20. [Piece.__repr__] writes the first letter of the colour and the
    first letter of the type, and [KNIGHT] and [KING] begin with the same
    letter: two pieces have the same name exactly when they have the same
    colour and either the same type or the types knight and king. *)
Theorem Piece_repr_knight_king p q :
  Piece_repr p = Piece_repr q
  ↔ color p = color q
    ∧ (type p = type q
       ∨ (type p = KNIGHT ∧ type q = KING)
       ∨ (type p = KING ∧ type q = KNIGHT)).
Proof.
  destruct p as [tp cp], q as [tq cq]. unfold Piece_repr. cbn [type color]. split.
  - intros [= Hc Ht]. split.
    + by destruct cp, cq.
    + destruct tp, tq; try discriminate Ht; auto.
  - intros [-> [-> | [[-> ->] | [-> ->]]]]; reflexivity.
Qed.

(** ** The board state *)

Lemma dict_get_set d key value key' :
  dict_get (dict_set d key value) key'
  = if decide (key = key') then Some value else dict_get d key'.
Proof.
  induction d as [|[k v] d IH]; cbn [dict_set dict_get].
  - done.
  - destruct (decide (k = key)) as [->|Hne]; cbn [dict_get].
    + by destruct (decide (key = key')).
    + rewrite IH. destruct (decide (k = key')) as [->|]; [|done].
      by rewrite decide_False by done.
Qed.

Lemma NoDup_all_positions : NoDup all_positions.
Proof.
  apply NoDup_ListNoDup.
  assert (∀ l : list Position, (fix nodup (l : list Position) : bool :=
            match l with
            | [] => true
            | x :: l => negb (existsb (Position_eqb x) l) && nodup l
            end) l = true → List.NoDup l) as Hcheck.
  { induction l as [|x l IH]; intros H; constructor.
    - apply andb_true_iff in H as [H _]. apply negb_true_iff in H. intros Hin.
      assert (existsb (Position_eqb x) l = true); [|congruence].
      apply existsb_exists. exists x. split; [done|]. by apply Position_eqb_eq.
    - apply IH. by apply andb_true_iff in H as [_ H]. }
  apply Hcheck. vm_compute. reflexivity.
Qed.

(** The loop of [get_board_state] over the cells [ps]. *)
Lemma add_pieces g ps : ∀ d,
  wf_board g → (∀ pos, pos ∈ ps → is_valid_position pos = true) → NoDup ps →
  ∃ d',
    for_acc ps d (add_piece g) = Some d'
    ∧ (∀ pos, is_valid_position pos = true →
         ∃ name piece,
           Position_repr pos = Some name ∧ get_piece g pos = Some piece
           ∧ (pos ∈ ps → is_Some piece → dict_get d' name = Piece_repr <$> piece)
           ∧ (pos ∉ ps ∨ piece = None → dict_get d' name = dict_get d name))
    ∧ ∀ key, is_Some (dict_get d' key) →
        is_Some (dict_get d key)
        ∨ ∃ pos, pos ∈ ps ∧ Position_repr pos = Some key.
Proof.
  induction ps as [|pos ps IH]; intros d Hwf Hv Hnd; cbn [for_acc].
  { exists d. split; [done|]. split; [|by left]. intros pos Hpos.
    destruct (get_piece_valid g pos Hwf Hpos) as [piece Hp].
    exists [65 + level pos; 97 + file pos; 49 + rank pos], piece.
    split; [by apply Position_repr_valid|]. split; [done|].
    split; [by intros ?%elem_of_nil | done]. }
  apply NoDup_cons in Hnd as [Hnotin Hnd].
  assert (is_valid_position pos = true) as Hpos by (apply Hv; left).
  destruct (get_piece_valid g pos Hwf Hpos) as [piece Hp].
  pose proof (Position_repr_valid _ Hpos) as Hname.
  set (name := [65 + level pos; 97 + file pos; 49 + rank pos]) in *.
  set (d1 := match piece with
             | Some p => dict_set d name (Piece_repr p)
             | None => d
             end).
  assert (add_piece g d pos = Some d1) as ->.
  { unfold add_piece. rewrite Hp. cbn [mbind option_bind].
    destruct piece; [|done]. by rewrite Hname. }
  cbn [mbind option_bind].
  destruct (IH d1 Hwf) as (d' & Hd' & Hcells & Hkeys);
    [intros ??; apply Hv; by right|done|].
  exists d'. split; [done|]. split.
  - intros q Hq.
    destruct (Hcells q Hq) as (qname & qpiece & Hqname & Hqp & Hin & Hout).
    exists qname, qpiece. split; [done|]. split; [done|].
    destruct (Position_eqb q pos) eqn:E.
    + apply Position_eqb_eq in E as ->.
      assert (qname = name) as -> by congruence.
      assert (qpiece = piece) as -> by congruence.
      rewrite Hout by (by left). unfold d1. split.
      * intros _ [p ->]. by rewrite dict_get_set, decide_True.
      * intros [Hnot| ->]; [|done]. destruct Hnot. left.
    + assert (q ≠ pos) as Hne.
      { intros ->. assert (Position_eqb pos pos = true) by (by apply Position_eqb_eq).
        congruence. }
      assert (dict_get d1 qname = dict_get d qname) as Hd1.
      { unfold d1. destruct piece as [p|]; [|done].
        rewrite dict_get_set, decide_False; [done|]. intros Heq. apply Hne.
        apply (Position_repr_inj q pos Hq Hpos). by rewrite Hqname, Hname, Heq. }
      split.
      * intros [?|Hin']%elem_of_cons; [done|]. by apply Hin.
      * intros [Hnot| ->].
        -- rewrite Hout, Hd1; [done|]. left. intros ?. apply Hnot. by right.
        -- rewrite Hout, Hd1; [done|]. by right.
  - intros key Hkey. destruct (Hkeys key Hkey) as [H1|(q & Hq & Hqn)].
    + unfold d1 in H1. destruct piece as [p|]; [|by left].
      rewrite dict_get_set in H1. case_decide as Heq; [|by left].
      right. exists pos. split; [left|]. by rewrite Hname, Heq.
    + right. exists q. split; [by right | done].
Qed.

(** X21. [get_board_state] on a well-formed game: ["move_count"] is the
    length of the history, and ["pieces"] maps the name of every occupied
    cell of the board to the name of its piece and has no other key. *)
Theorem get_board_state_pieces g :
  wf_board g →
  ∃ state,
    get_board_state g = Some state
    ∧ current_player_name state = current_player g
    ∧ move_count state = length (move_history g)
    ∧ (∀ pos, is_valid_position pos = true →
         ∃ name piece,
           Position_repr pos = Some name ∧ get_piece g pos = Some piece
           ∧ dict_get (pieces state) name = Piece_repr <$> piece)
    ∧ ∀ key, is_Some (dict_get (pieces state) key) →
        ∃ pos, is_valid_position pos = true ∧ Position_repr pos = Some key.
Proof.
  intros Hwf. unfold get_board_state.
  destruct (add_pieces g all_positions [] Hwf all_positions_valid NoDup_all_positions)
    as (d & -> & Hcells & Hkeys).
  cbn [mbind option_bind]. eexists. split; [reflexivity|].
  cbn [pieces current_player_name move_count]. split; [done|]. split; [done|]. split.
  - intros pos Hpos. destruct (Hcells pos Hpos) as (name & piece & Hn & Hp & Hin & Hout).
    exists name, piece. split; [done|]. split; [done|].
    destruct piece as [p|].
    + apply Hin; [by apply all_positions_complete | by eexists].
    + by rewrite Hout by (by right).
  - intros key Hkey. destruct (Hkeys key Hkey) as [[? H]|(pos & Hin & Hn)]; [done|].
    exists pos. split; [by apply all_positions_valid | done].
Qed.

Lemma get_board_state_pieces_witness :
  ∃ state,
    get_board_state start = Some state
    ∧ current_player_name state = current_player start
    ∧ move_count state = length (move_history start)
    ∧ (∀ pos, is_valid_position pos = true →
         ∃ name piece,
           Position_repr pos = Some name ∧ get_piece start pos = Some piece
           ∧ dict_get (pieces state) name = Piece_repr <$> piece)
    ∧ ∀ key, is_Some (dict_get (pieces state) key) →
        ∃ pos, is_valid_position pos = true ∧ Position_repr pos = Some key.
Proof.
  apply (get_board_state_pieces start). reflexivity.
Defined.

(** ** The evaluation, further *)

(** X22. On a well-formed game [evaluate_position] raises nothing and
    leaves the game as it is; its value is -10000 when White is
    checkmated, 10000 when White is not and Black is, and the sum of the
    material, position, mobility and check terms otherwise. *)
Theorem evaluate_position_cases g :
  wf_board g →
  ∃ value,
    evaluate_position g = Some (value, g)
    ∧ ((is_checkmate g WHITE = Some (true, g) ∧ value = -10000)
       ∨ (is_checkmate g WHITE = Some (false, g)
          ∧ is_checkmate g BLACK = Some (true, g) ∧ value = 10000)
       ∨ (is_checkmate g WHITE = Some (false, g)
          ∧ is_checkmate g BLACK = Some (false, g)
          ∧ evaluate_terms g = Some value)).
Proof.
  intros Hwf. unfold evaluate_position.
  destruct (is_checkmate_returns g WHITE Hwf) as [white Hw].
  destruct (is_checkmate_returns g BLACK Hwf) as [black Hb].
  destruct (evaluate_terms_is_Some g Hwf) as [terms Ht].
  rewrite Hw. destruct white.
  { exists (-10000). split; [done|]. by left. }
  rewrite Hb. destruct black.
  { exists 10000. split; [done|]. right. by left. }
  rewrite Ht. exists terms. split; [done|]. right. by right.
Qed.

Lemma evaluate_position_cases_witness :
  ∃ value,
    evaluate_position start = Some (value, start)
    ∧ ((is_checkmate start WHITE = Some (true, start) ∧ value = -10000)
       ∨ (is_checkmate start WHITE = Some (false, start)
          ∧ is_checkmate start BLACK = Some (true, start) ∧ value = 10000)
       ∨ (is_checkmate start WHITE = Some (false, start)
          ∧ is_checkmate start BLACK = Some (false, start)
          ∧ evaluate_terms start = Some value)).
Proof.
  apply (evaluate_position_cases start). reflexivity.
Defined.

(** X23. The material and position term of one piece is symmetric in the
    colours: a Black piece on the mirrored cell takes from the score what
    the White piece of the same type adds to it. *)
Theorem score_piece_mirror g g' is_endgame score0 pos pt :
  is_valid_position pos = true →
  get_piece g pos = Some (Some (mkPiece pt WHITE)) →
  get_piece g' (mirror pos) = Some (Some (mkPiece pt BLACK)) →
  ∃ value,
    score_piece g is_endgame score0 pos = Some (score0 + value)
    ∧ score_piece g' is_endgame score0 (mirror pos) = Some (score0 - value).
Proof.
  intros Hv%is_valid_position_spec Hw Hb. unfold score_piece.
  rewrite Hw, Hb. cbn [mbind option_bind color type Color_eqb mirror level rank file].
  replace (7 - (7 - rank pos)) with (rank pos) by lia.
  destruct (piece_square_is_Some (mkPiece pt WHITE) is_endgame (rank pos) (file pos))
    as [bonus Hbonus]; [lia..|].
  assert (piece_square (mkPiece pt BLACK) is_endgame (rank pos) (file pos)
          = Some bonus) as Hbonus' by exact Hbonus.
  rewrite Hbonus, Hbonus'. cbn [mbind option_bind].
  exists (if level pos =? 1 then PIECE_VALUES pt + bonus + 10
          else PIECE_VALUES pt + bonus).
  by destruct (level pos =? 1).
Qed.

Lemma score_piece_mirror_witness :
  ∃ value,
    score_piece start false 0 (mkPosition 0 0 0) = Some (0 + value)
    ∧ score_piece (position_of [(mkPosition 0 7 0, mkPiece ROOK BLACK)]) false 0
        (mirror (mkPosition 0 0 0))
      = Some (0 - value).
Proof.
  apply (score_piece_mirror start
           (position_of [(mkPosition 0 7 0, mkPiece ROOK BLACK)]) false 0
           (mkPosition 0 0 0) ROOK).
  - reflexivity.
  - reflexivity.
  - vm_compute. reflexivity.
Defined.
